(** * WhatsApp export ingestion: parser, media correlator, archive pipeline

    A shallow embedding of [server/whatsapp-parser.ts] (class
    [WhatsAppParser]) and [server/streaming-zip-processor.ts] (class
    [StreamingZipProcessor]), and the properties of the specification
    checked against them.

    Conventions of the embedding.
    - A JavaScript string is the list of its UTF-16 code units ([list N]);
      [null] and [undefined] are [None].  Case mapping covers Basic Latin
      and the Latin-1 Supplement; the correlator is also given with the
      case mapping left open ([MediaCorrelator]).
    - A [Date] is its time value in milliseconds; the host time zone is
      taken to have a constant offset, so calendar fields are read off the
      time value directly and differences of instants are differences of
      time values.  An invalid date is [None]; [new Date()] reads a clock
      [now] that the functions take as an argument.
    - A regular expression is a term of [regex], run by a backtracking
      matcher with the priorities of the ECMAScript matcher.
    - Objects mutated in place (messages) are passed and returned by value;
      the identity of a media descriptor is its position in the pool.
    - The disk is the finite map of the paths that exist; what the archive
      library and the streams do with an entry is given with the entry.

    Layout: the code ([JsString], [Regex], [JsDate], [WhatsAppParser],
    [StreamingZipProcessor]), the predicates the properties are stated
    with ([Claims], [RegexSemantics], [Properties], [MediaCorrelator],
    [Jobs]), then the
    proofs by component: first those of the specification, then further
    properties of the code on every input; what the specification says of
    the month, the day and the hour of a timestamp is proved with the
    latter, in [TimestampProperties]. *)

From Stdlib Require Import ZArith NArith List String Ascii Bool Lia.
From stdpp Require Import gmap.
Import ListNotations.

Local Open Scope N_scope.

(** ** Strings *)

Module JsString.

Abbreviation jsstring := (list N).

(** Code units of a literal written in UTF-8 (code points of the Basic
    Multilingual Plane, which is all the source's literals use). *)
Fixpoint utf16 (bs : list N) : jsstring :=
  match bs with
  | [] => []
  | b :: r =>
      if b <? 128 then b :: utf16 r
      else if b <? 224 then
        match r with
        | c :: r' => ((b - 192) * 64 + (c - 128)) :: utf16 r'
        | [] => []
        end
      else
        match r with
        | c :: d :: r' => ((b - 224) * 4096 + (c - 128) * 64 + (d - 128)) :: utf16 r'
        | _ => []
        end
  end.

Definition js (s : string) : jsstring :=
  utf16 (map N_of_ascii (list_ascii_of_string s)).
Arguments js s%_string.

Definition inRange (lo hi c : N) : bool := (lo <=? c) && (c <=? hi).

Definition isDigit (c : N) : bool := inRange 48 57 c.

(** [\w] *)
Definition isWord (c : N) : bool :=
  inRange 97 122 c || inRange 65 90 c || isDigit c || (c =? 95).

(** ECMAScript LineTerminator: what [.] refuses. *)
Definition isLineTerminator (c : N) : bool :=
  (c =? 10) || (c =? 13) || (c =? 8232) || (c =? 8233).

(** ECMAScript WhiteSpace and LineTerminator: [\s], and what [trim] strips. *)
Definition isSpace (c : N) : bool :=
  inRange 9 13 c || (c =? 32) || (c =? 160) || (c =? 5760) ||
  inRange 8192 8202 c || (c =? 8232) || (c =? 8233) || (c =? 8239) ||
  (c =? 8287) || (c =? 12288) || (c =? 65279).

(** Case mapping on Basic Latin and the Latin-1 Supplement; code units of
    other scripts are left as they are (Arabic has no case). *)
Definition lowerChar (c : N) : N :=
  if inRange 65 90 c then c + 32
  else if inRange 192 222 c && negb (c =? 215) then c + 32
  else c.

Definition upperChar (c : N) : N :=
  if inRange 97 122 c then c - 32
  else if inRange 224 254 c && negb (c =? 247) then c - 32
  else c.

Definition toLowerCase (s : jsstring) : jsstring := map lowerChar s.
Definition toUpperCase (s : jsstring) : jsstring := map upperChar s.

Fixpoint trimStart (s : jsstring) : jsstring :=
  match s with
  | c :: r => if isSpace c then trimStart r else s
  | [] => []
  end.

Definition trimEnd (s : jsstring) : jsstring := rev (trimStart (rev s)).

Definition trim (s : jsstring) : jsstring := trimEnd (trimStart s).

Definition eqb (a b : jsstring) : bool := bool_decide (a = b).

Fixpoint startsWith (p s : jsstring) : bool :=
  match p, s with
  | [], _ => true
  | a :: p', b :: s' => (a =? b) && startsWith p' s'
  | _ :: _, [] => false
  end.

Definition endsWith (p s : jsstring) : bool := startsWith (rev p) (rev s).

(** [s.includes(p)] *)
Fixpoint includes (p s : jsstring) : bool :=
  startsWith p s ||
  match s with
  | [] => false
  | _ :: s' => includes p s'
  end.

(** [s.split(sep)] for a one-unit separator: never empty, no piece holds
    the separator. *)
Fixpoint split (sep : N) (s : jsstring) : list jsstring :=
  match s with
  | [] => [[]]
  | c :: r =>
      if c =? sep then [] :: split sep r
      else match split sep r with
           | p :: ps => (c :: p) :: ps
           | [] => [[c]]
           end
  end.

(** JavaScript truthiness of a nullable string: [null], [undefined] and the
    empty string are falsy. *)
Definition truthy (o : option jsstring) : bool :=
  match o with
  | Some (_ :: _) => true
  | _ => false
  end.

End JsString.
Import JsString.

(** ** Regular expressions *)

Module Regex.

Inductive regex : Type :=
| Eps : regex
| Cls : (N -> bool) -> regex              (* one code unit of a class *)
| Cat : regex -> regex -> regex
| Alt : regex -> regex -> regex           (* left alternative first *)
| Rep : bool -> regex -> regex            (* [*] (true) and [*?] (false) *)
| Grp : nat -> regex -> regex             (* capture group number i *)
| Bol : regex                             (* ^ *)
| Eol : regex                             (* $ *)
| Wb : regex.                             (* \b *)

(** Captures, by group number; a group that took no part is [None]. *)
Definition caps := list (option jsstring).

Fixpoint setcap (i : nat) (v : jsstring) (c : caps) : caps :=
  match i, c with
  | O, _ :: r => Some v :: r
  | O, [] => [Some v]
  | S i', x :: r => x :: setcap i' v r
  | S i', [] => None :: setcap i' v []
  end.

Definition cap (i : nat) (c : caps) : option jsstring :=
  match nth_error c i with
  | Some o => o
  | None => None
  end.

Definition wordBefore (prev : option N) : bool :=
  match prev with
  | Some c => isWord c
  | None => false
  end.

Definition wordAt (s : jsstring) : bool :=
  match s with
  | c :: _ => isWord c
  | [] => false
  end.

(** The matcher, in continuation-passing style: [prev] is the code unit
    before the current position (for [^] and [\b]), [s] what is left of the
    input, [k] what follows the sub-expression.  A repetition takes at most
    one iteration per remaining code unit, and an iteration that consumes
    nothing is refused, as in ECMAScript. *)
Fixpoint rmatch {R} (r : regex) (prev : option N) (s : jsstring) (c : caps)
    (k : option N -> jsstring -> caps -> option R) {struct r} : option R :=
  match r with
  | Eps => k prev s c
  | Cls p =>
      match s with
      | x :: s' => if p x then k (Some x) s' c else None
      | [] => None
      end
  | Cat a b => rmatch a prev s c (fun p' s' c' => rmatch b p' s' c' k)
  | Alt a b =>
      match rmatch a prev s c k with
      | Some res => Some res
      | None => rmatch b prev s c k
      end
  | Rep greedy a =>
      (fix loop (n : nat) (prev : option N) (s : jsstring) (c : caps) : option R :=
         match n with
         | O => k prev s c
         | S n' =>
             let more (_ : unit) :=
               rmatch a prev s c
                 (fun p' s' c' =>
                    if (length s' <? length s)%nat then loop n' p' s' c' else None) in
             if greedy then
               match more tt with
               | Some res => Some res
               | None => k prev s c
               end
             else
               match k prev s c with
               | Some res => Some res
               | None => more tt
               end
         end) (length s) prev s c
  | Grp i a =>
      rmatch a prev s c
        (fun p' s' c' => k p' s' (setcap i (firstn (length s - length s') s) c'))
  | Bol => match prev with None => k prev s c | Some _ => None end
  | Eol => match s with [] => k prev s c | _ :: _ => None end
  | Wb => if xorb (wordBefore prev) (wordAt s) then k prev s c else None
  end.

(** [RegExp.prototype.exec]: the leftmost start position at which the
    expression matches.  Group 0 is the whole match. *)
Fixpoint search (r : regex) (prev : option N) (s : jsstring) : option caps :=
  match rmatch (Grp 0 r) prev s [] (fun _ _ c => Some c) with
  | Some c => Some c
  | None =>
      match s with
      | [] => None
      | x :: s' => search r (Some x) s'
      end
  end.

Definition exec (r : regex) (s : jsstring) : option caps := search r None s.

Definition test (r : regex) (s : jsstring) : bool :=
  match exec r s with Some _ => true | None => false end.

(** Combinators for the source's notation. *)
Definition chr (c : N) : regex := Cls (N.eqb c).
Definition str (s : jsstring) : regex := fold_right (fun c r => Cat (chr c) r) Eps s.
(** a literal under the [i] flag *)
Definition chrI (c : N) : regex := Cls (fun x => (upperChar x =? upperChar c)).
Definition strI (s : jsstring) : regex := fold_right (fun c r => Cat (chrI c) r) Eps s.
Definition oneOf (s : jsstring) : regex := Cls (fun x => existsb (N.eqb x) s).
Definition noneOf (s : jsstring) : regex := Cls (fun x => negb (existsb (N.eqb x) s)).
Definition dot : regex := Cls (fun x => negb (isLineTerminator x)).
Definition d : regex := Cls isDigit.
Definition w : regex := Cls isWord.
Definition sp : regex := Cls isSpace.
Definition nsp : regex := Cls (fun x => negb (isSpace x)).
Definition opt (r : regex) : regex := Alt r Eps.
Definition star (r : regex) : regex := Rep true r.
Definition starLazy (r : regex) : regex := Rep false r.
Definition plus (r : regex) : regex := Cat r (Rep true r).
Definition plusLazy (r : regex) : regex := Cat r (Rep false r).
Fixpoint cats (rs : list regex) : regex :=
  match rs with
  | [] => Eps
  | [r] => r
  | r :: rs' => Cat r (cats rs')
  end.
Fixpoint alts (rs : list regex) : regex :=
  match rs with
  | [] => Cls (fun _ => false)
  | [r] => r
  | r :: rs' => Alt r (alts rs')
  end.
Definition d12 : regex := Cat d (opt d).                       (* \d{1,2} *)
Definition d2 : regex := Cat d d.                              (* \d{2} *)
Definition d24 : regex := cats [d; d; opt (Cat d (opt d))].     (* \d{2,4} *)
Definition d8 : regex := cats [d; d; d; d; d; d; d; d].         (* \d{8} *)

End Regex.
Import Regex.

(** ** Dates *)

Module JsDate.
Local Open Scope Z_scope.

Definition msPerDay : Z := 86400000.
Definition msPerHour : Z := 3600000.
Definition msPerMinute : Z := 60000.
Definition msPerSecond : Z := 1000.

(** ECMAScript [DayFromYear], [InLeapYear] and the day within the year at
    which month [m] (0..11) starts. *)
Definition dayFromYear (y : Z) : Z :=
  365 * (y - 1970) + (y - 1969) / 4 - (y - 1901) / 100 + (y - 1601) / 400.

Definition inLeapYear (y : Z) : bool :=
  ((y mod 4 =? 0) && negb (y mod 100 =? 0)) || (y mod 400 =? 0).

Definition monthStart (leap : bool) (m : Z) : Z :=
  let l := if leap then 1 else 0 in
  match m with
  | 0 => 0 | 1 => 31 | 2 => 59 + l | 3 => 90 + l | 4 => 120 + l
  | 5 => 151 + l | 6 => 181 + l | 7 => 212 + l | 8 => 243 + l
  | 9 => 273 + l | 10 => 304 + l | _ => 334 + l
  end.

(** ECMAScript [MakeDay]: a month index outside 0..11 carries into the
    year, a day outside the month carries into the neighbouring months. *)
Definition makeDay (year month date : Z) : Z :=
  let ym := year + month / 12 in
  let mn := month mod 12 in
  dayFromYear ym + monthStart (inLeapYear ym) mn + date - 1.

Definition makeTime (hour minute second : Z) : Z :=
  hour * msPerHour + minute * msPerMinute + second * msPerSecond.

(** ECMAScript [TimeClip]: a time value beyond 8.64e15 ms is [NaN]. *)
Definition timeClip (t : Z) : option Z :=
  if Z.abs t <=? 8640000000000000 then Some t else None.

(** [new Date(year, month, day, hour, minute, second)]; a year 0..99 means
    1900 + year. *)
Definition newDate (year month day hour minute second : Z) : option Z :=
  let yr := if (0 <=? year) && (year <=? 99) then 1900 + year else year in
  timeClip (makeDay yr month day * msPerDay + makeTime hour minute second).

(** ECMAScript [YearFromTime]: the year [y] with
    [dayFromYear y <= day < dayFromYear (y + 1)], found from an estimate that
    is off by one year at most. *)
Definition yearFromDay (day : Z) : Z :=
  let y := 1970 + (400 * day) / 146097 in
  if dayFromYear (y + 1) <=? day then y + 1
  else if day <? dayFromYear y then y - 1
  else y.

Definition dayWithinYear (day : Z) : Z := day - dayFromYear (yearFromDay day).

(** ECMAScript [MonthFromTime] (0..11), from the day within the year. *)
Definition monthFromDay (day : Z) : Z :=
  let leap := inLeapYear (yearFromDay day) in
  let dwy := dayWithinYear day in
  if dwy <? monthStart leap 1 then 0
  else if dwy <? monthStart leap 2 then 1
  else if dwy <? monthStart leap 3 then 2
  else if dwy <? monthStart leap 4 then 3
  else if dwy <? monthStart leap 5 then 4
  else if dwy <? monthStart leap 6 then 5
  else if dwy <? monthStart leap 7 then 6
  else if dwy <? monthStart leap 8 then 7
  else if dwy <? monthStart leap 9 then 8
  else if dwy <? monthStart leap 10 then 9
  else if dwy <? monthStart leap 11 then 10
  else 11.

(** ECMAScript [DateFromTime] (1..31). *)
Definition dateFromDay (day : Z) : Z :=
  dayWithinYear day - monthStart (inLeapYear (yearFromDay day)) (monthFromDay day) + 1.

Definition getFullYear (t : Z) : Z := yearFromDay (t / msPerDay).
(** 0..11 *)
Definition getMonth (t : Z) : Z := monthFromDay (t / msPerDay).
Definition getDate (t : Z) : Z := dateFromDay (t / msPerDay).
Definition getHours (t : Z) : Z := (t mod msPerDay) / msPerHour.
Definition getMinutes (t : Z) : Z := (t mod msPerHour) / msPerMinute.
Definition getTime (t : Z) : Z := t.

(** [parseInt] of a captured run of digits: the value of the longest prefix
    of decimal digits, [None] ([NaN]) when there is none. *)
Fixpoint digitsValue (acc : Z) (s : jsstring) : Z :=
  match s with
  | c :: r => if isDigit c then digitsValue (10 * acc + (Z.of_N c - 48)) r else acc
  | [] => acc
  end.

Definition parseInt (s : option jsstring) : option Z :=
  match s with
  | Some (c :: r) => if isDigit c then Some (digitsValue 0 (c :: r)) else None
  | _ => None
  end.

End JsDate.
Import JsDate.

(** ** The parser: [WhatsAppParser] *)

Module WhatsAppParser.

(** [Omit<InsertMessage, "chatId">]; [mediaSize] is neither read nor
    written by the parser or the correlator and is left out. *)
Record Message : Type := mkMessage {
  content : option jsstring;
  sender : option jsstring;
  isFromMe : bool;
  timestamp : Z;
  isSystemMessage : bool;
  mediaType : option jsstring;
  mediaUrl : option jsstring;
  mediaName : option jsstring;
}.

Record ParsedChat : Type := mkParsedChat {
  name : jsstring;
  messages : list Message;
  isGroup : bool;
}.

Record MediaFile : Type := mkMediaFile {
  filename : jsstring;
  mtimestamp : Z;
  type : jsstring;
}.

Definition setContent (v : option jsstring) (m : Message) : Message :=
  mkMessage v (sender m) (isFromMe m) (timestamp m) (isSystemMessage m)
    (mediaType m) (mediaUrl m) (mediaName m).
Definition setIsFromMe (v : bool) (m : Message) : Message :=
  mkMessage (content m) (sender m) v (timestamp m) (isSystemMessage m)
    (mediaType m) (mediaUrl m) (mediaName m).
Definition setMediaType (v : option jsstring) (m : Message) : Message :=
  mkMessage (content m) (sender m) (isFromMe m) (timestamp m) (isSystemMessage m)
    v (mediaUrl m) (mediaName m).
Definition setMediaUrl (v : option jsstring) (m : Message) : Message :=
  mkMessage (content m) (sender m) (isFromMe m) (timestamp m) (isSystemMessage m)
    (mediaType m) v (mediaName m).
Definition setMediaName (v : option jsstring) (m : Message) : Message :=
  mkMessage (content m) (sender m) (isFromMe m) (timestamp m) (isSystemMessage m)
    (mediaType m) (mediaUrl m) v.

(** *** The patterns *)

Definition meridiemCS : regex := alts [str (js "AM"); str (js "PM"); str (js "ص"); str (js "م")].

(** The timestamp prefix shared by [messageRegex] and [systemMessageRegex]:
    [\d{1,2}\/\d{1,2}\/\d{2,4}[،,]?\s+\d{1,2}:\d{2}(?::\d{2})?\s*(?:AM|PM|ص|م)?] *)
Definition timestampPrefix : regex :=
  cats [d12; str (js "/"); d12; str (js "/"); d24; opt (oneOf (js "،,")); plus sp;
       d12; str (js ":"); d2; opt (Cat (str (js ":")) d2); star sp; opt meridiemCS].

(** [/^\[?(<timestamp>)\]?\s*-?\s*([^:]+?):\s*(.+)$/] *)
Definition messageRegex : regex :=
  cats [Bol; opt (str (js "[")); Grp 1 timestampPrefix; opt (str (js "]")); star sp;
       opt (str (js "-")); star sp; Grp 2 (plusLazy (noneOf (js ":"))); str (js ":");
       star sp; Grp 3 (plus dot); Eol].

(** [/^\[?(<timestamp>)\]?\s*-?\s*(.+)$/] *)
Definition systemMessageRegex : regex :=
  cats [Bol; opt (str (js "[")); Grp 1 timestampPrefix; opt (str (js "]")); star sp;
       opt (str (js "-")); star sp; Grp 2 (plus dot); Eol].

(** [/(.*?)\s*\((?:file attached|الملف مرفق)\)|(.*?)\s*<attached:\s*(.+?)>|<.*?(تم استبعاد|omitted).*?>/i] *)
Definition mediaRegex : regex :=
  alts [cats [Grp 1 (starLazy dot); star sp; str (js "(");
             Alt (strI (js "file attached")) (strI (js "الملف مرفق")); str (js ")")];
        cats [Grp 2 (starLazy dot); star sp; strI (js "<attached:"); star sp;
             Grp 3 (plusLazy dot); str (js ">")];
        cats [str (js "<"); starLazy dot;
             Grp 4 (Alt (strI (js "تم استبعاد")) (strI (js "omitted")));
             starLazy dot; str (js ">")]].

(** [/(?:IMG|VID|AUD|DOC|PTT)-(\d{8})-WA(\d+)/] *)
Definition whatsappMediaRegex : regex :=
  cats [alts [str (js "IMG"); str (js "VID"); str (js "AUD"); str (js "DOC"); str (js "PTT")];
       str (js "-"); Grp 1 d8; str (js "-WA"); Grp 2 (plus d)].

(** [/^Messages and calls are end-to-end encrypted|الرسائل والمكالمات مشفرة|Les messages et les appels sont chiffrés/i]:
    the anchor belongs to the first alternative only. *)
Definition encryptionNoticeRegex : regex :=
  alts [Cat Bol (strI (js "Messages and calls are end-to-end encrypted"));
        strI (js "الرسائل والمكالمات مشفرة");
        strI (js "Les messages et les appels sont chiffrés")].

Definition youIdentifiers : list jsstring :=
  [js "You"; js "you"; js "أنت"; js "انت"; js "Vous"; js "Tu"; js "Tú"; js "Du";
   js "Sie"; js "Você"].

Definition normalizeArabicNumerals (text : jsstring) : jsstring :=
  map (fun c => if inRange 1632 1641 c then c - 1632 + 48 else c) text.

Definition isDirectionMark (c : N) : bool :=
  (c =? 8206) || (c =? 8207) || inRange 8234 8238 c.

Definition normalizeText (text : jsstring) : jsstring :=
  trim (List.filter (fun c => negb (isDirectionMark c)) text).

Definition isYou (sender : jsstring) : bool :=
  let normalizedSender := toLowerCase (trim sender) in
  existsb (fun identifier => JsString.eqb normalizedSender (toLowerCase identifier))
    youIdentifiers.

(** *** [parseTimestamp] *)

Definition dateSep : regex := oneOf (js "/،,").

Definition meridiemCI : regex :=
  alts [strI (js "AM"); strI (js "PM"); strI (js "ص"); strI (js "م")].

Definition formats : list regex :=
  [cats [Grp 1 d12; dateSep; Grp 2 d12; dateSep; Grp 3 d24; opt (oneOf (js "،,")); plus sp;
        Grp 4 d12; str (js ":"); Grp 5 d2; opt (Cat (str (js ":")) (Grp 6 d2)); star sp;
        opt (Grp 7 meridiemCI)];
   cats [Grp 1 d12; dateSep; Grp 2 d12; dateSep; Grp 3 d24; plus sp;
        Grp 4 d12; str (js ":"); Grp 5 d2; opt (Cat (str (js ":")) (Grp 6 d2))]].

(** [yearNum]: a year below 100 is a two-digit year. *)
Definition yearNumOf (year : Z) : Z :=
  if (year <? 100)%Z then (if (year <? 50)%Z then year + 2000 else year + 1900)%Z else year.

(** [hourNum]: the 12-hour to 24-hour conversion. *)
Definition hourNumOf (hour : Z) (meridiem : option jsstring) : Z :=
  if truthy meridiem then
    let mer := toUpperCase (default [] meridiem) in
    if (JsString.eqb mer (js "PM") || JsString.eqb mer (js "م")) && (hour <? 12)%Z then (hour + 12)%Z
    else if (JsString.eqb mer (js "AM") || JsString.eqb mer (js "ص")) && (hour =? 12)%Z then 0%Z
    else hour
  else hour.

(** The body of the loop for one successful [match]: destructuring
    [[, month, day, year, hour, minute, second, meridiem]] and building the
    date.  [None] is an invalid date. *)
Definition dateOfMatch (m : caps) : option Z :=
  let month := cap 1 m in
  let day := cap 2 m in
  let year := cap 3 m in
  let hour := cap 4 m in
  let minute := cap 5 m in
  let second := cap 6 m in
  let meridiem := cap 7 m in
  y ← parseInt year;
  h ← parseInt hour;
  mo ← parseInt month;
  dy ← parseInt day;
  mi ← parseInt minute;
  s ← (if truthy second then parseInt second else Some 0%Z);
  newDate (yearNumOf y) (mo - 1)%Z dy (hourNumOf h meridiem) mi s.

Definition cleanDateStr (dateStr : jsstring) : jsstring :=
  trim (map (fun c => if c =? 1548 then 44 else c)
          (List.filter (fun c => negb ((c =? 91) || (c =? 93))) dateStr)).

Fixpoint tryFormats (fs : list regex) (dateStr : jsstring) : option Z :=
  match fs with
  | [] => None
  | format :: rest =>
      match exec format dateStr with
      | Some m =>
          match dateOfMatch m with
          | Some date => Some date
          | None => tryFormats rest dateStr
          end
      | None => tryFormats rest dateStr
      end
  end.

(** [now] is the wall clock read by the fallback [new Date()]. *)
Definition parseTimestamp (now : Z) (dateStr : jsstring) : Z :=
  default now (tryFormats formats (cleanDateStr dateStr)).

(** *** [parseMediaAttachment] *)

Definition vendorPrefix : regex :=
  alts [strI (js "IMG"); strI (js "VID"); strI (js "AUD"); strI (js "DOC"); strI (js "PTT")].

Definition wordOrDash : regex := Cls (fun c => isWord c || (c =? 45)).

Definition knownExtensions : list jsstring :=
  [js "jpg"; js "jpeg"; js "png"; js "gif"; js "webp"; js "mp4"; js "mov"; js "avi";
   js "3gp"; js "opus"; js "mp3"; js "ogg"; js "m4a"; js "pdf"; js "doc"; js "docx"; js "txt"].

Definition filenamePatterns : list regex :=
  [cats [Bol; vendorPrefix; str (js "-"); d8; str (js "-"); strI (js "WA"); plus d;
        str (js "."); plus w; Eol];
   cats [Bol; plus wordOrDash; str (js ".");
        alts (map strI (knownExtensions ++ [js "xlsx"])); Eol]].

Definition embeddedPatterns : list regex :=
  [cats [vendorPrefix; str (js "-"); d8; str (js "-"); strI (js "WA"); plus d;
        str (js "."); plus w];
   cats [Wb; plus wordOrDash; str (js "."); alts (map strI knownExtensions)]].

(** [/^IMG-\d{8}-WA\d+/i] and its siblings *)
Definition vendorStart (prefixes : list jsstring) : regex :=
  cats [Bol; alts (map strI prefixes); str (js "-"); d8; str (js "-"); strI (js "WA"); plus d].

Definition lowerUrlRegex : regex :=
  cats [Wb; str (js "http"); opt (str (js "s")); str (js "://"); plus nsp].
Definition urlRegex : regex :=
  cats [str (js "http"); opt (str (js "s")); str (js "://"); plus nsp].

(** the first pattern that matches, and its whole match *)
Fixpoint firstMatch (ps : list regex) (s : jsstring) : option jsstring :=
  match ps with
  | [] => None
  | p :: rest =>
      match exec p s with
      | Some m => cap 0 m
      | None => firstMatch rest s
      end
  end.

(** [a || b] on nullable strings *)
Definition orStr (a b : option jsstring) : option jsstring :=
  if truthy a then a else b.

Definition parseMediaAttachment (message : Message) : Message :=
  if negb (truthy (content message)) then message else
  let content := default [] (content message) in
  let lowerContent := toLowerCase content in
  let originalContent := trim content in
  let isBareFilename := existsb (fun pattern => test pattern originalContent) filenamePatterns in
  let extractedFilename :=
    if isBareFilename then Some originalContent
    else firstMatch embeddedPatterns originalContent in
  let hasMediaIndicator :=
    isBareFilename ||
    includes (js "(file attached)") lowerContent ||
    includes (js "(الملف مرفق)") lowerContent ||
    includes (js "الملف مرفق") originalContent ||
    includes (js "<attached:") lowerContent ||
    includes (js "تم استبعاد") originalContent ||
    includes (js "omitted") lowerContent in
  if hasMediaIndicator then
    let mediaMatch := exec mediaRegex content in
    let kind :=
      if includes (js "image omitted") lowerContent ||
         includes (js "تم استبعاد الصورة") originalContent ||
         includes (js ".jpg") lowerContent || includes (js ".png") lowerContent ||
         includes (js ".jpeg") lowerContent || includes (js ".gif") lowerContent ||
         includes (js ".webp") lowerContent ||
         test (vendorStart [js "IMG"]) originalContent
      then js "image"
      else if includes (js "video omitted") lowerContent ||
         includes (js "تم استبعاد الفيديو") originalContent ||
         includes (js ".mp4") lowerContent || includes (js ".mov") lowerContent ||
         includes (js ".avi") lowerContent || includes (js ".3gp") lowerContent ||
         test (vendorStart [js "VID"]) originalContent
      then js "video"
      else if includes (js "audio omitted") lowerContent ||
         includes (js "voice message") lowerContent ||
         includes (js "تم استبعاد الصوت") originalContent ||
         includes (js ".opus") lowerContent || includes (js ".mp3") lowerContent ||
         includes (js "ptt") lowerContent || includes (js ".ogg") lowerContent ||
         includes (js ".m4a") lowerContent ||
         test (vendorStart [js "PTT"; js "AUD"]) originalContent
      then js "audio"
      else if includes (js ".pdf") lowerContent || includes (js ".doc") lowerContent ||
         includes (js ".txt") lowerContent || includes (js ".docx") lowerContent ||
         includes (js ".xlsx") lowerContent ||
         test (vendorStart [js "DOC"]) originalContent
      then js "document"
      else if includes (js "الوسائط") originalContent ||
         includes (js "تم استبعاد") originalContent
      then js "image"
      else js "file" in
    let message := setMediaType (Some kind) message in
    if truthy extractedFilename then
      setMediaName (Some (trim (default [] extractedFilename))) message
    else
      match mediaMatch with
      | Some m =>
          let filename := orStr (orStr (cap 3 m) (cap 1 m)) (cap 2 m) in
          if truthy filename then setMediaName (Some (trim (default [] filename))) message
          else message
      | None => message
      end
  else if test lowerUrlRegex lowerContent then
    match exec urlRegex content with
    | Some urlMatch => setMediaUrl (cap 0 urlMatch) (setMediaType (Some (js "link")) message)
    | None => message
    end
  else message.

(** *** [parseExport] *)

(** [senderCounts]: a [Map] iterates its keys in insertion order, and
    [set] on a key that is present keeps its place. *)
Definition SenderCounts := list (jsstring * nat).

Fixpoint getCount (k : jsstring) (m : SenderCounts) : option nat :=
  match m with
  | [] => None
  | (k', n) :: r => if JsString.eqb k k' then Some n else getCount k r
  end.

Fixpoint setCount (k : jsstring) (n : nat) (m : SenderCounts) : SenderCounts :=
  match m with
  | [] => [(k, n)]
  | (k', n') :: r => if JsString.eqb k k' then (k', n) :: r else (k', n') :: setCount k n r
  end.

(** The variables of the line loop. *)
Record ParseState : Type := mkParseState {
  stMessages : list Message;
  currentMessage : option Message;
  stIsGroup : bool;
  skipFirstLine : bool;
  senderCounts : SenderCounts;
  firstNonSystemSender : option jsstring;
}.

Definition initialState : ParseState := mkParseState [] None false false [] None.

(** [if (currentMessage) messages.push(currentMessage)] *)
Definition pushCurrent (st : ParseState) : list Message :=
  match currentMessage st with
  | Some m => stMessages st ++ [m]
  | None => stMessages st
  end.

(** The group that took part in a successful match. *)
Definition group (i : nat) (m : caps) : jsstring := default [] (cap i m).

(** [currentMessage.content += '\n' + line] *)
Definition appendLine (c : option jsstring) (line : jsstring) : option jsstring :=
  Some (default (js "null") c ++ 10 :: line).

(** [!line.trim()] *)
Definition blank (line : jsstring) : bool :=
  match trim line with
  | [] => true
  | _ :: _ => false
  end.

Definition setSkipFirstLine (v : bool) (st : ParseState) : ParseState :=
  mkParseState (stMessages st) (currentMessage st) (stIsGroup st) v
    (senderCounts st) (firstNonSystemSender st).

Definition normalizeLine (rawLine : jsstring) : jsstring :=
  normalizeArabicNumerals (normalizeText rawLine).

(** [messageMatch] and [systemMatch]: the second pattern is tried only when
    the first fails. *)
Inductive LineMatch : Type :=
| MessageMatch : caps -> LineMatch
| SystemMatch : caps -> LineMatch
| NoMatch : LineMatch.

Definition matchLine (line : jsstring) : LineMatch :=
  match exec messageRegex line with
  | Some messageMatch => MessageMatch messageMatch
  | None =>
      match exec systemMessageRegex line with
      | Some systemMatch => SystemMatch systemMatch
      | None => NoMatch
      end
  end.

(** The three branches of the loop body, on the normalized line. *)
Definition handleLine (now : Z) (line : jsstring) (st : ParseState) : ParseState :=
  match matchLine line with
  | MessageMatch messageMatch =>
      let msgs := pushCurrent st in
      let timestamp := group 1 messageMatch in
      let sender := group 2 messageMatch in
      let content := group 3 messageMatch in
      let parsedTimestamp := parseTimestamp now timestamp in
      let trimmedSender := trim sender in
      let first :=
        if negb (truthy (firstNonSystemSender st)) then Some trimmedSender
        else firstNonSystemSender st in
      let counts :=
        setCount trimmedSender (default 0%nat (getCount trimmedSender (senderCounts st)) + 1)%nat
          (senderCounts st) in
      if isYou trimmedSender then
        mkParseState msgs
          (Some (parseMediaAttachment
                   (mkMessage (Some content) (Some (js "You")) true parsedTimestamp false
                      None None None)))
          (stIsGroup st) (skipFirstLine st) counts first
      else
        mkParseState msgs
          (Some (parseMediaAttachment
                   (mkMessage (Some content) (Some trimmedSender) false parsedTimestamp false
                      None None None)))
          (if (1 <? length counts)%nat then true else stIsGroup st) (skipFirstLine st) counts first
  | SystemMatch systemMatch =>
      let msgs := pushCurrent st in
      let timestamp := group 1 systemMatch in
      let content := group 2 systemMatch in
      mkParseState msgs
        (Some (mkMessage (Some content) None false (parseTimestamp now timestamp) true
                 None None None))
        (stIsGroup st) (skipFirstLine st) (senderCounts st) (firstNonSystemSender st)
  | NoMatch =>
      match currentMessage st with
      | Some cm =>
          if negb (isSystemMessage cm) then
            mkParseState (stMessages st)
              (Some (parseMediaAttachment (setContent (appendLine (content cm) line) cm)))
              (stIsGroup st) (skipFirstLine st) (senderCounts st) (firstNonSystemSender st)
          else st
      | None => st
      end
  end.

(** One iteration of the loop, for line [i]: blank lines and an encryption
    notice on line 0 are passed over. *)
Definition parseLine (now : Z) (i : nat) (rawLine : jsstring) (st : ParseState) : ParseState :=
  if blank rawLine then st
  else if (i =? 0)%nat && test encryptionNoticeRegex rawLine then setSkipFirstLine true st
  else
    handleLine now (normalizeLine rawLine)
      (setSkipFirstLine (if skipFirstLine st && (i =? 1)%nat then false else skipFirstLine st) st).

(** [for (let i = 0; i < lines.length; i++)], from index [i] on. *)
Fixpoint parseLines (now : Z) (i : nat) (lines : list jsstring) (st : ParseState) : ParseState :=
  match lines with
  | [] => st
  | line :: rest => parseLines now (S i) rest (parseLine now i line st)
  end.

(** [senders.sort((a, b) => count(b) - count(a))]: a stable sort by
    decreasing count. *)
Fixpoint insertByCount (counts : SenderCounts) (a : jsstring) (sorted : list jsstring) : list jsstring :=
  match sorted with
  | [] => [a]
  | b :: r =>
      if (default 0 (getCount b counts) <? default 0 (getCount a counts))%nat
      then a :: b :: r
      else b :: insertByCount counts a r
  end.

Definition sortByCount (counts : SenderCounts) (senders : list jsstring) : list jsstring :=
  fold_left (fun sorted a => insertByCount counts a sorted) senders [].

(** [(topSenderCount / totalMessages) * 100 > 60].  The source computes
    this in floating point; on quotients of message counts the comparison
    agrees with the exact one. *)
Definition percentageAbove60 (topSenderCount totalMessages : nat) : bool :=
  (60 * totalMessages <? 100 * topSenderCount)%nat.

(** The sender relabelled as "me", if any. *)
Definition chooseMeSender (counts : SenderCounts) (msgs : list Message) : option jsstring :=
  let senders := map fst counts in
  if (length counts =? 1)%nat then nth_error senders 0
  else if (length counts =? 2)%nat then
    let sortedSenders := sortByCount counts senders in
    let top := default [] (nth_error sortedSenders 0) in
    let topSenderCount := default 0%nat (getCount top counts) in
    let totalMessages := length (List.filter (fun m => negb (isSystemMessage m)) msgs) in
    if percentageAbove60 topSenderCount totalMessages then Some top else None
  else None.

Definition relabel (meSender : jsstring) (message : Message) : Message :=
  if bool_decide (sender message = Some meSender) && negb (isSystemMessage message)
  then setIsFromMe true message else message.

Definition retroactive (counts : SenderCounts) (msgs : list Message) : list Message :=
  let hasYouSender := existsb isFromMe msgs in
  if negb hasYouSender && (0 <? length counts)%nat then
    let meSender := chooseMeSender counts msgs in
    if truthy meSender then map (relabel (default [] meSender)) msgs else msgs
  else msgs.

Definition parseExport (now : Z) (content chatName : jsstring) : ParsedChat :=
  let lines := split 10 content in
  let st := parseLines now 0 lines initialState in
  let msgs := pushCurrent st in
  mkParsedChat chatName (retroactive (senderCounts st) msgs) (stIsGroup st).

(** *** [mapMediaToMessages] *)

(** [getDateKey] builds the text [YYYY-MM-DD] with month and day padded to
    two digits; two keys are the same text exactly when year, month and day
    agree, and the key is only ever compared, so it is kept as the triple. *)
Definition DateKey : Type := Z * Z * Z.

Definition getDateKey (date : Z) : DateKey :=
  (getFullYear date, (getMonth date + 1)%Z, getDate date).

Definition imageExts : list jsstring := [js "jpg"; js "jpeg"; js "png"; js "gif"; js "webp"; js "bmp"].
Definition videoExts : list jsstring := [js "mp4"; js "mov"; js "avi"; js "3gp"; js "mkv"; js "webm"].
Definition audioExts : list jsstring := [js "opus"; js "mp3"; js "ogg"; js "m4a"; js "aac"; js "wav"].
Definition docExts : list jsstring :=
  [js "pdf"; js "doc"; js "docx"; js "txt"; js "xlsx"; js "xls"; js "ppt"; js "pptx"].

Definition inList (x : jsstring) (l : list jsstring) : bool := existsb (JsString.eqb x) l.

Definition mediaTypeMatches (messageType : option jsstring) (fileExtension : jsstring) : bool :=
  if negb (truthy messageType) then false else
  let messageType := default [] messageType in
  let ext := toLowerCase fileExtension in
  if JsString.eqb messageType (js "image") then inList ext imageExts
  else if JsString.eqb messageType (js "video") then inList ext videoExts
  else if JsString.eqb messageType (js "audio") then inList ext audioExts
  else if JsString.eqb messageType (js "document") then inList ext docExts
  else true.

(** The two indexes.  A value is a reference to a descriptor of
    [mediaFiles], kept as its position in that array. *)
Record MediaIndex : Type := mkMediaIndex {
  mediaByDate : gmap DateKey (list nat);
  mediaByFilename : gmap jsstring nat;
}.

Definition indexOne (idx : MediaIndex) (entry : nat * MediaFile) : MediaIndex :=
  let '(ref, media) := entry in
  let dateKey := getDateKey (mtimestamp media) in
  mkMediaIndex
    (<[dateKey := default [] (mediaByDate idx !! dateKey) ++ [ref]]> (mediaByDate idx))
    (<[toLowerCase (filename media) := ref]> (mediaByFilename idx)).

Definition withRefs (mediaFiles : list MediaFile) : list (nat * MediaFile) :=
  combine (seq 0 (length mediaFiles)) mediaFiles.

Definition buildIndex (mediaFiles : list MediaFile) : MediaIndex :=
  fold_left indexOne (withRefs mediaFiles) (mkMediaIndex ∅ ∅).

(** The exact-filename step. *)
Definition exactMatch (byFilename : gmap jsstring nat) (message : Message) : option nat :=
  if truthy (mediaName message)
  then byFilename !! toLowerCase (default [] (mediaName message))
  else None.

(** One candidate of the scored step; the accumulator is
    [(bestScore, bestMatch)]. *)
Definition scoreCandidate (mediaFiles : list MediaFile) (byFilename : gmap jsstring nat)
    (message : Message) (acc : Z * option nat) (ref : nat) : Z * option nat :=
  match nth_error mediaFiles ref with
  | None => acc
  | Some media =>
      let key := toLowerCase (filename media) in
      if bool_decide (is_Some (byFilename !! key)) &&
         negb (bool_decide (byFilename !! key = Some ref))
      then acc
      else
        let timeDiff := Z.abs (getTime (mtimestamp media) - getTime (timestamp message)) in
        let typeMatch := mediaTypeMatches (mediaType message) (type media) in
        if typeMatch && (timeDiff <? 24 * 60 * 60 * 1000)%Z then
          let score := (10000000 - timeDiff)%Z in
          if (fst acc <? score)%Z then (score, Some ref) else acc
        else acc
  end.

Definition fuzzyMatch (mediaFiles : list MediaFile) (idx : MediaIndex) (message : Message)
    : option nat :=
  let dateKey := getDateKey (timestamp message) in
  let candidateMedia := default [] (mediaByDate idx !! dateKey) in
  snd (fold_left (scoreCandidate mediaFiles (mediaByFilename idx) message) candidateMedia
         (0%Z, None)).

Definition findMatch (mediaFiles : list MediaFile) (idx : MediaIndex) (message : Message)
    : option nat :=
  match exactMatch (mediaByFilename idx) message with
  | Some ref => Some ref
  | None => fuzzyMatch mediaFiles idx message
  end.

(** [`/media/${userId}/${bestMatch.filename}`] *)
Definition mediaUrlOf (userId : jsstring) (media : MediaFile) : jsstring :=
  js "/media/" ++ userId ++ js "/" ++ filename media.

(** The body of the loop over the messages: the message after it and the
    filename index after it. *)
Definition correlateMessage (mediaFiles : list MediaFile) (userId : jsstring)
    (idx : MediaIndex) (message : Message) : Message * MediaIndex :=
  if negb (truthy (mediaType message)) || JsString.eqb (default [] (mediaType message)) (js "link")
  then (message, idx)
  else
    match findMatch mediaFiles idx message with
    | Some ref =>
        match nth_error mediaFiles ref with
        | Some bestMatch =>
            let message1 := setMediaUrl (Some (mediaUrlOf userId bestMatch)) message in
            let message2 :=
              if negb (truthy (mediaName message1))
              then setMediaName (Some (filename bestMatch)) message1 else message1 in
            (message2,
             mkMediaIndex (mediaByDate idx)
               (delete (toLowerCase (filename bestMatch)) (mediaByFilename idx)))
        | None => (message, idx)
        end
    | None => (message, idx)
    end.

Fixpoint correlateAll (mediaFiles : list MediaFile) (userId : jsstring)
    (idx : MediaIndex) (msgs : list Message) : list Message * MediaIndex :=
  match msgs with
  | [] => ([], idx)
  | message :: rest =>
      let '(message', idx') := correlateMessage mediaFiles userId idx message in
      let '(rest', idx'') := correlateAll mediaFiles userId idx' rest in
      (message' :: rest', idx'')
  end.

(** The messages as the call leaves them. *)
Definition mapMediaToMessages (msgs : list Message) (mediaFiles : list MediaFile)
    (userId : jsstring) : list Message :=
  fst (correlateAll mediaFiles userId (buildIndex mediaFiles) msgs).

(** *** [parseMediaFilename] *)

Definition substring (a b : nat) (s : jsstring) : jsstring := firstn (b - a) (skipn a s).

(** [filename.split('.').pop() || ''] *)
Definition extensionOf (filename : jsstring) : jsstring :=
  default [] (last (split 46 filename)).

(** The descriptor fields of a file name; [now] is the wall clock read by
    [new Date()].  The date of a vendor name is built from at most four
    digits of year and two of month and day, which is always a valid date. *)
Definition parseMediaFilename (now : Z) (filename : jsstring) : Z * jsstring :=
  match exec whatsappMediaRegex filename with
  | Some m =>
      let dateStr := group 1 m in
      let year := default 0%Z (parseInt (Some (substring 0 4 dateStr))) in
      let month := (default 0%Z (parseInt (Some (substring 4 6 dateStr))) - 1)%Z in
      let day := default 0%Z (parseInt (Some (substring 6 8 dateStr))) in
      (default now (newDate year month day 12 0 0), extensionOf filename)
  | None => (now, extensionOf filename)
  end.

End WhatsAppParser.

(** ** The archive pipeline: [StreamingZipProcessor] *)

Module StreamingZipProcessor.
Import WhatsAppParser.

(** What the archive library and the disk do with one entry: the read
    stream cannot be opened, it (or the write to the destination) fails
    after part of the data went through, or all of the data arrives. *)
Inductive EntryOutcome : Type :=
| OpenFails : EntryOutcome
| StreamFails : EntryOutcome
| Completes : jsstring -> EntryOutcome.

Record Entry : Type := mkEntry {
  fileName : jsstring;
  outcome : EntryOutcome;
}.

(** A file on disk is whole or was left partly written. *)
Inductive FileState : Type := Whole | Partial.

#[global] Instance FileState_eq_dec : EqDecision FileState.
Proof. solve_decision. Defined.

(** The disk: the paths that exist. *)
Definition Disk : Type := gmap jsstring FileState.

Inductive JobStatus : Type := Processing | Completed | Failed.

(** The processor's fields that change, and the world it acts on. *)
Record Processor : Type := mkProcessor {
  disk : Disk;
  extractedMediaPaths : list jsstring;
  status : JobStatus;
  stored : list ParsedChat;
}.

(** What does not change during a job. *)
Record ProcessingOptions : Type := mkOptions {
  filePath : jsstring;
  userId : jsstring;
  now : Z;
  (** the entries of the archive, [None] when it cannot be opened *)
  archive : option (list Entry);
  (** whether the storage layer accepts the chats *)
  storageAccepts : bool;
}.

(** [path.join('uploads', 'media', userId)] *)
Definition mediaFolder (o : ProcessingOptions) : jsstring := js "uploads/media/" ++ userId o.

(** [path.basename(fileName)]: what follows the last [/]. *)
Definition basename (fileName : jsstring) : jsstring := default [] (last (split 47 fileName)).

(** A last part without its extension: [ext] is taken off, unless it is
    the whole of that part. *)
Definition stripSuffix (suffix s : jsstring) : jsstring :=
  if endsWith suffix s && negb (JsString.eqb s suffix)
  then firstn (length s - length suffix) s else s.

(** [path.basename(fileName, ext)]: a path that is [ext] itself gives the
    empty name ([if (suffix === path) return '']); any other path gives its
    last part without [ext], or the last part whole when it is [ext]. *)
Definition basenameWithout (ext fileName : jsstring) : jsstring :=
  if JsString.eqb fileName ext then [] else stripSuffix ext (basename fileName).

(** The display name of a transcript entry. *)
Definition chatNameOf (fileName : jsstring) : jsstring :=
  normalizeText (map (fun c => if c =? 95 then 32 else c) (basenameWithout (js ".txt") fileName)).

Definition destPathOf (o : ProcessingOptions) (fileName : jsstring) : jsstring :=
  mediaFolder o ++ js "/" ++ basename fileName.

Definition setDisk (dk : Disk) (p : Processor) : Processor :=
  mkProcessor dk (extractedMediaPaths p) (status p) (stored p).

(** [fs.unlink]: [None] when it throws (no such file). *)
Definition unlink (path : jsstring) (dk : Disk) : option Disk :=
  match dk !! path with
  | Some _ => Some (delete path dk)
  | None => None
  end.

(** [try { await fs.unlink(path) } catch { log }] *)
Definition unlinkQuietly (dk : Disk) (path : jsstring) : Disk :=
  default dk (unlink path dk).

Definition cleanupOnFailure (o : ProcessingOptions) (p : Processor) : Processor :=
  setDisk (fold_left unlinkQuietly (extractedMediaPaths p) (unlinkQuietly (disk p) (filePath o))) p.

(** The accumulators of [extractZipStreaming]. *)
Record Extracted : Type := mkExtracted {
  chatFiles : list (jsstring * jsstring);
  mediaFiles : list MediaFile;
}.

(** The entry handler: [inl] when the promise is rejected there, [inr] when
    the next entry is asked for.  The processor is returned either way: the
    disk and the ledger keep what was done before a rejection. *)
Definition onEntry (o : ProcessingOptions) (e : Entry) (p : Processor) (acc : Extracted)
    : Processor * (unit + Extracted) :=
  let fileName := fileName e in
  if endsWith (js "/") fileName || startsWith (js "__MACOSX") fileName then (p, inr acc)
  else if endsWith (js ".txt") fileName then
    match outcome e with
    | OpenFails => (p, inl tt)
    | StreamFails => (p, inl tt)
    | Completes content =>
        (p, inr (mkExtracted (chatFiles acc ++ [(chatNameOf fileName, content)]) (mediaFiles acc)))
    end
  else
    match outcome e with
    | OpenFails => (p, inl tt)
    | StreamFails =>
        (* createWriteStream made the file, the pipeline failed *)
        (setDisk (<[destPathOf o fileName := Partial]> (disk p)) p, inl tt)
    | Completes _ =>
        let destPath := destPathOf o fileName in
        let p' :=
          mkProcessor (<[destPath := Whole]> (disk p)) (extractedMediaPaths p ++ [destPath])
            (status p) (stored p) in
        let '(timestamp, ext) := parseMediaFilename (now o) (basename fileName) in
        (p', inr (mkExtracted (chatFiles acc)
                    (mediaFiles acc ++ [mkMediaFile (basename fileName) timestamp ext])))
    end.

Fixpoint readEntries (o : ProcessingOptions) (entries : list Entry) (p : Processor)
    (acc : Extracted) : Processor * (unit + Extracted) :=
  match entries with
  | [] => (p, inr acc)
  | e :: rest =>
      match onEntry o e p acc with
      | (p', inr acc') => readEntries o rest p' acc'
      | (p', inl err) => (p', inl err)
      end
  end.

Definition extractZipStreaming (o : ProcessingOptions) (p : Processor)
    : Processor * (unit + Extracted) :=
  match archive o with
  | None => (p, inl tt)
  | Some entries => readEntries o entries p (mkExtracted [] [])
  end.

Definition parseChats (o : ProcessingOptions) (chatFiles : list (jsstring * jsstring))
    : list ParsedChat :=
  map (fun '(name, content) => parseExport (now o) content name) chatFiles.

(** One correlation pass per transcript, each over the whole of
    [mediaFiles]. *)
Definition mapMediaToChats (o : ProcessingOptions) (parsedChats : list ParsedChat)
    (mediaFiles : list MediaFile) : list ParsedChat :=
  map (fun parsedChat =>
         mkParsedChat (name parsedChat)
           (mapMediaToMessages (messages parsedChat) mediaFiles (userId o))
           (isGroup parsedChat))
    parsedChats.

Definition fail (o : ProcessingOptions) (p : Processor) : Processor :=
  cleanupOnFailure o (mkProcessor (disk p) (extractedMediaPaths p) Failed (stored p)).

(** [process]; the progress reports swallow their own errors and are left
    out. *)
Definition process (o : ProcessingOptions) (p : Processor) : Processor :=
  match extractZipStreaming o p with
  | (p1, inl _) => fail o p1
  | (p1, inr ex) =>
      let parsedChats := parseChats o (chatFiles ex) in
      let parsedChats := mapMediaToChats o parsedChats (mediaFiles ex) in
      if storageAccepts o then
        let p2 := mkProcessor (disk p1) (extractedMediaPaths p1) (status p1) parsedChats in
        match unlink (filePath o) (disk p2) with
        | Some dk => mkProcessor dk (extractedMediaPaths p2) Completed (stored p2)
        | None => fail o p2
        end
      else fail o p1
  end.

(** A new job: the uploaded archive is on disk, nothing is extracted. *)
Definition newProcessor (o : ProcessingOptions) (dk : Disk) : Processor :=
  mkProcessor dk [] Processing [].

End StreamingZipProcessor.

(** ** The claims of the specification, as predicates on the model *)

Module Claims.
Import WhatsAppParser.
Local Open Scope Z_scope.

(** Days of month [mo] (0..11) of year [y]. *)
Definition daysInMonth (y mo : Z) : Z :=
  match mo with
  | 1 => if inLeapYear y then 29 else 28
  | 3 | 5 | 8 | 10 => 30
  | _ => 31
  end.

(** The timestamp normalizer as the specification words it: the first
    numeric field of a matched token is the day of month of the instant and
    the second its month. *)
Definition dayMonthOrder : Prop :=
  forall (now : Z) (dateStr : jsstring) (format : regex) (m : caps) (a b : Z),
    In format formats ->
    exec format (cleanDateStr dateStr) = Some m ->
    parseInt (cap 1 m) = Some a -> parseInt (cap 2 m) = Some b ->
    getDate (parseTimestamp now dateStr) = a /\
    getMonth (parseTimestamp now dateStr) + 1 = b.

(** A meridiem of the afternoon, and one of the morning, in either letter
    case. *)
Definition isPM (mer : jsstring) : Prop :=
  toUpperCase mer = js "PM" \/ toUpperCase mer = js "م".
Definition isAM (mer : jsstring) : Prop :=
  toUpperCase mer = js "AM" \/ toUpperCase mer = js "ص".

(** What the correlator may change in one message: nothing but the link to
    a file of the pool on a media message that is not a link, and the name
    when it counts as not set ([unset]). *)
Definition framed (unset : option jsstring -> Prop) (mediaFiles : list MediaFile)
    (userId : jsstring) (before after : Message) : Prop :=
  content after = content before /\
  sender after = sender before /\
  isFromMe after = isFromMe before /\
  timestamp after = timestamp before /\
  isSystemMessage after = isSystemMessage before /\
  mediaType after = mediaType before /\
  (mediaUrl after <> mediaUrl before ->
   mediaType before <> None /\ mediaType before <> Some (js "link") /\
   exists media, In media mediaFiles /\ mediaUrl after = Some (mediaUrlOf userId media)) /\
  (mediaName after <> mediaName before ->
   unset (mediaName before) /\
   exists media, In media mediaFiles /\ mediaName after = Some (filename media)).

(** The frame property as the specification words it: the name is set only
    when it was null. *)
Definition frameAsStated : Prop :=
  forall (msgs : list Message) (mediaFiles : list MediaFile) (userId : jsstring),
    Forall2 (framed (fun n => n = None) mediaFiles userId) msgs
      (mapMediaToMessages msgs mediaFiles userId).

(** A name that is null or empty. *)
Definition nameUnset (n : option jsstring) : Prop := n = None \/ n = Some [].

(** A media message that is not a link: what the correlator works on. *)
Definition isMedia (m : Message) : bool :=
  truthy (mediaType m) && negb (JsString.eqb (default [] (mediaType m)) (js "link")).

(** The file a message holds once the job has run. *)
Definition assignedFile (m : Message) : option jsstring :=
  if isMedia m then mediaUrl m else None.

(** At-most-once consumption as the specification words it: among the
    chats an ingestion job stores, no two messages, of the same or of
    different transcripts, hold the same file. *)
Definition consumedAtMostOnce : Prop :=
  forall (o : StreamingZipProcessor.ProcessingOptions) (dk : StreamingZipProcessor.Disk)
         (i j a b : nat) (ci cj : ParsedChat) (mi mj : Message) (url : jsstring),
    let p := StreamingZipProcessor.process o (StreamingZipProcessor.newProcessor o dk) in
    nth_error (StreamingZipProcessor.stored p) i = Some ci ->
    nth_error (StreamingZipProcessor.stored p) j = Some cj ->
    nth_error (messages ci) a = Some mi ->
    nth_error (messages cj) b = Some mj ->
    (i, a) <> (j, b) ->
    assignedFile mi = Some url -> assignedFile mj <> Some url.

(** Every entry of the filename index refers to a descriptor of the pool,
    under that descriptor's lower-cased name. *)
Definition indexSound (mediaFiles : list MediaFile) (byFilename : gmap jsstring nat) : Prop :=
  forall (k : jsstring) (ref : nat),
    byFilename !! k = Some ref ->
    exists media, nth_error mediaFiles ref = Some media /\ k = toLowerCase (filename media).

(** The indexes as a run of messages leaves them. *)
Definition indexAfter (mediaFiles : list MediaFile) (userId : jsstring) (idx : MediaIndex)
    (msgs : list Message) : MediaIndex :=
  snd (correlateAll mediaFiles userId idx msgs).

(** A message begun by a user-message line with match [m]: the line's
    content, possibly followed by continuation lines. *)
Definition beginsUser (now : Z) (m : caps) (msg : Message) : Prop :=
  isSystemMessage msg = false /\
  timestamp msg = parseTimestamp now (group 1 m) /\
  exists more, content msg = Some (group 3 m ++ more).

Definition beginsSystem (now : Z) (m : caps) (msg : Message) : Prop :=
  isSystemMessage msg = true /\
  timestamp msg = parseTimestamp now (group 1 m) /\
  content msg = Some (group 2 m).




(** What of a message the attachment of a line depends on. *)
Definition sameText (a b : Message) : Prop :=
  content a = content b /\ timestamp a = timestamp b /\ isSystemMessage a = isSystemMessage b.



(** The keys of [senderCounts], in insertion order. *)
Definition keys (counts : SenderCounts) : list jsstring := map fst counts.

(** The sender of a user message. *)
Definition userSender (msg : Message) : option jsstring :=
  if isSystemMessage msg then None else sender msg.

(** Every user message has a sender, and one that is not a self identifier
    is a key of [senderCounts]. *)
Definition sendersCounted (st : ParseState) : Prop :=
  forall msg, In msg (pushCurrent st) -> isSystemMessage msg = false ->
    exists s, sender msg = Some s /\ (isYou s = false -> In s (keys (senderCounts st))).

(** While the chat is not marked as a group, the senders counted so far
    that are not self identifiers are one and the same. *)
Definition oneOtherParty (st : ParseState) : Prop :=
  stIsGroup st = false ->
  forall k1 k2, In k1 (keys (senderCounts st)) -> In k2 (keys (senderCounts st)) ->
                isYou k1 = false -> isYou k2 = false -> k1 = k2.

(** The distinct elements of a list, in the order they first appear: the
    keys of a [Map] filled from it. *)
Definition addKey (acc : list jsstring) (x : jsstring) : list jsstring :=
  if inList x acc then acc else acc ++ [x].
Definition distinct (l : list jsstring) : list jsstring := fold_left addKey l [].

Definition userSenders (msgs : list Message) : list jsstring :=
  flat_map (fun msg => match userSender msg with Some s => [s] | None => [] end) msgs.

(** [senderCounts.set(s, (senderCounts.get(s) || 0) + 1)], and the map this
    builds from a sequence of senders. *)
Definition countOne (counts : SenderCounts) (s : jsstring) : SenderCounts :=
  setCount s (default 0%nat (getCount s counts) + 1)%nat counts.
Definition tally (l : list jsstring) : SenderCounts := fold_left countOne l [].

Definition occurrences (k : jsstring) (l : list jsstring) : nat :=
  length (List.filter (JsString.eqb k) l).

(** When no message is the user's, [senderCounts] is the tally of the
    senders of the user messages. *)
Definition tallied (st : ParseState) : Prop :=
  existsb isFromMe (pushCurrent st) = false ->
  senderCounts st = tally (userSenders (pushCurrent st)).

(** The distinct senders of the user messages, and those among them that
    are not one of the self identifiers. *)
Definition distinctSenders (msgs : list Message) : list jsstring :=
  distinct (userSenders msgs).

Definition nonSelfSenders (msgs : list Message) : list jsstring :=
  List.filter (fun s => negb (isYou s)) (distinctSenders msgs).

(** The gap between a file and a message, in milliseconds. *)
Definition timeDiffOf (media : MediaFile) (m : Message) : Z :=
  Z.abs (getTime (mtimestamp media) - getTime (timestamp m)).

Definition gapOf (mediaFiles : list MediaFile) (m : Message) (ref : nat) : Z :=
  match nth_error mediaFiles ref with
  | Some media => timeDiffOf media m
  | None => 0
  end.

(** The filename index holds another descriptor under this one's name. *)
Definition shadowed (byFilename : gmap jsstring nat) (ref : nat) (media : MediaFile) : bool :=
  bool_decide (is_Some (byFilename !! toLowerCase (filename media))) &&
  negb (bool_decide (byFilename !! toLowerCase (filename media) = Some ref)).

(** The candidates the scored step can choose: not shadowed, of the
    message's bucket, and less than 10,000,000 ms away. *)
Definition eligible (mediaFiles : list MediaFile) (byFilename : gmap jsstring nat)
    (m : Message) (ref : nat) : Prop :=
  exists media,
    nth_error mediaFiles ref = Some media /\
    shadowed byFilename ref media = false /\
    mediaTypeMatches (mediaType m) (type media) = true /\
    timeDiffOf media m < 10000000.

(** an entry of the pool of day [k] *)
Definition sameDay (k : DateKey) (entry : nat * MediaFile) : bool :=
  bool_decide (getDateKey (mtimestamp (snd entry)) = k).

(** Transcripts for the scenarios: one user-message line per sender of the
    list. *)
Definition lineOf (who : jsstring) : jsstring := js "1/1/23, 10:00 - " ++ who ++ js ": hi".

Fixpoint joinLines (ls : list jsstring) : jsstring :=
  match ls with
  | [] => []
  | [l] => l
  | l :: rest => l ++ 10%N :: joinLines rest
  end.

Definition transcriptOf (who : list jsstring) : jsstring := joinLines (map lineOf who).

End Claims.

(** ** What a pattern can match *)

Module RegexSemantics.

(** The code unit before the position reached after reading [w]. *)
Definition prevAfter (prev : option N) (w : jsstring) : option N :=
  fold_left (fun _ x => Some x) w prev.

(** [Matches r prev s c p' s' c']: from the position with [prev] before it
    and [s] ahead, with captures [c], the expression [r] can read up to the
    position with [p'] before it and [s'] ahead, leaving captures [c'].
    This is every way of matching, whatever the priorities; an iteration of
    a repetition reads at least one code unit. *)
Inductive Matches : regex -> option N -> jsstring -> caps ->
                    option N -> jsstring -> caps -> Prop :=
| MEps prev s c : Matches Eps prev s c prev s c
| MCls p prev x s c : p x = true -> Matches (Cls p) prev (x :: s) c (Some x) s c
| MCat a b prev s c p1 s1 c1 p2 s2 c2 :
    Matches a prev s c p1 s1 c1 -> Matches b p1 s1 c1 p2 s2 c2 ->
    Matches (Cat a b) prev s c p2 s2 c2
| MAltL a b prev s c p' s' c' :
    Matches a prev s c p' s' c' -> Matches (Alt a b) prev s c p' s' c'
| MAltR a b prev s c p' s' c' :
    Matches b prev s c p' s' c' -> Matches (Alt a b) prev s c p' s' c'
| MRepDone g a prev s c : Matches (Rep g a) prev s c prev s c
| MRepMore g a prev s c p1 s1 c1 p2 s2 c2 :
    Matches a prev s c p1 s1 c1 -> (length s1 < length s)%nat ->
    Matches (Rep g a) p1 s1 c1 p2 s2 c2 ->
    Matches (Rep g a) prev s c p2 s2 c2
| MGrp i a prev s c p' s' c' :
    Matches a prev s c p' s' c' ->
    Matches (Grp i a) prev s c p' s' (setcap i (firstn (length s - length s') s) c')
| MBol s c : Matches Bol None s c None s c
| MEol prev c : Matches Eol prev [] c prev [] c
| MWb prev s c :
    xorb (wordBefore prev) (wordAt s) = true -> Matches Wb prev s c prev s c.

(** [Accepts r w]: the expression can read exactly [w], whatever comes
    before and after and whatever the captures are. *)
Definition Accepts (r : regex) (w : jsstring) : Prop :=
  forall prev s' c, exists p' c', Matches r prev (w ++ s') c p' s' c'.

(** An expression without capture groups. *)
Fixpoint groupless (r : regex) : bool :=
  match r with
  | Cat a b | Alt a b => groupless a && groupless b
  | Rep _ a => groupless a
  | Grp _ _ => false
  | _ => true
  end.

(** Every code unit the expression reads satisfies [P]. *)
Fixpoint reads (P : N -> Prop) (r : regex) : Prop :=
  match r with
  | Cls p => forall x, p x = true -> P x
  | Cat a b | Alt a b => reads P a /\ reads P b
  | Rep _ a | Grp _ a => reads P a
  | _ => True
  end.

(** The least and the greatest number of code units the expression reads
    ([None]: no bound). *)
Fixpoint minLen (r : regex) : nat :=
  match r with
  | Cls _ => 1
  | Cat a b => minLen a + minLen b
  | Alt a b => Nat.min (minLen a) (minLen b)
  | Grp _ a => minLen a
  | _ => 0
  end.

Fixpoint maxLen (r : regex) : option nat :=
  match r with
  | Cls _ => Some 1%nat
  | Cat a b =>
      match maxLen a, maxLen b with
      | Some x, Some y => Some (x + y)%nat
      | _, _ => None
      end
  | Alt a b =>
      match maxLen a, maxLen b with
      | Some x, Some y => Some (Nat.max x y)
      | _, _ => None
      end
  | Rep _ _ => None
  | Grp _ a => maxLen a
  | _ => Some 0%nat
  end.

(** An expression that looks at nothing beyond what it reads: no [$] and
    no word boundary. *)
Fixpoint lookless (r : regex) : bool :=
  match r with
  | Eol | Wb => false
  | Cat a b | Alt a b => lookless a && lookless b
  | Rep _ a | Grp _ a => lookless a
  | _ => true
  end.

(** No class of the expression accepts the code unit [x]. *)
Fixpoint refuses (x : N) (r : regex) : bool :=
  match r with
  | Cls p => negb (p x)
  | Cat a b | Alt a b => refuses x a && refuses x b
  | Rep _ a | Grp _ a => refuses x a
  | _ => true
  end.

End RegexSemantics.

(** ** The predicates of the further properties *)

Module Properties.
Import WhatsAppParser.

(** A string with no white space at either end. *)
Definition trimmed (s : jsstring) : Prop := trimStart s = s /\ trimStart (rev s) = rev s.

(** A run of [lo] to [hi] decimal digits. *)
Definition digitRun (lo hi : nat) (w : jsstring) : Prop :=
  forallb isDigit w = true /\ (lo <= length w <= hi)%nat.

(** A code unit that the cleaning of [parseTimestamp] leaves alone: not a
    square bracket, not the Arabic comma. *)
Definition plainUnit (c : N) : bool :=
  negb ((c =? 91) || (c =? 93)) && negb (c =? 1548).

(** The two candidate patterns of [parseTimestamp]. *)
Definition firstFormat : regex := nth 0 formats Eps.
Definition secondFormat : regex := nth 1 formats Eps.

(** The shape of a message that [parseExport] returns: content that is not
    empty; a system message has no sender, is not the user's and carries no
    media; a user message has a sender, trimmed and without a colon, and a
    sender that is one of the self identifiers is written [You] on a message
    of the user. *)
Definition wellFormed (msg : Message) : Prop :=
  truthy (content msg) = true /\
  if isSystemMessage msg
  then sender msg = None /\ isFromMe msg = false /\
       mediaType msg = None /\ mediaUrl msg = None /\ mediaName msg = None
  else exists s, sender msg = Some s /\ trim s = s /\ ~ In 58 s /\
                 (isYou s = true -> s = js "You" /\ isFromMe msg = true).

(** The lines that the loop of [parseExport] hands to the patterns, as it
    normalizes them: those that are neither blank nor the notice on line 0. *)
Fixpoint handledLines (i : nat) (lines : list jsstring) : list jsstring :=
  match lines with
  | [] => []
  | rawLine :: rest =>
      if blank rawLine || ((i =? 0)%nat && test encryptionNoticeRegex rawLine)
      then handledLines (S i) rest
      else normalizeLine rawLine :: handledLines (S i) rest
  end.

(** A line that one of the two line patterns matches. *)
Definition isHeader (line : jsstring) : bool :=
  match matchLine line with
  | NoMatch => false
  | _ => true
  end.

(** The message that a header line begins: its timestamp, its sender and
    the first line of its content. *)
Definition begunBy (now : Z) (line : jsstring) (msg : Message) : Prop :=
  match matchLine line with
  | MessageMatch m =>
      Claims.beginsUser now m msg /\
      sender msg = Some (if isYou (trim (group 2 m)) then js "You" else trim (group 2 m))
  | SystemMatch m => Claims.beginsSystem now m msg /\ sender msg = None
  | NoMatch => False
  end.

(** Among senders in the order of their messages: one that is not [You]
    comes after a different one. *)
Fixpoint followsAnother (seen senders : list jsstring) : bool :=
  match senders with
  | [] => false
  | s :: rest =>
      (negb (JsString.eqb s (js "You")) && existsb (fun s' => negb (JsString.eqb s' s)) seen)
      || followsAnother (seen ++ [s]) rest
  end.

(** What the loop of [parseExport] keeps true of [senderCounts] and of the
    group flag: the keys are distinct; a key that is a self identifier
    stands for a message of [You] and any other key for a message of that
    sender, and the other way round; the flag is [followsAnother] of the
    senders so far. *)
Definition groupInv (st : ParseState) : Prop :=
  let ks := Claims.keys (senderCounts st) in
  let us := Claims.userSenders (pushCurrent st) in
  NoDup ks /\
  (forall k, In k ks -> if isYou k then In (js "You") us else In k us) /\
  (forall s, In s us ->
             if JsString.eqb s (js "You") then exists k, In k ks /\ isYou k = true
             else isYou s = false /\ In s ks) /\
  stIsGroup st = followsAnother [] us.

(** The loop marks as the user's exactly the messages whose sender is
    written [You]. *)
Definition youMarked (st : ParseState) : Prop :=
  forall msg, In msg (pushCurrent st) -> (isFromMe msg = true <-> sender msg = Some (js "You")).

(** The text with a carriage return before every line feed, and what this
    does to the lines. *)
Definition crlf (text : jsstring) : jsstring :=
  flat_map (fun c => if c =? 10 then [13; 10] else [c]) text.

Fixpoint crLines (lines : list jsstring) : list jsstring :=
  match lines with
  | [] => []
  | [l] => [l]
  | l :: rest => (l ++ [13]) :: crLines rest
  end.

(** The prefixes of a vendor file name. *)
Definition vendorTags : list jsstring := [js "IMG"; js "VID"; js "AUD"; js "DOC"; js "PTT"].


(** The message kinds that [mediaTypeMatches] checks against a list of
    extensions. *)
Definition bucketKinds : list jsstring := [js "image"; js "video"; js "audio"; js "document"].

(** The kinds that [parseMediaAttachment] assigns: five kinds of
    attachment, and the link. *)
Definition attachmentKinds : list jsstring :=
  [js "image"; js "video"; js "audio"; js "document"; js "file"].

Definition mediaKinds : list jsstring := attachmentKinds ++ [js "link"].

(** An http or https address without white space. *)
Definition httpUrl (u : jsstring) : Prop :=
  exists rest,
    (u = js "http://" ++ rest \/ u = js "https://" ++ rest) /\
    rest <> [] /\ forallb (fun c => negb (isSpace c)) rest = true.

Definition occursIn (u : jsstring) (text : option jsstring) : Prop :=
  exists pre post, text = Some (pre ++ u ++ post).

(** The media fields of a message as the parser leaves them: the kind is
    one of the six; a message with a media name has a kind; a link has an
    address; the address is an http address that occurs in the content. *)
Definition mediaShaped (msg : Message) : Prop :=
  (forall k, mediaType msg = Some k -> In k mediaKinds) /\
  (mediaName msg <> None -> mediaType msg <> None) /\
  (mediaType msg = Some (js "link") -> mediaUrl msg <> None) /\
  (forall u, mediaUrl msg = Some u -> httpUrl u /\ occursIn u (content msg)).

End Properties.

(** ** The correlator, whatever the engine's case mapping does *)

(** [mapMediaToMessages] and the functions it calls, with
    [String.prototype.toLowerCase] left open: the definitions are those of
    [WhatsAppParser], read with any function in the place of
    [toLowerCase]. *)
Module MediaCorrelator.
Import WhatsAppParser.
Local Open Scope Z_scope.

Section CaseMapping.
Variable toLowerCase : jsstring -> jsstring.

Definition mediaTypeMatches (messageType : option jsstring) (fileExtension : jsstring) : bool :=
  if negb (truthy messageType) then false else
  let messageType := default [] messageType in
  let ext := toLowerCase fileExtension in
  if JsString.eqb messageType (js "image") then inList ext imageExts
  else if JsString.eqb messageType (js "video") then inList ext videoExts
  else if JsString.eqb messageType (js "audio") then inList ext audioExts
  else if JsString.eqb messageType (js "document") then inList ext docExts
  else true.

Definition indexOne (idx : MediaIndex) (entry : nat * MediaFile) : MediaIndex :=
  let '(ref, media) := entry in
  let dateKey := getDateKey (mtimestamp media) in
  mkMediaIndex
    (<[dateKey := default [] (mediaByDate idx !! dateKey) ++ [ref]]> (mediaByDate idx))
    (<[toLowerCase (filename media) := ref]> (mediaByFilename idx)).

Definition buildIndex (mediaFiles : list MediaFile) : MediaIndex :=
  fold_left indexOne (withRefs mediaFiles) (mkMediaIndex ∅ ∅).

(** The exact-filename step. *)
Definition exactMatch (byFilename : gmap jsstring nat) (message : Message) : option nat :=
  if truthy (mediaName message)
  then byFilename !! toLowerCase (default [] (mediaName message))
  else None.

(** One candidate of the scored step; the accumulator is
    [(bestScore, bestMatch)]. *)
Definition scoreCandidate (mediaFiles : list MediaFile) (byFilename : gmap jsstring nat)
    (message : Message) (acc : Z * option nat) (ref : nat) : Z * option nat :=
  match nth_error mediaFiles ref with
  | None => acc
  | Some media =>
      let key := toLowerCase (filename media) in
      if bool_decide (is_Some (byFilename !! key)) &&
         negb (bool_decide (byFilename !! key = Some ref))
      then acc
      else
        let timeDiff := Z.abs (getTime (mtimestamp media) - getTime (timestamp message)) in
        let typeMatch := mediaTypeMatches (mediaType message) (type media) in
        if typeMatch && (timeDiff <? 24 * 60 * 60 * 1000)%Z then
          let score := (10000000 - timeDiff)%Z in
          if (fst acc <? score)%Z then (score, Some ref) else acc
        else acc
  end.

Definition fuzzyMatch (mediaFiles : list MediaFile) (idx : MediaIndex) (message : Message)
    : option nat :=
  let dateKey := getDateKey (timestamp message) in
  let candidateMedia := default [] (mediaByDate idx !! dateKey) in
  snd (fold_left (scoreCandidate mediaFiles (mediaByFilename idx) message) candidateMedia
         (0%Z, None)).

Definition findMatch (mediaFiles : list MediaFile) (idx : MediaIndex) (message : Message)
    : option nat :=
  match exactMatch (mediaByFilename idx) message with
  | Some ref => Some ref
  | None => fuzzyMatch mediaFiles idx message
  end.

(** The body of the loop over the messages: the message after it and the
    filename index after it. *)
Definition correlateMessage (mediaFiles : list MediaFile) (userId : jsstring)
    (idx : MediaIndex) (message : Message) : Message * MediaIndex :=
  if negb (truthy (mediaType message)) || JsString.eqb (default [] (mediaType message)) (js "link")
  then (message, idx)
  else
    match findMatch mediaFiles idx message with
    | Some ref =>
        match nth_error mediaFiles ref with
        | Some bestMatch =>
            let message1 := setMediaUrl (Some (mediaUrlOf userId bestMatch)) message in
            let message2 :=
              if negb (truthy (mediaName message1))
              then setMediaName (Some (filename bestMatch)) message1 else message1 in
            (message2,
             mkMediaIndex (mediaByDate idx)
               (delete (toLowerCase (filename bestMatch)) (mediaByFilename idx)))
        | None => (message, idx)
        end
    | None => (message, idx)
    end.

Fixpoint correlateAll (mediaFiles : list MediaFile) (userId : jsstring)
    (idx : MediaIndex) (msgs : list Message) : list Message * MediaIndex :=
  match msgs with
  | [] => ([], idx)
  | message :: rest =>
      let '(message', idx') := correlateMessage mediaFiles userId idx message in
      let '(rest', idx'') := correlateAll mediaFiles userId idx' rest in
      (message' :: rest', idx'')
  end.

(** The messages as the call leaves them. *)
Definition mapMediaToMessages (msgs : list Message) (mediaFiles : list MediaFile)
    (userId : jsstring) : list Message :=
  fst (correlateAll mediaFiles userId (buildIndex mediaFiles) msgs).

(** Every entry of the filename index refers to a descriptor of the pool,
    under that descriptor's lower-cased name. *)
Definition indexSound (mediaFiles : list MediaFile) (byFilename : gmap jsstring nat) : Prop :=
  forall (k : jsstring) (ref : nat),
    byFilename !! k = Some ref ->
    exists media, nth_error mediaFiles ref = Some media /\ k = toLowerCase (filename media).

(** A file that suits a message: by its name, or by its day, its type and
    a gap of less than 10,000,000 ms. *)
Definition suits (media : MediaFile) (m : Message) : Prop :=
  (exists n, mediaName m = Some n /\ n <> [] /\
             toLowerCase (filename media) = toLowerCase n) \/
  (getDateKey (mtimestamp media) = getDateKey (timestamp m) /\
   mediaTypeMatches (mediaType m) (type media) = true /\
   Z.abs (mtimestamp media - timestamp m) < 10000000).

End CaseMapping.

End MediaCorrelator.

(** ** The terms of the properties of the pipeline *)

Module Jobs.
Import WhatsAppParser StreamingZipProcessor.

(** A directory entry or an entry of the [__MACOSX] folder. *)
Definition skipped (e : Entry) : bool :=
  endsWith (js "/") (fileName e) || startsWith (js "__MACOSX") (fileName e).

Definition isTranscript (e : Entry) : bool :=
  negb (skipped e) && endsWith (js ".txt") (fileName e).

Definition isMediaEntry (e : Entry) : bool :=
  negb (skipped e) && negb (endsWith (js ".txt") (fileName e)).

(** The entry is skipped or all of its data arrives. *)
Definition passes (e : Entry) : bool :=
  skipped e || match outcome e with Completes _ => true | _ => false end.

Definition dataOf (e : Entry) : jsstring :=
  match outcome e with
  | Completes data => data
  | _ => []
  end.

(** The transcripts, the media files and the ledger paths that the entries
    of an archive give. *)
Definition transcriptsOf (entries : list Entry) : list (jsstring * jsstring) :=
  map (fun e => (chatNameOf (fileName e), dataOf e)) (List.filter isTranscript entries).

Definition descriptorOf (o : ProcessingOptions) (e : Entry) : MediaFile :=
  mkMediaFile (basename (fileName e))
    (fst (parseMediaFilename (now o) (basename (fileName e))))
    (snd (parseMediaFilename (now o) (basename (fileName e)))).

Definition poolOf (o : ProcessingOptions) (entries : list Entry) : list MediaFile :=
  map (descriptorOf o) (List.filter isMediaEntry entries).

Definition pathsOf (o : ProcessingOptions) (entries : list Entry) : list jsstring :=
  map (fun e => destPathOf o (fileName e)) (List.filter isMediaEntry entries).

(** The disk once the media files of the entries are written. *)
Definition written (o : ProcessingOptions) (entries : list Entry) (dk : Disk) : Disk :=
  fold_left (fun dk path => <[path := Whole]> dk) (pathsOf o entries) dk.

(** The same job on another archive. *)
Definition withArchive (o : ProcessingOptions) (a : option (list Entry)) : ProcessingOptions :=
  mkOptions (filePath o) (userId o) (now o) a (storageAccepts o).

End Jobs.

(** ** Dates and the timestamp normalizer *)

Module TimestampFacts.
Import WhatsAppParser Claims.
Local Open Scope Z_scope.

Lemma tryFormats_Some (fs : list regex) (s : jsstring) (t : Z) :
  tryFormats fs s = Some t ->
  exists format m, In format fs /\ exec format s = Some m /\ dateOfMatch m = Some t.
Proof.
  induction fs as [|f fs IH]; simpl; [discriminate|].
  destruct (exec f s) as [m|] eqn:Hm.
  - destruct (dateOfMatch m) as [t'|] eqn:Hd.
    + intros [= <-]. exists f, m. auto.
    + intros H. destruct (IH H) as (f' & m' & ? & ? & ?). exists f', m'. auto.
  - intros H. destruct (IH H) as (f' & m' & ? & ? & ?). exists f', m'. auto.
Qed.

Lemma dateOfMatch_fields (m : caps) (t : Z) :
  dateOfMatch m = Some t ->
  exists y h mo dy mi s,
    parseInt (cap 3 m) = Some y /\ parseInt (cap 4 m) = Some h /\
    parseInt (cap 1 m) = Some mo /\ parseInt (cap 2 m) = Some dy /\
    parseInt (cap 5 m) = Some mi /\
    newDate (yearNumOf y) (mo - 1) dy (hourNumOf h (cap 7 m)) mi s = Some t.
Proof.
  unfold dateOfMatch. intros H.
  destruct (parseInt (cap 3 m)) as [y|]; [|discriminate].
  destruct (parseInt (cap 4 m)) as [h|]; [|discriminate].
  destruct (parseInt (cap 1 m)) as [mo|]; [|discriminate].
  destruct (parseInt (cap 2 m)) as [dy|]; [|discriminate].
  destruct (parseInt (cap 5 m)) as [mi|]; [|discriminate].
  simpl in H.
  destruct (if truthy (cap 6 m) then parseInt (cap 6 m) else Some 0) as [s|]; [|discriminate].
  simpl in H. exists y, h, mo, dy, mi, s. repeat split; assumption.
Qed.


Lemma makeTime_bounds (h mi s : Z) :
  0 <= h < 24 -> 0 <= mi < 60 -> 0 <= s < 60 -> 0 <= makeTime h mi s < msPerDay.
Proof. unfold makeTime, msPerDay, msPerHour, msPerMinute, msPerSecond. lia. Qed.

Lemma getHours_makeTime (day h mi s : Z) :
  0 <= h < 24 -> 0 <= mi < 60 -> 0 <= s < 60 ->
  getHours (day * msPerDay + makeTime h mi s) = h.
Proof.
  intros Hh Hmi Hs. unfold getHours.
  pose proof (makeTime_bounds h mi s Hh Hmi Hs) as Hb.
  rewrite Z.add_comm, Z.mod_add by (unfold msPerDay; lia).
  rewrite Z.mod_small by exact Hb.
  unfold makeTime, msPerHour, msPerMinute, msPerSecond.
  symmetry. apply Z.div_unique with (r := mi * 60000 + s * 1000); lia.
Qed.

Lemma day_of_instant (day h mi s : Z) :
  0 <= h < 24 -> 0 <= mi < 60 -> 0 <= s < 60 ->
  (day * msPerDay + makeTime h mi s) / msPerDay = day.
Proof.
  intros Hh Hmi Hs.
  pose proof (makeTime_bounds h mi s Hh Hmi Hs) as Hb.
  rewrite Z.add_comm, Z.div_add by (unfold msPerDay; lia).
  rewrite Z.div_small by exact Hb. reflexivity.
Qed.

Lemma daysInYear_step (y : Z) :
  dayFromYear (y + 1) = dayFromYear y + (if inLeapYear y then 366 else 365).
Proof.
  unfold dayFromYear, inLeapYear.
  destruct (y mod 4 =? 0) eqn:H4; destruct (y mod 100 =? 0) eqn:H100;
    destruct (y mod 400 =? 0) eqn:H400; simpl;
    rewrite ?Z.eqb_eq, ?Z.eqb_neq in *; Z.div_mod_to_equations; lia.
Qed.

Lemma yearFromDay_spec (y day : Z) :
  dayFromYear y <= day < dayFromYear (y + 1) -> yearFromDay day = y.
Proof.
  intros H. unfold yearFromDay.
  pose proof (daysInYear_step y) as Hs.
  pose proof (daysInYear_step (y - 1)) as Hp. replace (y - 1 + 1) with y in Hp by lia.
  pose proof (daysInYear_step (y + 1)) as Hn.
  set (e := 1970 + 400 * day / 146097).
  assert (He : y - 1 <= e <= y + 1).
  { subst e. unfold dayFromYear in *.
    destruct (inLeapYear y), (inLeapYear (y - 1)), (inLeapYear (y + 1));
      Z.div_mod_to_equations; lia. }
  assert (e = y - 1 \/ e = y \/ e = y + 1) as [-> | [-> | ->]] by lia.
  - replace (y - 1 + 1) with y by lia.
    destruct (dayFromYear y <=? day) eqn:E; [reflexivity|]. apply Z.leb_gt in E. lia.
  - destruct (dayFromYear (y + 1) <=? day) eqn:E; [apply Z.leb_le in E; lia|].
    destruct (day <? dayFromYear y) eqn:E2; [apply Z.ltb_lt in E2; lia|]. reflexivity.
  - destruct (dayFromYear (y + 1 + 1) <=? day) eqn:E.
    { apply Z.leb_le in E.  destruct (inLeapYear (y + 1)); lia. }
    destruct (day <? dayFromYear (y + 1)) eqn:E2; [lia|]. apply Z.ltb_ge in E2. lia.
Qed.

Lemma makeDay_in_year (y mo d : Z) :
  0 <= mo < 12 -> 1 <= d <= daysInMonth y mo ->
  makeDay y mo d = dayFromYear y + monthStart (inLeapYear y) mo + d - 1 /\
  dayFromYear y <= makeDay y mo d < dayFromYear (y + 1).
Proof.
  intros Hmo Hd.
  assert (Hm : makeDay y mo d = dayFromYear y + monthStart (inLeapYear y) mo + d - 1).
  { unfold makeDay. rewrite (Z.div_small mo 12), (Z.mod_small mo 12) by lia.
    rewrite Z.add_0_r. reflexivity. }
  split; [exact Hm|]. rewrite Hm, daysInYear_step.
  unfold daysInMonth, monthStart in *.
  assert (mo = 0 \/ mo = 1 \/ mo = 2 \/ mo = 3 \/ mo = 4 \/ mo = 5 \/ mo = 6 \/ mo = 7 \/
          mo = 8 \/ mo = 9 \/ mo = 10 \/ mo = 11) as Hc by lia.
  destruct (inLeapYear y);
    repeat (destruct Hc as [-> | Hc]; [lia|]); subst mo; lia.
Qed.

Lemma calendar_roundtrip (y mo d : Z) :
  0 <= mo < 12 -> 1 <= d <= daysInMonth y mo ->
  yearFromDay (makeDay y mo d) = y /\
  monthFromDay (makeDay y mo d) = mo /\
  dateFromDay (makeDay y mo d) = d.
Proof.
  intros Hmo Hd.
  destruct (makeDay_in_year y mo d Hmo Hd) as [Hm Hin].
  pose proof (yearFromDay_spec y _ Hin) as Hy.
  assert (Hmonth : monthFromDay (makeDay y mo d) = mo).
  { unfold monthFromDay, dayWithinYear. rewrite Hy, Hm.
    unfold daysInMonth, monthStart in *.
    assert (mo = 0 \/ mo = 1 \/ mo = 2 \/ mo = 3 \/ mo = 4 \/ mo = 5 \/ mo = 6 \/ mo = 7 \/
            mo = 8 \/ mo = 9 \/ mo = 10 \/ mo = 11) as Hc by lia.
    destruct (inLeapYear y);
      repeat (destruct Hc as [-> | Hc];
              [repeat match goal with
                      | |- context [?a <? ?b] =>
                          destruct (Z.ltb_spec a b); try lia
                      end; reflexivity|]);
      subst mo;
      repeat match goal with
             | |- context [?a <? ?b] => destruct (Z.ltb_spec a b); try lia
             end; reflexivity. }
  split; [exact Hy|]. split; [exact Hmonth|].
  unfold dateFromDay, dayWithinYear. rewrite Hmonth, Hy, Hm. lia.
Qed.

Lemma instant_calendar (yr mo d h mi s : Z) :
  0 <= mo < 12 -> 1 <= d <= daysInMonth yr mo ->
  0 <= h < 24 -> 0 <= mi < 60 -> 0 <= s < 60 ->
  let t := makeDay yr mo d * msPerDay + makeTime h mi s in
  getFullYear t = yr /\ getMonth t = mo /\ getDate t = d /\ getHours t = h.
Proof.
  intros Hmo Hd Hh Hmi Hs t.
  unfold getFullYear, getMonth, getDate. subst t.
  rewrite day_of_instant by assumption.
  destruct (calendar_roundtrip yr mo d Hmo Hd) as (Hy & Hm & Hdd).
  repeat split; try assumption. apply getHours_makeTime; assumption.
Qed.

Lemma parseTimestamp_matched (now : Z) (dateStr : jsstring) (t : Z) :
  tryFormats formats (cleanDateStr dateStr) = Some t -> parseTimestamp now dateStr = t.
Proof. intros H. unfold parseTimestamp. rewrite H. reflexivity. Qed.

(** What a token that matches a pattern becomes: the instant built from its
    fields. *)

Lemma eqb_true (a b : jsstring) : JsString.eqb a b = true <-> a = b.
Proof. unfold JsString.eqb. apply bool_decide_eq_true. Qed.

Lemma eqb_refl (a : jsstring) : JsString.eqb a a = true.
Proof. apply eqb_true. reflexivity. Qed.

Lemma upper_nonempty (mer lit : jsstring) :
  toUpperCase mer = lit -> lit <> [] -> truthy (Some mer) = true.
Proof. destruct mer; simpl; [intros <-; congruence|reflexivity]. Qed.

Lemma hourNumOf_pm (hour : Z) (mer : jsstring) :
  isPM mer -> hour < 12 -> hourNumOf hour (Some mer) = hour + 12.
Proof.
  intros Hpm Hlt. unfold hourNumOf.
  assert (Ht : truthy (Some mer) = true) by (destruct Hpm as [E|E]; apply (upper_nonempty _ _ E); discriminate).
  rewrite Ht. simpl default.
  assert (Hp : JsString.eqb (toUpperCase mer) (js "PM") || JsString.eqb (toUpperCase mer) (js "م") = true).
  { apply orb_true_iff. destruct Hpm as [E|E]; [left|right]; apply eqb_true; exact E. }
  rewrite Hp. destruct (Z.ltb_spec hour 12); [reflexivity|lia].
Qed.

Lemma hourNumOf_am (hour : Z) (mer : jsstring) :
  isAM mer -> hour = 12 -> hourNumOf hour (Some mer) = 0.
Proof.
  intros Ham ->. unfold hourNumOf.
  assert (Ht : truthy (Some mer) = true) by (destruct Ham as [E|E]; apply (upper_nonempty _ _ E); discriminate).
  rewrite Ht. simpl default.
  destruct Ham as [E|E]; rewrite E; reflexivity.
Qed.

Lemma hourNumOf_none (hour : Z) : hourNumOf hour None = hour.
Proof. reflexivity. Qed.

(** C2, as the specification states it, fails: the token [12/5/23, 3:41 PM]
    has first field 12 and second field 5, and the instant parsed from it is
    the 5th day of month 12. *)
Lemma dayMonthOrder_fails : ~ dayMonthOrder.
Proof.
  intros H.
  destruct (exec (nth 0 formats Eps) (cleanDateStr (js "12/5/23, 3:41 PM"))) as [m|] eqn:E;
    [|vm_compute in E; discriminate].
  specialize (H 0 (js "12/5/23, 3:41 PM") (nth 0 formats Eps) m 12 5).
  assert (Hm : m = [Some (js "12/5/23, 3:41 PM"); Some (js "12"); Some (js "5"); Some (js "23");
                    Some (js "3"); Some (js "41"); None; Some (js "PM")]).
  { vm_compute in E. injection E as <-. reflexivity. }
  subst m.
  destruct H as [Hday _]; [left; reflexivity|exact E|reflexivity|reflexivity|].
  vm_compute in Hday. discriminate.
Qed.

End TimestampFacts.

(** ** The media correlator *)

Module CorrelatorFacts.
Import WhatsAppParser Claims TimestampFacts.
Local Open Scope Z_scope.

Lemma framed_refl unset mediaFiles userId (m : Message) : framed unset mediaFiles userId m m.
Proof.
  unfold framed. repeat (split; [reflexivity|]).
  split; intros H; exfalso; apply H; reflexivity.
Qed.

Lemma truthy_false (o : option jsstring) : truthy o = false <-> o = None \/ o = Some [].
Proof.
  destruct o as [[|c s]|]; simpl; split; intros H; auto; try discriminate;
    destruct H as [H|H]; discriminate.
Qed.

Lemma correlateMessage_frame (mediaFiles : list MediaFile) (userId : jsstring)
    (idx : MediaIndex) (m : Message) :
  framed (fun n => truthy n = false) mediaFiles userId m
    (fst (correlateMessage mediaFiles userId idx m)).
Proof.
  unfold correlateMessage.
  destruct (negb (truthy (mediaType m)) || JsString.eqb (default [] (mediaType m)) (js "link")) eqn:Hskip;
    [apply framed_refl|].
  apply orb_false_iff in Hskip. destruct Hskip as [Ht Hl].
  apply negb_false_iff in Ht.
  destruct (findMatch mediaFiles idx m) as [ref|]; [|apply framed_refl].
  destruct (nth_error mediaFiles ref) as [bestMatch|] eqn:Hn; [|apply framed_refl].
  apply nth_error_In in Hn. simpl fst.
  assert (Hty : mediaType m <> None /\ mediaType m <> Some (js "link")).
  { split; intros E; rewrite E in *; simpl in *; [discriminate|].
    rewrite eqb_refl in Hl. discriminate. }
  unfold framed.
  change (mediaName (setMediaUrl (Some (mediaUrlOf userId bestMatch)) m)) with (mediaName m).
  destruct (truthy (mediaName m)) eqn:Hname;
    simpl; repeat (split; [reflexivity|]);
    (split; [intros _; split; [tauto|split; [tauto|eauto]]|]).
  - intros H. exfalso. apply H. reflexivity.
  - intros _. split; [reflexivity|eauto].
Qed.

Lemma correlateAll_frame (mediaFiles : list MediaFile) (userId : jsstring)
    (msgs : list Message) (idx : MediaIndex) :
  Forall2 (framed (fun n => truthy n = false) mediaFiles userId) msgs
    (fst (correlateAll mediaFiles userId idx msgs)).
Proof.
  revert idx. induction msgs as [|m rest IH]; intros idx; simpl; [constructor|].
  pose proof (correlateMessage_frame mediaFiles userId idx m) as Hm.
  destruct (correlateMessage mediaFiles userId idx m) as [m' idx'].
  specialize (IH idx').
  destruct (correlateAll mediaFiles userId idx' rest) as [rest' idx''].
  simpl in *. constructor; assumption.
Qed.


(** C10, as the specification states it, fails: a message whose name is the
    empty string (which the classifier produces for the content
    [<attached:  >]) gets the name of the matched file. *)
Lemma frameAsStated_fails : ~ frameAsStated.
Proof.
  intros H.
  pose (m := mkMessage None None false 1701790860000 false (Some (js "image")) None (Some [])).
  pose (f := mkMediaFile (js "a.jpg") 1701790860000 (js "jpg")).
  specialize (H [m] [f] (js "u")).
  assert (E : mapMediaToMessages [m] [f] (js "u") =
              [mkMessage None None false 1701790860000 false (Some (js "image"))
                 (Some (js "/media/u/a.jpg")) (Some (js "a.jpg"))])
    by (vm_compute; reflexivity).
  rewrite E in H. inversion H as [|? ? ? ? Hf _]; subst.
  destruct Hf as (_ & _ & _ & _ & _ & _ & _ & Hn).
  destruct Hn as [Hnone _]; [simpl; discriminate|].
  simpl in Hnone. discriminate.
Qed.

(** C10, amended: [mapMediaToMessages] keeps the number and order of the
    messages and leaves content, sender, isFromMe, timestamp,
    isSystemMessage and mediaType of every message unchanged; it changes
    mediaUrl only on a media message that is not a link, to the URL of a
    file of the pool, and it changes mediaName only when mediaName was null
    or the empty string, to the name of a file of the pool. *)
Theorem correlator_frame (msgs : list Message) (mediaFiles : list MediaFile)
    (userId : jsstring) :
  Forall2 (framed nameUnset mediaFiles userId) msgs
    (mapMediaToMessages msgs mediaFiles userId).
Proof.
  unfold mapMediaToMessages.
  eapply Forall2_impl; [apply correlateAll_frame|].
  intros before after (Hc & Hs & Hf & Ht & Hy & Hm & Hu & Hn).
  unfold framed. repeat (split; [assumption|]).
  intros Hne. destruct (Hn Hne) as [Hun Hex]. split; [|exact Hex].
  apply truthy_false. exact Hun.
Qed.

Section Pass.
Variable mediaFiles : list MediaFile.
Variable userId : jsstring.

Lemma withRefs_nth (l : list MediaFile) (start ref : nat) (media : MediaFile) :
  In (ref, media) (combine (seq start (length l)) l) ->
  nth_error l (ref - start) = Some media /\ (start <= ref)%nat.
Proof.
  revert start. induction l as [|x l IH]; intros start; simpl; [contradiction|].
  intros [H|H].
  - injection H as <- <-. rewrite Nat.sub_diag. auto.
  - destruct (IH (S start) H) as [Hn Hle]. split; [|lia].
    replace (ref - start)%nat with (S (ref - S start)) by lia. exact Hn.
Qed.

Lemma indexOne_sound (idx : MediaIndex) (ref : nat) (media : MediaFile) :
  nth_error mediaFiles ref = Some media ->
  indexSound mediaFiles (mediaByFilename idx) ->
  indexSound mediaFiles (mediaByFilename (indexOne idx (ref, media))).
Proof.
  intros Hn Hs k r. simpl.
  destruct (decide (toLowerCase (filename media) = k)) as [<-|Hne].
  - rewrite lookup_insert_eq. intros [= <-]. eauto.
  - rewrite lookup_insert_ne by exact Hne. apply Hs.
Qed.

Lemma fold_indexOne_sound (entries : list (nat * MediaFile)) (idx : MediaIndex) :
  (forall ref media, In (ref, media) entries -> nth_error mediaFiles ref = Some media) ->
  indexSound mediaFiles (mediaByFilename idx) ->
  indexSound mediaFiles (mediaByFilename (fold_left indexOne entries idx)).
Proof.
  revert idx. induction entries as [|[ref media] entries IH]; intros idx Hall Hs; simpl; [exact Hs|].
  apply IH.
  - intros r m' Hin. apply Hall. right. exact Hin.
  - apply indexOne_sound; [apply Hall; left; reflexivity|exact Hs].
Qed.

Lemma buildIndex_sound : indexSound mediaFiles (mediaByFilename (buildIndex mediaFiles)).
Proof.
  unfold buildIndex. apply fold_indexOne_sound.
  - intros ref media Hin. unfold withRefs in Hin.
    destruct (withRefs_nth _ _ _ _ Hin) as [Hn _]. rewrite Nat.sub_0_r in Hn. exact Hn.
  - intros k ref. simpl. rewrite lookup_empty. discriminate.
Qed.

(** The scored step only ever keeps a reference into the pool. *)
Lemma scoreCandidate_valid (byFilename : gmap jsstring nat) (m : Message)
    (acc : Z * option nat) (ref : nat) :
  (forall r, snd acc = Some r -> is_Some (nth_error mediaFiles r)) ->
  forall r, snd (scoreCandidate mediaFiles byFilename m acc ref) = Some r ->
            is_Some (nth_error mediaFiles r).
Proof.
  intros Hacc r. unfold scoreCandidate.
  destruct (nth_error mediaFiles ref) as [media|] eqn:Hn; [|apply Hacc].
  repeat match goal with
         | |- context [if ?c then _ else _] => destruct c
         end; try apply Hacc.
  simpl. intros [= <-]. rewrite Hn. eauto.
Qed.

Lemma fuzzy_fold_valid (byFilename : gmap jsstring nat) (m : Message)
    (cands : list nat) (acc : Z * option nat) :
  (forall r, snd acc = Some r -> is_Some (nth_error mediaFiles r)) ->
  forall r, snd (fold_left (scoreCandidate mediaFiles byFilename m) cands acc) = Some r ->
            is_Some (nth_error mediaFiles r).
Proof.
  revert acc. induction cands as [|c cands IH]; intros acc Hacc; simpl; [exact Hacc|].
  apply IH. apply scoreCandidate_valid. exact Hacc.
Qed.

Lemma findMatch_valid (idx : MediaIndex) (m : Message) (ref : nat) :
  indexSound mediaFiles (mediaByFilename idx) ->
  findMatch mediaFiles idx m = Some ref ->
  is_Some (nth_error mediaFiles ref).
Proof.
  intros Hs. unfold findMatch.
  destruct (exactMatch (mediaByFilename idx) m) as [r|] eqn:He.
  - intros [= <-]. unfold exactMatch in He.
    destruct (truthy (mediaName m)); [|discriminate].
    destruct (Hs _ _ He) as (media & Hn & _). rewrite Hn. eauto.
  - unfold fuzzyMatch. apply fuzzy_fold_valid. simpl. discriminate.
Qed.

(** One message: the index stays sound and only loses entries; a matched
    file loses its entry. *)
Lemma correlateMessage_index (idx : MediaIndex) (m : Message) :
  let idx' := snd (correlateMessage mediaFiles userId idx m) in
  indexSound mediaFiles (mediaByFilename idx) ->
  indexSound mediaFiles (mediaByFilename idx') /\
  (forall k, mediaByFilename idx !! k = None -> mediaByFilename idx' !! k = None) /\
  (forall ref media,
     isMedia m = true -> findMatch mediaFiles idx m = Some ref ->
     nth_error mediaFiles ref = Some media ->
     mediaByFilename idx' !! toLowerCase (filename media) = None).
Proof.
  intros idx' Hs. subst idx'. unfold correlateMessage, isMedia.
  destruct (truthy (mediaType m)); simpl negb; simpl orb; simpl andb.
  2:{ simpl. split; [exact Hs|]. split; [auto|]. intros; discriminate. }
  destruct (JsString.eqb (default [] (mediaType m)) (js "link")); simpl negb.
  { simpl. split; [exact Hs|]. split; [auto|]. intros; discriminate. }
  destruct (findMatch mediaFiles idx m) as [ref|] eqn:Hf.
  2:{ simpl. split; [exact Hs|]. split; [auto|]. intros; discriminate. }
  destruct (findMatch_valid idx m ref Hs Hf) as [bestMatch Hn]. rewrite Hn. simpl.
  split; [|split].
  - intros k r Hk. apply lookup_delete_Some in Hk. destruct Hk as [_ Hk]. apply Hs. exact Hk.
  - intros k Hk. apply lookup_delete_None. right. exact Hk.
  - intros r media _ [= <-] Hn'. rewrite Hn in Hn'. injection Hn' as <-.
    apply lookup_delete_eq.
Qed.

Lemma indexAfter_index (msgs : list Message) (idx : MediaIndex) :
  indexSound mediaFiles (mediaByFilename idx) ->
  indexSound mediaFiles (mediaByFilename (indexAfter mediaFiles userId idx msgs)) /\
  (forall k, mediaByFilename idx !! k = None ->
             mediaByFilename (indexAfter mediaFiles userId idx msgs) !! k = None).
Proof.
  revert idx. induction msgs as [|m rest IH]; intros idx Hs; unfold indexAfter; simpl; [auto|].
  destruct (correlateMessage_index idx m Hs) as (Hs' & Hmono & _).
  destruct (correlateMessage mediaFiles userId idx m) as [m' idx'] eqn:Hc. simpl in *.
  destruct (IH idx' Hs') as [Hs'' Hmono'']. unfold indexAfter in *.
  destruct (correlateAll mediaFiles userId idx' rest) as [rest' idx'']. simpl in *.
  split; [exact Hs''|]. intros k Hk. apply Hmono''. apply Hmono. exact Hk.
Qed.

Lemma indexAfter_app (xs ys : list Message) (idx : MediaIndex) :
  indexAfter mediaFiles userId idx (xs ++ ys) =
  indexAfter mediaFiles userId (indexAfter mediaFiles userId idx xs) ys.
Proof.
  revert idx. induction xs as [|x xs IH]; intros idx; unfold indexAfter in *; simpl; [reflexivity|].
  destruct (correlateMessage mediaFiles userId idx x) as [x' idx'].
  specialize (IH idx').
  destruct (correlateAll mediaFiles userId idx' (xs ++ ys)) as [r1 i1].
  destruct (correlateAll mediaFiles userId idx' xs) as [r2 i2]. simpl in *. exact IH.
Qed.

Lemma indexAfter_cons (m : Message) (rest : list Message) (idx : MediaIndex) :
  indexAfter mediaFiles userId idx (m :: rest) =
  indexAfter mediaFiles userId (snd (correlateMessage mediaFiles userId idx m)) rest.
Proof.
  unfold indexAfter. simpl.
  destruct (correlateMessage mediaFiles userId idx m) as [m' idx']. simpl.
  destruct (correlateAll mediaFiles userId idx' rest) as [r i]. reflexivity.
Qed.

End Pass.

Section Consumption.
Variable mediaFiles : list MediaFile.
Variable userId : jsstring.

Lemma assigned_file_leaves_filename_index
    (before between : list Message) (m m' : Message) (ref : nat) :
  let idx0 := buildIndex mediaFiles in
  let idx1 := indexAfter mediaFiles userId idx0 before in
  let idx2 := indexAfter mediaFiles userId idx0 (before ++ m :: between) in
  isMedia m = true ->
  findMatch mediaFiles idx1 m = Some ref ->
  exactMatch (mediaByFilename idx2) m' <> Some ref.
Proof.
  intros idx0 idx1 idx2 Hmedia Hfind Hexact.
  pose proof (buildIndex_sound mediaFiles) as Hs0.
  destruct (indexAfter_index mediaFiles userId before idx0 Hs0) as [Hs1 _].
  fold idx1 in Hs1.
  destruct (findMatch_valid mediaFiles idx1 m ref Hs1 Hfind) as [media Hn].
  destruct (correlateMessage_index mediaFiles userId idx1 m Hs1) as (Hs1' & _ & Hdel).
  specialize (Hdel ref media Hmedia Hfind Hn).
  assert (E : idx2 = indexAfter mediaFiles userId
                       (snd (correlateMessage mediaFiles userId idx1 m)) between).
  { subst idx2 idx1. rewrite indexAfter_app, indexAfter_cons. reflexivity. }
  destruct (indexAfter_index mediaFiles userId between _ Hs1') as [Hs2 Hmono].
  rewrite <- E in Hs2, Hmono.
  apply Hmono in Hdel.
  unfold exactMatch in Hexact. destruct (truthy (mediaName m')); [|discriminate].
  destruct (Hs2 _ _ Hexact) as (media' & Hn' & Hk).
  rewrite Hn in Hn'. injection Hn' as <-.
  rewrite Hk in Hexact. rewrite Hdel in Hexact. discriminate.
Qed.

End Consumption.

(** C1, as the specification states it, fails: an archive with two
    transcripts that both name the picture [IMG-20231205-WA0001.jpg] and
    that one picture stores two messages holding it. *)
Lemma consumedAtMostOnce_fails : ~ consumedAtMostOnce.
Proof.
  intros H.
  pose (line := js "12/5/23, 3:42 PM - John: IMG-20231205-WA0001.jpg").
  pose (o := StreamingZipProcessor.mkOptions (js "uploads/x.zip") (js "u") 0
               (Some [StreamingZipProcessor.mkEntry (js "a.txt") (StreamingZipProcessor.Completes line);
                      StreamingZipProcessor.mkEntry (js "b.txt") (StreamingZipProcessor.Completes line);
                      StreamingZipProcessor.mkEntry (js "IMG-20231205-WA0001.jpg")
                        (StreamingZipProcessor.Completes [])])
               true).
  pose (dk := ({[ js "uploads/x.zip" := StreamingZipProcessor.Whole ]} : StreamingZipProcessor.Disk)).
  pose (msg := mkMessage (Some (js "IMG-20231205-WA0001.jpg")) (Some (js "John")) true
                 1701790920000 false (Some (js "image"))
                 (Some (js "/media/u/IMG-20231205-WA0001.jpg"))
                 (Some (js "IMG-20231205-WA0001.jpg"))).
  assert (E : StreamingZipProcessor.stored
                (StreamingZipProcessor.process o (StreamingZipProcessor.newProcessor o dk)) =
              [mkParsedChat (js "a") [msg] false; mkParsedChat (js "b") [msg] false])
    by (vm_compute; reflexivity).
  specialize (H o dk 0%nat 1%nat 0%nat 0%nat (mkParsedChat (js "a") [msg] false)
                (mkParsedChat (js "b") [msg] false) msg msg
                (js "/media/u/IMG-20231205-WA0001.jpg")).
  cbv zeta in H. rewrite E in H.
  apply H; try reflexivity. intros [= Hij].
Qed.

(** Within one pass the scored step does not look at what was assigned
    before: two voice messages of the same day are both given the only
    recording. *)
Example scored_step_reuses_assigned_file :
  let voice := mkMessage (Some (js "<Media omitted>")) (Some (js "John")) false
                 1701781200000 false (Some (js "audio")) None None in
  let recording := mkMediaFile (js "b.mp3") 1701777600000 (js "mp3") in
  map mediaUrl (mapMediaToMessages [voice; voice] [recording] (js "u")) =
  [Some (js "/media/u/b.mp3"); Some (js "/media/u/b.mp3")].
Proof. vm_compute. reflexivity. Qed.

(** C1, amended: within one correlation pass a file that has been assigned
    to a message, by either step, is removed from the filename index, so
    no later message of the pass obtains it through the exact-filename
    step; and every transcript of the archive is correlated on its own
    against the whole pool, so two transcripts may be given the same
    file. *)
Theorem exact_step_consumes (mediaFiles : list MediaFile) (userId : jsstring)
    (before between : list Message) (m m' : Message) (ref : nat) :
  isMedia m = true ->
  findMatch mediaFiles (indexAfter mediaFiles userId (buildIndex mediaFiles) before) m = Some ref ->
  exactMatch
    (mediaByFilename
       (indexAfter mediaFiles userId (buildIndex mediaFiles) (before ++ m :: between))) m'
    <> Some ref /\
  forall (o : StreamingZipProcessor.ProcessingOptions) (chats : list ParsedChat),
    StreamingZipProcessor.userId o = userId ->
    map messages (StreamingZipProcessor.mapMediaToChats o chats mediaFiles) =
    map (fun chat => mapMediaToMessages (messages chat) mediaFiles userId) chats.
Proof.
  intros Hmedia Hfind. split.
  - exact (assigned_file_leaves_filename_index mediaFiles userId before between m m' ref
             Hmedia Hfind).
  - intros o chats <-. unfold StreamingZipProcessor.mapMediaToChats.
    rewrite map_map. reflexivity.
Qed.

Lemma exact_step_consumes_witness :
  let picture := mkMediaFile (js "a.jpg") 1701777600000 (js "jpg") in
  let m := mkMessage (Some (js "a.jpg")) (Some (js "John")) false 1701781200000 false
             (Some (js "image")) None (Some (js "a.jpg")) in
  exactMatch (mediaByFilename (indexAfter [picture] (js "u") (buildIndex [picture]) ([] ++ [m]))) m
  <> Some 0%nat.
Proof.
  intros picture m.
  apply (exact_step_consumes [picture] (js "u") [] [] m m 0%nat); vm_compute; reflexivity.
Defined.

Section Scored.
Variable mediaFiles : list MediaFile.
Variable byFilename : gmap jsstring nat.
Variable m : Message.

Let step := scoreCandidate mediaFiles byFilename m.
Let score (ref : nat) : Z := 10000000 - gapOf mediaFiles m ref.

Lemma scoreCandidate_cases (acc : Z * option nat) (ref : nat) :
  0 <= fst acc ->
  (step acc ref = (score ref, Some ref) /\ eligible mediaFiles byFilename m ref /\
   fst acc < score ref) \/
  (step acc ref = acc /\ (eligible mediaFiles byFilename m ref -> score ref <= fst acc)).
Proof.
  intros Hacc. unfold step, score, scoreCandidate, gapOf, eligible.
  destruct (nth_error mediaFiles ref) as [media|] eqn:Hn.
  2:{ right. split; [reflexivity|]. intros (media & Hm & _). discriminate. }
  fold (shadowed byFilename ref media). fold (timeDiffOf media m).
  destruct (shadowed byFilename ref media) eqn:Hsh.
  { right. split; [reflexivity|]. intros (media' & [= <-] & Hs & _). congruence. }
  destruct (mediaTypeMatches (mediaType m) (type media)) eqn:Hty; simpl andb.
  2:{ right. split; [reflexivity|]. intros (media' & [= <-] & _ & Ht & _). congruence. }
  destruct (Z.ltb_spec (timeDiffOf media m) (24 * 60 * 60 * 1000)) as [Hd|Hd].
  2:{ right. split; [reflexivity|]. intros (media' & [= <-] & _ & _ & Hg). lia. }
  cbv zeta.
  destruct (Z.ltb_spec (fst acc) (10000000 - timeDiffOf media m)) as [Hs|Hs].
  - left. split; [reflexivity|]. split; [|exact Hs].
    exists media. repeat split; try assumption. lia.
  - right. split; [reflexivity|]. intros _. exact Hs.
Qed.

Lemma scored_fold (cands : list nat) (acc : Z * option nat) :
  0 <= fst acc ->
  (fold_left step cands acc = acc /\
   forall x, In x cands -> eligible mediaFiles byFilename m x -> score x <= fst acc) \/
  (exists l1 r l2,
     cands = l1 ++ r :: l2 /\ eligible mediaFiles byFilename m r /\
     fold_left step cands acc = (score r, Some r) /\ fst acc < score r /\
     (forall x, In x l1 -> eligible mediaFiles byFilename m x -> score x < score r) /\
     (forall x, In x l2 -> eligible mediaFiles byFilename m x -> score x <= score r)).
Proof.
  revert acc. induction cands as [|c cands IH]; intros acc Hacc.
  - left. split; [reflexivity|]. intros x [].
  - simpl fold_left.
    destruct (scoreCandidate_cases acc c Hacc) as [(Hstep & Hel & Hlt)|(Hstep & Hle)];
      rewrite Hstep.
    + destruct (IH (score c, Some c)) as [(Hf & Hall)|(l1 & r & l2 & -> & Hr & Hf & Hs & H1 & H2)];
        [simpl; lia| |].
      * right. exists [], c, cands. simpl in *. repeat split; try assumption.
        intros x [].
      * right. exists (c :: l1), r, l2. simpl in *. repeat split; try assumption; try lia.
        intros x [<-|Hx] Hx'; [lia|]. apply H1; assumption.
    + destruct (IH acc Hacc) as [(Hf & Hall)|(l1 & r & l2 & -> & Hr & Hf & Hs & H1 & H2)].
      * left. split; [exact Hf|]. intros x [<-|Hx] Hx'; [apply Hle; exact Hx'|].
        apply Hall; assumption.
      * right. exists (c :: l1), r, l2. simpl. repeat split; try assumption.
        intros x [<-|Hx] Hx'; [specialize (Hle Hx'); lia|]. apply H1; assumption.
Qed.

End Scored.

(** What the scored step chooses: among the candidates of the message's
    day, in the order they were seen, the eligible one with the smallest
    gap, the first of them when several share it; nothing when none is
    eligible. *)
Lemma fuzzyMatch_choice (mediaFiles : list MediaFile) (idx : MediaIndex) (m : Message) :
  let cands := default [] (mediaByDate idx !! getDateKey (timestamp m)) in
  match fuzzyMatch mediaFiles idx m with
  | Some r =>
      exists l1 l2,
        cands = l1 ++ r :: l2 /\ eligible mediaFiles (mediaByFilename idx) m r /\
        (forall x, In x l1 -> eligible mediaFiles (mediaByFilename idx) m x ->
                   gapOf mediaFiles m r < gapOf mediaFiles m x) /\
        (forall x, In x l2 -> eligible mediaFiles (mediaByFilename idx) m x ->
                   gapOf mediaFiles m r <= gapOf mediaFiles m x)
  | None => forall x, In x cands -> ~ eligible mediaFiles (mediaByFilename idx) m x
  end.
Proof.
  intros cands. unfold fuzzyMatch. fold cands.
  destruct (scored_fold mediaFiles (mediaByFilename idx) m cands (0, None))
    as [(Hf & Hall)|(l1 & r & l2 & Hc & Hr & Hf & Hs & H1 & H2)]; [simpl; lia| |];
    rewrite Hf; simpl snd.
  - intros x Hx Hel. specialize (Hall x Hx Hel). simpl in Hall.
    destruct Hel as (media & Hn & _ & _ & Hg). unfold gapOf in Hall. rewrite Hn in Hall. lia.
  - exists l1, l2. repeat split; try assumption.
    + intros x Hx Hel. specialize (H1 x Hx Hel). lia.
    + intros x Hx Hel. specialize (H2 x Hx Hel). lia.
Qed.

Lemma byDate_fold (entries : list (nat * MediaFile)) (idx : MediaIndex) (k : DateKey) :
  default [] (mediaByDate (fold_left indexOne entries idx) !! k) =
  default [] (mediaByDate idx !! k) ++ map fst (List.filter (sameDay k) entries).
Proof.
  revert idx. induction entries as [|[ref media] entries IH]; intros idx.
  - simpl. rewrite app_nil_r. reflexivity.
  - simpl fold_left. rewrite IH. simpl List.filter. unfold sameDay. cbn [snd mediaByDate].
    destruct (decide (getDateKey (mtimestamp media) = k)) as [E|E].
    + rewrite bool_decide_eq_true_2 by exact E.
      rewrite E, lookup_insert_eq. simpl. rewrite <- app_assoc. reflexivity.
    + rewrite bool_decide_eq_false_2 by exact E.
      rewrite lookup_insert_ne by exact E. reflexivity.
Qed.

Lemma withRefs_In (l : list MediaFile) (start ref : nat) (media : MediaFile) :
  nth_error l ref = Some media -> In ((start + ref)%nat, media) (combine (seq start (length l)) l).
Proof.
  revert start ref. induction l as [|x l IH]; intros start ref Hn; [destruct ref; discriminate|].
  destruct ref as [|ref]; simpl in *.
  - injection Hn as ->. left. rewrite Nat.add_0_r. reflexivity.
  - right. specialize (IH (S start) ref Hn).
    replace (S start + ref)%nat with (start + S ref)%nat in IH by lia. exact IH.
Qed.

(** The candidates of a day are the files of the pool of that day, in the
    order of the pool. *)
Lemma candidates_of_day (mediaFiles : list MediaFile) (k : DateKey) (ref : nat) :
  In ref (default [] (mediaByDate (buildIndex mediaFiles) !! k)) <->
  exists media, nth_error mediaFiles ref = Some media /\ getDateKey (mtimestamp media) = k.
Proof.
  unfold buildIndex. rewrite byDate_fold. cbn [mediaByDate]. rewrite lookup_empty. simpl.
  rewrite in_map_iff. split.
  - intros ([r media] & <- & Hin). apply filter_In in Hin.
    destruct Hin as [Hin Hday].
    unfold withRefs in Hin. destruct (withRefs_nth _ _ _ _ Hin) as [Hn _].
    rewrite Nat.sub_0_r in Hn. exists media. split; [exact Hn|].
    unfold sameDay in Hday. simpl in Hday. apply bool_decide_eq_true in Hday. exact Hday.
  - intros (media & Hn & Hday). exists (ref, media). split; [reflexivity|].
    apply filter_In. split.
    + unfold withRefs. apply (withRefs_In mediaFiles 0 ref media Hn).
    + unfold sameDay. simpl. apply bool_decide_eq_true. exact Hday.
Qed.

Lemma correlateMessage_byDate (mediaFiles : list MediaFile) (userId : jsstring)
    (idx : MediaIndex) (m : Message) :
  mediaByDate (snd (correlateMessage mediaFiles userId idx m)) = mediaByDate idx.
Proof.
  unfold correlateMessage.
  repeat match goal with
         | |- context [if ?c then _ else _] => destruct c
         | |- context [match ?c with Some _ => _ | None => _ end] => destruct c
         end; reflexivity.
Qed.

Lemma indexAfter_byDate (mediaFiles : list MediaFile) (userId : jsstring)
    (msgs : list Message) (idx : MediaIndex) :
  mediaByDate (indexAfter mediaFiles userId idx msgs) = mediaByDate idx.
Proof.
  revert idx. induction msgs as [|m rest IH]; intros idx; [reflexivity|].
  rewrite indexAfter_cons, IH. apply correlateMessage_byDate.
Qed.

(** C6, at the failing input: the only file of the message's day is an
    [.mp3] three hours from an audio message (same day, bucket right, well
    under 24 hours) and it is not assigned; at a gap of two hours it is. *)
Theorem scored_step_three_hour_gap :
  let audio := mkMessage (Some (js "<Media omitted>")) (Some (js "John")) false
                 1701788400000 false (Some (js "audio")) None None in
  let audio2 := mkMessage (Some (js "<Media omitted>")) (Some (js "John")) false
                 1701784800000 false (Some (js "audio")) None None in
  let recording := mkMediaFile (js "x.mp3") 1701777600000 (js "mp3") in
  getDateKey (mtimestamp recording) = getDateKey (timestamp audio) /\
  mediaTypeMatches (mediaType audio) (type recording) = true /\
  Z.abs (mtimestamp recording - timestamp audio) = 3 * 60 * 60 * 1000 /\
  mapMediaToMessages [audio] [recording] (js "u") = [audio] /\
  Z.abs (mtimestamp recording - timestamp audio2) = 2 * 60 * 60 * 1000 /\
  map mediaUrl (mapMediaToMessages [audio2] [recording] (js "u")) = [Some (js "/media/u/x.mp3")].
Proof. vm_compute. repeat split; reflexivity. Qed.

End CorrelatorFacts.

(** ** The archive pipeline *)

Module PipelineFacts.
Import WhatsAppParser StreamingZipProcessor Claims.

Lemma unlinkQuietly_gone (dk : Disk) (path : jsstring) : unlinkQuietly dk path !! path = None.
Proof.
  unfold unlinkQuietly, unlink. destruct (dk !! path) eqn:E; simpl.
  - apply lookup_delete_eq.
  - exact E.
Qed.

Lemma unlinkQuietly_keeps_gone (dk : Disk) (path other : jsstring) :
  dk !! other = None -> unlinkQuietly dk path !! other = None.
Proof.
  intros H. unfold unlinkQuietly, unlink. destruct (dk !! path); simpl; [|exact H].
  apply lookup_delete_None. right. exact H.
Qed.

Lemma unlink_all_keeps_gone (paths : list jsstring) (dk : Disk) (other : jsstring) :
  dk !! other = None -> fold_left unlinkQuietly paths dk !! other = None.
Proof.
  revert dk. induction paths as [|p paths IH]; intros dk H; simpl; [exact H|].
  apply IH. apply unlinkQuietly_keeps_gone. exact H.
Qed.

Lemma unlink_all_gone (paths : list jsstring) (dk : Disk) (path : jsstring) :
  In path paths -> fold_left unlinkQuietly paths dk !! path = None.
Proof.
  revert dk. induction paths as [|p paths IH]; intros dk Hin; simpl; [contradiction|].
  destruct Hin as [->|Hin].
  - apply unlink_all_keeps_gone. apply unlinkQuietly_gone.
  - apply IH. exact Hin.
Qed.

(** What the cleanup does do: the archive and every path of the ledger are
    gone afterwards. *)
Lemma cleanupOnFailure_removes_ledger (o : ProcessingOptions) (p : Processor) (path : jsstring) :
  path = filePath o \/ In path (extractedMediaPaths p) ->
  disk (cleanupOnFailure o p) !! path = None.
Proof.
  intros [->|Hin]; unfold cleanupOnFailure; simpl.
  - apply unlink_all_keeps_gone. apply unlinkQuietly_gone.
  - apply unlink_all_gone. exact Hin.
Qed.

(** C4, at the failing input: the archive holds one picture and the write
    of that picture fails partway.  The job ends as failed and the archive
    is deleted, but the partly written picture, which the job created, is
    still in the media folder: it never entered the ledger. *)
Theorem partial_file_survives_failure :
  let o := mkOptions (js "uploads/x.zip") (js "u") 0
             (Some [mkEntry (js "IMG-20231205-WA0001.jpg") StreamFails]) true in
  let dk : Disk := {[ js "uploads/x.zip" := Whole ]} in
  let p := process o (newProcessor o dk) in
  status p = Failed /\
  disk p !! js "uploads/x.zip" = None /\
  extractedMediaPaths p = [] /\
  dk !! js "uploads/media/u/IMG-20231205-WA0001.jpg" = None /\
  disk p !! js "uploads/media/u/IMG-20231205-WA0001.jpg" = Some Partial.
Proof. vm_compute. repeat split; reflexivity. Qed.

End PipelineFacts.

(** ** The transcript parser *)

Module ParserFacts.
Import WhatsAppParser Claims TimestampFacts.
Local Open Scope Z_scope.

#[local] Arguments parseMediaAttachment : simpl never.
#[local] Arguments parseTimestamp : simpl never.
#[local] Arguments js : simpl never.
#[local] Arguments isYou : simpl never.
#[local] Arguments trim : simpl never.
#[local] Arguments matchLine : simpl never.
#[local] Arguments group : simpl never.

Lemma parseMediaAttachment_frame (m : Message) :
  content (parseMediaAttachment m) = content m /\
  sender (parseMediaAttachment m) = sender m /\
  isFromMe (parseMediaAttachment m) = isFromMe m /\
  timestamp (parseMediaAttachment m) = timestamp m /\
  isSystemMessage (parseMediaAttachment m) = isSystemMessage m.
Proof.
  unfold parseMediaAttachment.
  repeat match goal with
         | |- context [if ?c then _ else _] => destruct c
         | |- context [match ?c with Some _ => _ | None => _ end] => destruct c
         end; simpl; auto.
Qed.


Lemma pushCurrent_setSkip (b : bool) (st : ParseState) :
  pushCurrent (setSkipFirstLine b st) = pushCurrent st.
Proof. reflexivity. Qed.


Section Survival.
Variable now : Z.
(** a property of messages that continuation lines preserve *)
Variable P : Message -> Prop.
Hypothesis P_continued :
  forall (cm : Message) (line : jsstring),
    P cm -> isSystemMessage cm = false ->
    P (parseMediaAttachment (setContent (appendLine (content cm) line) cm)).




End Survival.

Lemma relabel_sameText (meSender : jsstring) (msg : Message) : sameText (relabel meSender msg) msg.
Proof.
  unfold relabel, sameText.
  destruct (bool_decide (sender msg = Some meSender) && negb (isSystemMessage msg)); simpl; auto.
Qed.


Lemma beginsUser_sameText now m a b : sameText a b -> beginsUser now m b -> beginsUser now m a.
Proof.
  intros (Hc & Ht & Hs) (H1 & H2 & more & H3). unfold beginsUser.
  rewrite Hs, Ht, Hc. eauto.
Qed.

Lemma beginsSystem_sameText now m a b : sameText a b -> beginsSystem now m b -> beginsSystem now m a.
Proof.
  intros (Hc & Ht & Hs) (H1 & H2 & H3). unfold beginsSystem.
  rewrite Hs, Ht, Hc. auto.
Qed.



Lemma beginsUser_continued now m (cm : Message) (line : jsstring) :
  beginsUser now m cm -> isSystemMessage cm = false ->
  beginsUser now m (parseMediaAttachment (setContent (appendLine (content cm) line) cm)).
Proof.
  intros (H1 & H2 & more & H3) _.
  destruct (parseMediaAttachment_frame (setContent (appendLine (content cm) line) cm))
    as (Hc & _ & _ & Ht & Hs).
  unfold beginsUser. rewrite Hc, Ht, Hs. simpl. split; [exact H1|]. split; [exact H2|].
  exists (more ++ 10%N :: line). rewrite H3. unfold appendLine. simpl.
  rewrite <- app_assoc. reflexivity.
Qed.





















Lemma keys_setCount (k : jsstring) (n : nat) (counts : SenderCounts) (x : jsstring) :
  In x (keys (setCount k n counts)) <-> x = k \/ In x (keys counts).
Proof.
  unfold keys. induction counts as [|[k' n'] counts IH]; simpl.
  - intuition congruence.
  - destruct (JsString.eqb k k') eqn:E; simpl.
    + apply eqb_true in E. subst k'. intuition congruence.
    + rewrite IH. intuition congruence.
Qed.

Lemma setCount_nonempty (k : jsstring) (n : nat) (counts : SenderCounts) :
  (0 < length (setCount k n counts))%nat.
Proof.
  destruct counts as [|[k' n'] counts]; simpl; [lia|].
  destruct (JsString.eqb k k'); simpl; lia.
Qed.

Lemma setCount_single (k : jsstring) (n : nat) (counts : SenderCounts) :
  (1 <? length (setCount k n counts))%nat = false ->
  forall x, In x (keys (setCount k n counts)) -> x = k.
Proof.
  intros Hl x Hx. apply Nat.ltb_ge in Hl.
  destruct counts as [|[k' n'] counts]; simpl in *.
  - destruct Hx as [<-|[]]. reflexivity.
  - destruct (JsString.eqb k k') eqn:E; simpl in *.
    + apply eqb_true in E. subst k'. destruct counts; simpl in *; [|lia].
      destruct Hx as [<-|[]]. reflexivity.
    + pose proof (setCount_nonempty k n counts). lia.
Qed.

Lemma isYou_You : isYou (js "You") = true.
Proof. vm_compute. reflexivity. Qed.

Lemma sendersCounted_initial : sendersCounted initialState.
Proof. intros msg []. Qed.

Lemma oneOtherParty_initial : oneOtherParty initialState.
Proof. intros _ k1 k2 []. Qed.

Lemma handleLine_sendersCounted (now : Z) (line : jsstring) (st : ParseState) :
  sendersCounted st -> sendersCounted (handleLine now line st).
Proof.
  intros H. unfold handleLine.
  destruct (matchLine line) as [m|m|].
  - set (s := trim (group 2 m)).
    assert (Hold : forall msg, In msg (pushCurrent st) -> isSystemMessage msg = false ->
              exists s0, sender msg = Some s0 /\
                (isYou s0 = false ->
                 In s0 (keys (setCount s (default 0 (getCount s (senderCounts st)) + 1)%nat
                                 (senderCounts st))))).
    { intros msg Hin Hsys. destruct (H msg Hin Hsys) as (s0 & Hs0 & Hk).
      exists s0. split; [exact Hs0|]. intros Hy. apply keys_setCount. right. apply Hk, Hy. }
    destruct (isYou s) eqn:Hy; intros msg Hin Hsys; unfold pushCurrent in Hin;
      cbn [currentMessage stMessages senderCounts] in *;
      (apply in_app_or in Hin; destruct Hin as [Hin|[<-|[]]]; [apply Hold; assumption|]);
      match goal with
      | |- context [parseMediaAttachment ?x] =>
          destruct (parseMediaAttachment_frame x) as (_ & Hs & _ & _ & _); rewrite Hs
      end; cbn [sender].
    + exists (js "You"). split; [reflexivity|]. rewrite isYou_You. discriminate.
    + exists s. split; [reflexivity|]. intros _. apply keys_setCount. left. reflexivity.
  - intros msg Hin Hsys. unfold pushCurrent in Hin.
    cbn [currentMessage stMessages senderCounts] in *.
    apply in_app_or in Hin. destruct Hin as [Hin|[<-|[]]]; [apply H; assumption|].
    simpl in Hsys. discriminate.
  - destruct (currentMessage st) as [cm|] eqn:Hcm; [|exact H].
    destruct (isSystemMessage cm) eqn:Hsys; cbn [negb]; [exact H|].
    intros msg Hin Hsys'. unfold pushCurrent in Hin.
    cbn [currentMessage stMessages senderCounts] in *.
    apply in_app_or in Hin. destruct Hin as [Hin|[<-|[]]].
    + apply H; [|exact Hsys']. unfold pushCurrent. rewrite Hcm. apply in_or_app. left. exact Hin.
    + destruct (parseMediaAttachment_frame (setContent (appendLine (content cm) line) cm))
        as (_ & Hs & _ & _ & _). rewrite Hs. cbn [sender setContent].
      apply (H cm); [|exact Hsys]. unfold pushCurrent. rewrite Hcm.
      apply in_or_app. right. left. reflexivity.
Qed.

Lemma handleLine_oneOtherParty (now : Z) (line : jsstring) (st : ParseState) :
  oneOtherParty st -> oneOtherParty (handleLine now line st).
Proof.
  intros H. unfold handleLine.
  destruct (matchLine line) as [m|m|].
  - set (s := trim (group 2 m)).
    destruct (isYou s) eqn:Hy; unfold oneOtherParty; cbn [stIsGroup senderCounts].
    + intros Hg k1 k2 H1 H2 Hy1 Hy2.
      apply keys_setCount in H1, H2.
      destruct H1 as [->|H1]; [congruence|]. destruct H2 as [->|H2]; [congruence|].
      apply H; assumption.
    + destruct (1 <? length (setCount s (default 0 (getCount s (senderCounts st)) + 1)
                               (senderCounts st)))%nat eqn:Hl; [discriminate|].
      intros _ k1 k2 H1 H2 _ _.
      rewrite (setCount_single _ _ _ Hl k1 H1), (setCount_single _ _ _ Hl k2 H2). reflexivity.
  - exact H.
  - destruct (currentMessage st) as [cm|]; [|exact H].
    destruct (isSystemMessage cm); cbn [negb]; exact H.
Qed.

Lemma parseLines_group_invariants (now : Z) (lines : list jsstring) (i : nat) (st : ParseState) :
  sendersCounted st -> oneOtherParty st ->
  sendersCounted (parseLines now i lines st) /\ oneOtherParty (parseLines now i lines st).
Proof.
  revert i st. induction lines as [|l lines IH]; intros i st H1 H2; simpl; [auto|].
  apply IH; unfold parseLine.
  - destruct (blank l); [exact H1|].
    destruct ((i =? 0)%nat && test encryptionNoticeRegex l); [exact H1|].
    apply handleLine_sendersCounted. exact H1.
  - destruct (blank l); [exact H2|].
    destruct ((i =? 0)%nat && test encryptionNoticeRegex l); [exact H2|].
    apply handleLine_oneOtherParty. exact H2.
Qed.


Lemma In_addKeys (l acc : list jsstring) (y : jsstring) :
  In y (fold_left addKey l acc) <-> In y acc \/ In y l.
Proof.
  revert acc. induction l as [|x l IH]; intros acc; simpl; [tauto|].
  rewrite IH. unfold addKey, inList.
  destruct (existsb (JsString.eqb x) acc) eqn:E.
  - apply existsb_exists in E. destruct E as (z & Hz & Ez). apply eqb_true in Ez. subst z.
    intuition congruence.
  - rewrite in_app_iff. simpl. intuition congruence.
Qed.

Lemma In_distinct (l : list jsstring) (y : jsstring) : In y (distinct l) <-> In y l.
Proof. unfold distinct. rewrite In_addKeys. simpl. tauto. Qed.

Lemma eqb_false (a b : jsstring) : JsString.eqb a b = false <-> a <> b.
Proof. unfold JsString.eqb. apply bool_decide_eq_false. Qed.

Lemma getCount_setCount (k s : jsstring) (n : nat) (counts : SenderCounts) :
  getCount k (setCount s n counts) = if JsString.eqb k s then Some n else getCount k counts.
Proof.
  induction counts as [|[k' n'] counts IH]; simpl.
  - destruct (JsString.eqb k s); reflexivity.
  - destruct (JsString.eqb s k') eqn:E; simpl.
    + apply eqb_true in E. subst k'. destruct (JsString.eqb k s); reflexivity.
    + rewrite IH. destruct (JsString.eqb k k') eqn:E2; [|reflexivity].
      apply eqb_true in E2. subst k'.
      destruct (JsString.eqb k s) eqn:E3; [|reflexivity].
      apply eqb_true in E3. subst s. rewrite eqb_refl in E. discriminate.
Qed.

Lemma keys_countOne (counts : SenderCounts) (s : jsstring) :
  keys (countOne counts s) = addKey (keys counts) s.
Proof.
  unfold countOne, addKey, inList, keys.
  generalize (default 0 (getCount s counts) + 1)%nat as n. intros n.
  induction counts as [|[k' n'] counts IH]; simpl; [reflexivity|].
  destruct (JsString.eqb s k') eqn:E; simpl; [reflexivity|].
  rewrite IH. destruct (existsb (JsString.eqb s) (map fst counts)); reflexivity.
Qed.

Lemma keys_fold (l : list jsstring) (counts : SenderCounts) :
  keys (fold_left countOne l counts) = fold_left addKey l (keys counts).
Proof.
  revert counts. induction l as [|x l IH]; intros counts; simpl; [reflexivity|].
  rewrite IH, keys_countOne. reflexivity.
Qed.

Lemma keys_tally (l : list jsstring) : keys (tally l) = distinct l.
Proof. unfold tally, distinct. rewrite keys_fold. reflexivity. Qed.

Lemma cnt_fold (k : jsstring) (l : list jsstring) (counts : SenderCounts) :
  default 0%nat (getCount k (fold_left countOne l counts)) =
  (default 0 (getCount k counts) + occurrences k l)%nat.
Proof.
  revert counts. induction l as [|x l IH]; intros counts; unfold occurrences in *; simpl.
  - lia.
  - rewrite IH. unfold countOne at 1. rewrite getCount_setCount.
    destruct (JsString.eqb k x) eqn:E; simpl; [|reflexivity].
    apply eqb_true in E. subst x. lia.
Qed.

Lemma cnt_tally (k : jsstring) (l : list jsstring) :
  default 0%nat (getCount k (tally l)) = occurrences k l.
Proof. unfold tally. rewrite cnt_fold. reflexivity. Qed.

Lemma length_two_senders (k1 k2 : jsstring) (l : list jsstring) :
  k1 <> k2 -> (forall x, In x l -> x = k1 \/ x = k2) ->
  length l = (occurrences k1 l + occurrences k2 l)%nat.
Proof.
  intros Hne. unfold occurrences. induction l as [|x l IH]; intros H; simpl; [reflexivity|].
  rewrite IH by (intros y Hy; apply H; right; exact Hy).
  destruct (H x (or_introl eq_refl)) as [-> | ->].
  - rewrite eqb_refl. assert (E : JsString.eqb k2 k1 = false) by (apply eqb_false; congruence).
    rewrite E. simpl. lia.
  - rewrite eqb_refl. assert (E : JsString.eqb k1 k2 = false) by (apply eqb_false; congruence).
    rewrite E. simpl. lia.
Qed.


Lemma existsb_snoc {A} (f : A -> bool) (l : list A) (x : A) :
  existsb f (l ++ [x]) = existsb f l || f x.
Proof. rewrite existsb_app. simpl. rewrite orb_false_r. reflexivity. Qed.

Lemma userSenders_snoc (l : list Message) (x : Message) :
  userSenders (l ++ [x]) =
  userSenders l ++ match userSender x with Some s => [s] | None => [] end.
Proof.
  unfold userSenders. rewrite flat_map_app. simpl. rewrite app_nil_r. reflexivity.
Qed.

Lemma tally_snoc (l : list jsstring) (s : jsstring) : tally (l ++ [s]) = countOne (tally l) s.
Proof. unfold tally. rewrite fold_left_app. reflexivity. Qed.

Lemma pushCurrent_open (ms : list Message) (c : Message) (g sk : bool) (cnt : SenderCounts)
    (f : option jsstring) :
  pushCurrent (mkParseState ms (Some c) g sk cnt f) = ms ++ [c].
Proof. reflexivity. Qed.

Lemma handleLine_tallied (now : Z) (line : jsstring) (st : ParseState) :
  tallied st -> tallied (handleLine now line st).
Proof.
  intros H. unfold handleLine.
  destruct (matchLine line) as [m|m|].
  - set (s := trim (group 2 m)).
    destruct (isYou s) eqn:Hy; unfold tallied;
      rewrite !pushCurrent_open; cbn [senderCounts];
      rewrite existsb_snoc, userSenders_snoc; unfold userSender;
      match goal with
      | |- context [parseMediaAttachment ?x] =>
          destruct (parseMediaAttachment_frame x) as (_ & Hs & Hf & _ & Hsys);
          rewrite Hs, Hf, Hsys
      end; cbn [sender isFromMe isSystemMessage].
    + rewrite orb_true_r. discriminate.
    + rewrite orb_false_r. intros Hno. rewrite tally_snoc, <- (H Hno). reflexivity.
  - unfold tallied. rewrite !pushCurrent_open. cbn [senderCounts].
    rewrite existsb_snoc, userSenders_snoc. unfold userSender.
    cbn [sender isFromMe isSystemMessage]. rewrite orb_false_r, app_nil_r. exact H.
  - destruct (currentMessage st) as [cm|] eqn:Hcm; [|exact H].
    destruct (isSystemMessage cm) eqn:Hsys; cbn [negb]; [exact H|].
    unfold tallied in *. rewrite !pushCurrent_open. cbn [senderCounts].
    assert (E : pushCurrent st = stMessages st ++ [cm]) by (unfold pushCurrent; rewrite Hcm; reflexivity).
    rewrite E in H.
    rewrite existsb_snoc, userSenders_snoc in *. unfold userSender in *.
    destruct (parseMediaAttachment_frame (setContent (appendLine (content cm) line) cm))
      as (_ & Hs & Hf & _ & Hsy).
    rewrite Hs, Hf, Hsy. cbn [sender isFromMe isSystemMessage setContent]. exact H.
Qed.

Lemma parseLines_tallied (now : Z) (lines : list jsstring) (i : nat) (st : ParseState) :
  tallied st -> tallied (parseLines now i lines st).
Proof.
  revert i st. induction lines as [|l lines IH]; intros i st H; simpl; [exact H|].
  apply IH. unfold parseLine.
  destruct (blank l); [exact H|].
  destruct ((i =? 0)%nat && test encryptionNoticeRegex l); [exact H|].
  apply handleLine_tallied. exact H.
Qed.

Lemma tallied_initial : tallied initialState.
Proof. intros _. reflexivity. Qed.


Lemma NoDup_addKeys (l acc : list jsstring) : NoDup acc -> NoDup (fold_left addKey l acc).
Proof.
  revert acc. induction l as [|x l IH]; intros acc H; simpl; [exact H|].
  apply IH. unfold addKey, inList. destruct (existsb (JsString.eqb x) acc) eqn:E; [exact H|].
  apply NoDup_app. split; [exact H|]. split; [|apply NoDup_singleton].
  intros y Hy Hx. apply list_elem_of_In in Hy. apply list_elem_of_In in Hx.
  destruct Hx as [<-|[]].
  assert (existsb (JsString.eqb x) acc = true); [|congruence].
  apply existsb_exists. exists x. split; [exact Hy|apply eqb_refl].
Qed.

Lemma NoDup_distinct (l : list jsstring) : NoDup (distinct l).
Proof. apply NoDup_addKeys. constructor. Qed.

Lemma relabel_userSender (me : jsstring) (msg : Message) :
  userSender (relabel me msg) = userSender msg.
Proof.
  unfold relabel, userSender.
  destruct (bool_decide (sender msg = Some me) && negb (isSystemMessage msg)); reflexivity.
Qed.

Lemma retroactive_userSenders (counts : SenderCounts) (msgs : list Message) :
  userSenders (retroactive counts msgs) = userSenders msgs.
Proof.
  unfold retroactive.
  destruct (negb (existsb isFromMe msgs) && (0 <? length counts)%nat); [|reflexivity].
  destruct (truthy (chooseMeSender counts msgs)); [|reflexivity].
  generalize (default [] (chooseMeSender counts msgs)) as me. intros me.
  unfold userSenders. induction msgs as [|m msgs IH]; simpl; [reflexivity|].
  rewrite relabel_userSender, IH. reflexivity.
Qed.

Lemma In_userSenders (msgs : list Message) (s : jsstring) :
  In s (userSenders msgs) <->
  exists msg, In msg msgs /\ isSystemMessage msg = false /\ sender msg = Some s.
Proof.
  unfold userSenders. rewrite in_flat_map. unfold userSender.
  split.
  - intros (msg & Hin & Hs). exists msg.
    destruct (isSystemMessage msg); [destruct Hs|].
    destruct (sender msg) as [s'|]; [|destruct Hs]. destruct Hs as [<-|[]]. auto.
  - intros (msg & Hin & Hsys & Hs). exists msg. rewrite Hsys, Hs.
    split; [exact Hin|left; reflexivity].
Qed.

Lemma parseExport_invariants (now : Z) (content : jsstring) :
  let st := parseLines now 0 (split 10 content) initialState in
  sendersCounted st /\ oneOtherParty st /\ tallied st.
Proof.
  intros st. subst st.
  destruct (parseLines_group_invariants now (split 10 content) 0 initialState
              sendersCounted_initial oneOtherParty_initial) as [H1 H2].
  split; [exact H1|]. split; [exact H2|].
  apply parseLines_tallied. exact tallied_initial.
Qed.

(** The half of the group rule that the parser keeps: two different senders
    that are not self identifiers make the chat a group. *)
Lemma several_other_parties_group (now : Z) (content chatName s1 s2 : jsstring) :
  let chat := parseExport now content chatName in
  In s1 (nonSelfSenders (messages chat)) -> In s2 (nonSelfSenders (messages chat)) ->
  s1 <> s2 -> isGroup chat = true.
Proof.
  intros chat H1 H2 Hne. subst chat. unfold parseExport in *. cbn [messages isGroup] in *.
  destruct (parseExport_invariants now content) as (Hc & Ho & _).
  set (st := parseLines now 0 (split 10 content) initialState) in *.
  unfold nonSelfSenders, distinctSenders in H1, H2.
  apply filter_In in H1, H2. destruct H1 as [H1 Hy1], H2 as [H2 Hy2].
  apply negb_true_iff in Hy1, Hy2.
  rewrite In_distinct, retroactive_userSenders, In_userSenders in H1, H2.
  destruct H1 as (m1 & Hin1 & Hsys1 & Hs1), H2 as (m2 & Hin2 & Hsys2 & Hs2).
  destruct (Hc m1 Hin1 Hsys1) as (s1' & Hs1' & Hk1).
  destruct (Hc m2 Hin2 Hsys2) as (s2' & Hs2' & Hk2).
  rewrite Hs1 in Hs1'. injection Hs1' as <-. rewrite Hs2 in Hs2'. injection Hs2' as <-.
  destruct (stIsGroup st) eqn:Hg; [reflexivity|].
  exfalso. apply Hne. apply (Ho Hg); auto.
Qed.


Lemma length_userSenders (msgs : list Message) :
  (forall msg, In msg msgs -> isSystemMessage msg = false -> exists s, sender msg = Some s) ->
  length (List.filter (fun m => negb (isSystemMessage m)) msgs) = length (userSenders msgs).
Proof.
  unfold userSenders. induction msgs as [|m msgs IH]; intros H; simpl; [reflexivity|].
  rewrite length_app, <- IH by (intros msg Hin; apply H; right; exact Hin).
  unfold userSender. destruct (isSystemMessage m) eqn:Hsys; simpl; [reflexivity|].
  destruct (H m (or_introl eq_refl) Hsys) as [s ->]. reflexivity.
Qed.

Lemma relabel_all (k : jsstring) (msgs : list Message) :
  (forall msg, In msg msgs -> isSystemMessage msg = false -> sender msg = Some k) ->
  forall msg, In msg (map (relabel k) msgs) -> isSystemMessage msg = false ->
              isFromMe msg = true.
Proof.
  intros H msg Hin Hsys. apply in_map_iff in Hin. destruct Hin as (m0 & <- & Hin).
  unfold relabel in *.
  destruct (isSystemMessage m0) eqn:Hs0.
  - rewrite andb_false_r in Hsys. congruence.
  - rewrite (H m0 Hin Hs0), bool_decide_eq_true_2 by reflexivity. reflexivity.
Qed.

(** The retroactive step on a transcript in which no message was recognized
    as the user's, by the number of distinct senders: none changes nothing;
    one sender has all user messages relabelled; of two senders the one
    with more messages (the first seen when they have as many) is
    relabelled exactly when its count is more than 60% of the user
    messages; three or more change nothing.  A relabelling needs the
    chosen sender's name not to be empty. *)
Lemma retroactive_cases (now : Z) (content chatName : jsstring) :
  let msgs0 := pushCurrent (parseLines now 0 (split 10 content) initialState) in
  let out := messages (parseExport now content chatName) in
  let senders := userSenders msgs0 in
  existsb isFromMe msgs0 = false ->
  length (List.filter (fun m => negb (isSystemMessage m)) msgs0) = length senders /\
  match distinct senders with
  | [] => out = msgs0
  | [k] =>
      k <> [] ->
      out = map (relabel k) msgs0 /\
      forall msg, In msg out -> isSystemMessage msg = false -> isFromMe msg = true
  | [k1; k2] =>
      let c1 := occurrences k1 senders in
      let c2 := occurrences k2 senders in
      let top := if (c1 <? c2)%nat then k2 else k1 in
      let topCount := if (c1 <? c2)%nat then c2 else c1 in
      length senders = (c1 + c2)%nat /\
      if (60 * (c1 + c2) <? 100 * topCount)%nat
      then top <> [] -> out = map (relabel top) msgs0
      else out = msgs0
  | _ :: _ :: _ :: _ => out = msgs0
  end.
Proof.
  intros msgs0 out senders Hno.
  destruct (parseExport_invariants now content) as (Hc & _ & Ht).
  set (st := parseLines now 0 (split 10 content) initialState) in *.
  fold msgs0 in Ht. specialize (Ht Hno). fold senders in Ht.
  assert (Hsome : forall msg, In msg msgs0 -> isSystemMessage msg = false ->
                              exists s, sender msg = Some s).
  { intros msg Hin Hsys. destruct (Hc msg Hin Hsys) as (s & Hs & _). eauto. }
  pose proof (length_userSenders msgs0 Hsome) as Hlen. fold senders in Hlen.
  split; [exact Hlen|].
  assert (Hout : out = retroactive (tally senders) msgs0).
  { subst out. unfold parseExport. cbn [messages]. fold st. rewrite Ht. reflexivity. }
  pose proof (keys_tally senders) as Hkeys.
  pose proof (NoDup_distinct senders) as Hnd.
  assert (Hlk : length (tally senders) = length (distinct senders)).
  { rewrite <- Hkeys. unfold keys. rewrite length_map. reflexivity. }
  unfold retroactive in Hout. rewrite Hno in Hout. cbn [negb andb] in Hout.
  unfold chooseMeSender in Hout. fold (keys (tally senders)) in Hout.
  rewrite Hkeys, Hlk, Hlen in Hout.
  destruct (distinct senders) as [|k1 [|k2 [|k3 rest]]] eqn:Hd.
  - exact Hout.
  - cbn [length Nat.eqb nth_error Nat.ltb Nat.leb] in Hout. intros Hk.
    assert (Htr : truthy (Some k1) = true) by (destruct k1; [congruence|reflexivity]).
    rewrite Htr in Hout. split; [exact Hout|]. rewrite Hout.
    apply relabel_all. intros msg Hin Hsys.
    destruct (Hsome msg Hin Hsys) as [s Hs]. rewrite Hs. f_equal.
    assert (Hin' : In s (distinct senders)).
    { apply In_distinct, In_userSenders. eauto. }
    rewrite Hd in Hin'. destruct Hin' as [<-|[]]. reflexivity.
  - assert (Hne : k1 <> k2).
    { apply NoDup_cons in Hnd. destruct Hnd as [Hn _]. intros ->. apply Hn. left. }
    assert (Hl2 : length senders = (occurrences k1 senders + occurrences k2 senders)%nat).
    { apply length_two_senders; [exact Hne|]. intros x Hx.
      apply In_distinct in Hx. rewrite Hd in Hx. destruct Hx as [<-|[<-|[]]]; auto. }
    cbv zeta. split; [exact Hl2|].
    cbn [length Nat.eqb Nat.ltb Nat.leb] in Hout. unfold sortByCount in Hout.
    cbn [fold_left insertByCount] in Hout.
    rewrite !cnt_tally in Hout.
    rewrite Hl2 in Hout. unfold percentageAbove60 in Hout.
    destruct (occurrences k1 senders <? occurrences k2 senders)%nat eqn:Hlt;
      cbn [nth_error default] in Hout; rewrite ?cnt_tally in Hout;
      destruct (60 * (occurrences k1 senders + occurrences k2 senders) <? _)%nat;
      cbv beta iota in Hout; unfold id in Hout; try exact Hout; intros Hk.
    + assert (Htr : truthy (Some k2) = true) by (destruct k2; [congruence|reflexivity]).
      rewrite Htr in Hout. exact Hout.
    + assert (Htr : truthy (Some k1) = true) by (destruct k1; [congruence|reflexivity]).
      rewrite Htr in Hout. exact Hout.
  - cbn in Hout. exact Hout.
Qed.

(** C5, at the failing input: a transcript whose only senders are the
    self-identified user and one other party is marked as a group chat. *)
Theorem two_party_chat_marked_group (now : Z) :
  let chat := parseExport now (js "1/1/23, 10:00 - You: hi
1/1/23, 10:01 - Alice: hello") (js "Alice") in
  map sender (messages chat) = [Some (js "You"); Some (js "Alice")] /\
  map isFromMe (messages chat) = [true; false] /\
  nonSelfSenders (messages chat) = [js "Alice"] /\
  isGroup chat = true.
Proof. vm_compute. repeat split; reflexivity. Qed.

(** C3, at the failing input: the only sender of the transcript has an
    empty name, no message was recognized as the user's, and the sender's
    message is not relabelled. *)
Theorem empty_sender_not_relabelled (now : Z) :
  let chat := parseExport now (js "1/1/23, 10:00 - : hi") (js "c") in
  distinctSenders (messages chat) = [[]] /\
  messages chat =
  [mkMessage (Some (js "hi")) (Some []) false (parseTimestamp now (js "1/1/23, 10:00")) false
     None None None].
Proof. vm_compute. split; reflexivity. Qed.

End ParserFacts.

(** ** Scenarios of the specification, run on the model *)

Module Scenarios.
Import WhatsAppParser StreamingZipProcessor Claims.
Local Open Scope Z_scope.

(** The patterns on lines of the usual shapes. *)
Example message_line :
  exec messageRegex (js "12/5/23, 3:41 PM - John: Hello") =
  Some [Some (js "12/5/23, 3:41 PM - John: Hello"); Some (js "12/5/23, 3:41 PM");
        Some (js "John"); Some (js "Hello")].
Proof. vm_compute. reflexivity. Qed.

Example bracketed_line_with_seconds :
  exec messageRegex (js "[12/5/23, 3:41:09 PM] John: Hello: x") =
  Some [Some (js "[12/5/23, 3:41:09 PM] John: Hello: x"); Some (js "12/5/23, 3:41:09 PM");
        Some (js "John"); Some (js "Hello: x")].
Proof. vm_compute. reflexivity. Qed.

Example system_line :
  matchLine (js "1/1/23, 10:00 - Alice joined") =
  SystemMatch [Some (js "1/1/23, 10:00 - Alice joined"); Some (js "1/1/23, 10:00 ");
               Some (js "Alice joined")].
Proof. vm_compute. reflexivity. Qed.

(** The meridiem of the line patterns is case-sensitive: a lower-case [pm]
    goes to the sender. *)
Example lower_case_meridiem :
  option_map (fun m => (group 1 m, group 2 m)) (exec messageRegex (js "1/1/23, 3:41 pm - John: hi")) =
  Some (js "1/1/23, 3:41 ", js "pm - John").
Proof. vm_compute. reflexivity. Qed.

(** A line in Arabic script: direction mark stripped, digits normalized,
    Arabic comma and meridiem read. *)
Example arabic_line :
  let line := normalizeLine (js "‎[١٢/٥/٢٣، ٣:٤١ م] أحمد: مرحبا") in
  option_map
    (fun m => let t := parseTimestamp 0 (group 1 m) in
              (group 2 m, group 3 m, getFullYear t, getMonth t, getDate t, getHours t,
               getMinutes t))
    (exec messageRegex line) =
  Some (js "أحمد", js "مرحبا", 2023, 11, 5, 15, 41).
Proof. vm_compute. reflexivity. Qed.

(** The classifier can leave an empty name: the attachment marker with
    blanks only between the colon and the bracket. *)
Example empty_media_name :
  let m := parseMediaAttachment
             (mkMessage (Some (js "<attached:  >")) (Some (js "John")) false 0 false
                None None None) in
  mediaType m = Some (js "file") /\ mediaName m = Some [].
Proof. vm_compute. split; reflexivity. Qed.

(** Retroactive self-identification on the specification's examples: one
    sender; two senders at 70/30, at 55/45 and at exactly 60/40; three
    senders. *)
Example retroactive_examples (now : Z) :
  let A := js "Ann" in
  let B := js "Bob" in
  let C := js "Cy" in
  let flags who := map isFromMe (messages (parseExport now (transcriptOf who) (js "c"))) in
  flags [A; A; A; A; A] = [true; true; true; true; true] /\
  flags [A; B; A; A; B; A; A; B; A; A] =
    [true; false; true; true; false; true; true; false; true; true] /\
  flags [A; B; A; B; A; B; A; B; A; B; A; B; A; B; A; B; A; B; A; A] = repeat false 20 /\
  flags [A; B; A; A; B] = repeat false 5 /\
  flags [A; B; C; A; A; A; A] = repeat false 7.
Proof. vm_compute. repeat split; reflexivity. Qed.

(** The end-to-end scenario: a transcript of two lines, the second naming
    the picture of the archive. *)
Example end_to_end :
  let o := mkOptions (js "uploads/x.zip") (js "u") 0
             (Some [mkEntry (js "WhatsApp Chat with John.txt")
                      (Completes (js "12/5/23, 3:41 PM - John: Hello
12/5/23, 3:42 PM - John: IMG-20231205-WA0001.jpg"));
                    mkEntry (js "IMG-20231205-WA0001.jpg") (Completes [])])
             true in
  let p := process o (newProcessor o {[ js "uploads/x.zip" := Whole ]}) in
  status p = Completed /\
  disk p !! js "uploads/x.zip" = None /\
  disk p !! js "uploads/media/u/IMG-20231205-WA0001.jpg" = Some Whole /\
  stored p =
  [mkParsedChat (js "WhatsApp Chat with John")
     [mkMessage (Some (js "Hello")) (Some (js "John")) true 1701790860000 false None None None;
      mkMessage (Some (js "IMG-20231205-WA0001.jpg")) (Some (js "John")) true 1701790920000
        false (Some (js "image")) (Some (js "/media/u/IMG-20231205-WA0001.jpg"))
        (Some (js "IMG-20231205-WA0001.jpg"))]
     false].
Proof. vm_compute. repeat split; reflexivity. Qed.

End Scenarios.

(** ** Strings *)

Module StringFacts.
Import Properties.

Lemma trimStart_idem (s : jsstring) : trimStart (trimStart s) = trimStart s.
Proof.
  induction s as [|c s IH]; simpl; [reflexivity|].
  destruct (isSpace c) eqn:E; [exact IH|]. simpl. rewrite E. reflexivity.
Qed.

Lemma trimStart_app (l r : jsstring) :
  trimStart (l ++ r) = if forallb isSpace l then trimStart r else trimStart l ++ r.
Proof.
  induction l as [|c l IH]; simpl; [reflexivity|].
  destruct (isSpace c); simpl; [exact IH|reflexivity].
Qed.

Lemma trimStart_In (c : N) (s : jsstring) : In c (trimStart s) -> In c s.
Proof.
  induction s as [|x s IH]; simpl; [tauto|].
  destruct (isSpace x); simpl; [auto|tauto].
Qed.

Lemma trimStart_head (s : jsstring) :
  match trimStart s with
  | c :: _ => isSpace c = false
  | [] => True
  end.
Proof.
  induction s as [|x s IH]; simpl; [exact I|].
  destruct (isSpace x) eqn:E; [exact IH|exact E].
Qed.

Lemma trimStart_fixed (c : N) (s : jsstring) : isSpace c = false -> trimStart (c :: s) = c :: s.
Proof. intros E. simpl. rewrite E. reflexivity. Qed.

Lemma trim_of_trimmed (s : jsstring) : trimmed s -> trim s = s.
Proof.
  intros [H1 H2]. unfold trim, trimEnd. rewrite H1, H2. apply rev_involutive.
Qed.

Lemma trim_trimmed (s : jsstring) : trimmed (trim s).
Proof.
  unfold trimmed, trim, trimEnd. rewrite rev_involutive, trimStart_idem.
  split; [|reflexivity].
  pose proof (trimStart_head s) as Hh.
  destruct (trimStart s) as [|c a]; [reflexivity|].
  simpl rev. rewrite trimStart_app.
  destruct (forallb isSpace (rev a)).
  - simpl. rewrite Hh. simpl. rewrite Hh. reflexivity.
  - rewrite rev_app_distr. simpl. rewrite Hh. reflexivity.
Qed.

Lemma trim_idem (s : jsstring) : trim (trim s) = trim s.
Proof. apply trim_of_trimmed, trim_trimmed. Qed.

Lemma trim_In (c : N) (s : jsstring) : In c (trim s) -> In c s.
Proof.
  unfold trim, trimEnd. intros H.
  apply in_rev, trimStart_In, in_rev, trimStart_In in H. exact H.
Qed.

Lemma trimStart_map (f : N -> N) (s : jsstring) :
  (forall c, isSpace (f c) = isSpace c) ->
  trimStart (map f s) = map f (trimStart s).
Proof.
  intros Hf. induction s as [|c s IH]; simpl; [reflexivity|].
  rewrite Hf. destruct (isSpace c); [exact IH|reflexivity].
Qed.

Lemma trim_map (f : N -> N) (s : jsstring) :
  (forall c, isSpace (f c) = isSpace c) ->
  trim (map f s) = map f (trim s).
Proof.
  intros Hf. unfold trim, trimEnd.
  rewrite (trimStart_map f s Hf), <- map_rev, (trimStart_map f _ Hf), map_rev. reflexivity.
Qed.

Lemma filter_all (f : N -> bool) (l : jsstring) : forallb f l = true -> List.filter f l = l.
Proof.
  induction l as [|x l IH]; simpl; [reflexivity|].
  intros H. apply andb_true_iff in H. destruct H as [Hx Hl]. rewrite Hx, IH by exact Hl.
  reflexivity.
Qed.

Lemma forallb_rev (f : N -> bool) (l : jsstring) : forallb f (rev l) = forallb f l.
Proof.
  induction l as [|x l IH]; simpl; [reflexivity|].
  rewrite forallb_app, IH. simpl. rewrite andb_true_r. apply andb_comm.
Qed.

Lemma trimmed_ends (a z : N) (s m m' : jsstring) :
  s = a :: m -> s = m' ++ [z] -> isSpace a = false -> isSpace z = false -> trimmed s.
Proof.
  intros E1 E2 Ha Hz. split.
  - rewrite E1. apply trimStart_fixed, Ha.
  - rewrite E2, rev_app_distr. simpl. rewrite Hz. reflexivity.
Qed.

(** Trailing white space is all that [trim] takes off a string that starts
    and ends with something else. *)
Lemma trim_strip (x ws : jsstring) :
  trimmed x -> forallb isSpace ws = true -> trim (x ++ ws) = x.
Proof.
  intros [H1 H2] Hws. unfold trim, trimEnd.
  assert (E : trimStart (x ++ ws) = x ++ ws \/ x = []).
  { destruct x as [|a x]; [right; reflexivity|left].
    pose proof (trimStart_head (a :: x)) as Hh. rewrite H1 in Hh.
    simpl. rewrite Hh. reflexivity. }
  destruct E as [E| ->].
  - rewrite E, rev_app_distr, trimStart_app, forallb_rev, Hws, H2. apply rev_involutive.
  - simpl.
    assert (E : trimStart ws = []).
    { clear -Hws. induction ws as [|y ws IH]; simpl in *; [reflexivity|].
      apply andb_true_iff in Hws. destruct Hws as [Hy Hws]. rewrite Hy. apply IH, Hws. }
    rewrite E. reflexivity.
Qed.

Lemma digit_not_space (c : N) : isDigit c = true -> isSpace c = false.
Proof.
  unfold isDigit, isSpace, inRange. intros H.
  apply andb_true_iff in H. destruct H as [H1 H2]. apply N.leb_le in H1, H2.
  repeat (apply orb_false_iff; split);
    try (apply N.eqb_neq; lia);
    apply andb_false_iff; ((left; apply N.leb_gt; lia) || (right; apply N.leb_gt; lia)).
Qed.

Lemma digit_plain (c : N) : isDigit c = true -> plainUnit c = true.
Proof.
  unfold isDigit, plainUnit, inRange. intros H.
  apply andb_true_iff in H. destruct H as [H1 H2]. apply N.leb_le in H1, H2.
  apply andb_true_iff. split; apply negb_true_iff;
    [apply orb_false_iff; split|]; apply N.eqb_neq; lia.
Qed.

Lemma space_plain (c : N) : isSpace c = true -> plainUnit c = true.
Proof.
  intros H. unfold plainUnit.
  destruct (N.eqb_spec c 91) as [->|_]; [discriminate|].
  destruct (N.eqb_spec c 93) as [->|_]; [discriminate|].
  destruct (N.eqb_spec c 1548) as [->|_]; [discriminate|]. reflexivity.
Qed.

Lemma forallb_imp (f g : N -> bool) (l : jsstring) :
  (forall c, f c = true -> g c = true) -> forallb f l = true -> forallb g l = true.
Proof.
  intros Himp H. apply forallb_forall. intros x Hx.
  rewrite forallb_forall in H. apply Himp, H, Hx.
Qed.

(** What the cleaning of [parseTimestamp] does before it trims, on code
    units it leaves alone. *)
Lemma plain_clean (l : jsstring) :
  forallb plainUnit l = true ->
  map (fun c => if c =? 1548 then 44 else c)
    (List.filter (fun c => negb ((c =? 91) || (c =? 93))) l) = l.
Proof.
  induction l as [|x l IH]; simpl; [reflexivity|].
  intros H. apply andb_true_iff in H. destruct H as [Hx Hl].
  unfold plainUnit in Hx. apply andb_true_iff in Hx. destruct Hx as [Hb Hc].
  rewrite Hb. simpl. apply negb_true_iff in Hc. rewrite Hc, IH by exact Hl. reflexivity.
Qed.

End StringFacts.

(** ** The matcher against what a pattern can match *)

Module RegexFacts.
Import RegexSemantics.

Lemma prevAfter_app (prev : option N) (u v : jsstring) :
  prevAfter prev (u ++ v) = prevAfter (prevAfter prev u) v.
Proof. unfold prevAfter. apply fold_left_app. Qed.

(** What was read is a prefix of the input. *)
Lemma Matches_word r prev s c p' s' c' :
  Matches r prev s c p' s' c' -> exists w, s = w ++ s' /\ p' = prevAfter prev w.
Proof.
  induction 1.
  - exists []. auto.
  - exists [x]. auto.
  - destruct IHMatches1 as (w1 & -> & ->), IHMatches2 as (w2 & -> & ->).
    exists (w1 ++ w2). rewrite <- app_assoc, prevAfter_app. auto.
  - assumption.
  - assumption.
  - exists []. auto.
  - destruct IHMatches1 as (w1 & -> & ->), IHMatches2 as (w2 & -> & ->).
    exists (w1 ++ w2). rewrite <- app_assoc, prevAfter_app. auto.
  - assumption.
  - exists []. auto.
  - exists []. auto.
  - exists []. auto.
Qed.

Lemma firstn_read (w s' : jsstring) : firstn (length (w ++ s') - length s') (w ++ s') = w.
Proof.
  rewrite length_app. replace (length w + length s' - length s')%nat with (length w) by lia.
  rewrite firstn_app, Nat.sub_diag, firstn_all. simpl. apply app_nil_r.
Qed.

Lemma Matches_groupless r prev s c p' s' c' :
  Matches r prev s c p' s' c' -> groupless r = true -> c' = c.
Proof.
  induction 1; simpl; intros Hg; try reflexivity;
    try (apply andb_true_iff in Hg; destruct Hg as [Ha Hb]); auto; try discriminate.
  - rewrite IHMatches2, IHMatches1 by assumption. reflexivity.
  - rewrite IHMatches2, IHMatches1 by assumption. reflexivity.
Qed.

(** Whatever the matcher returns comes from its continuation, called at a
    position the expression can reach. *)
Lemma rmatch_sound (R : Type) (r : regex) :
  forall prev s c (k : option N -> jsstring -> caps -> option R) res,
    rmatch r prev s c k = Some res ->
    exists p' s' c', Matches r prev s c p' s' c' /\ k p' s' c' = Some res.
Proof.
  induction r as [|p|a IHa b IHb|a IHa b IHb|g a IHa|i a IHa| | |]; intros prev s c k res H.
  - simpl in H. exists prev, s, c. split; [constructor|exact H].
  - simpl in H. destruct s as [|x s]; [discriminate|].
    destruct (p x) eqn:E; [|discriminate].
    exists (Some x), s, c. split; [constructor; exact E|exact H].
  - simpl in H. apply IHa in H. destruct H as (p1 & s1 & c1 & Ha & H).
    apply IHb in H. destruct H as (p2 & s2 & c2 & Hb & H).
    exists p2, s2, c2. split; [econstructor; eassumption|exact H].
  - simpl in H. destruct (rmatch a prev s c k) as [res'|] eqn:E.
    + injection H as <-. apply IHa in E. destruct E as (p' & s' & c' & Ha & E).
      exists p', s', c'. split; [apply MAltL; exact Ha|exact E].
    + apply IHb in H. destruct H as (p' & s' & c' & Hb & H).
      exists p', s', c'. split; [apply MAltR; exact Hb|exact H].
  - destruct g; simpl in H; revert H; generalize (length s) at 1; intros n; revert prev s c res;
      (induction n as [|n IHn]; intros prev s c res H;
       [exists prev, s, c; split; [constructor|exact H]|]).
    + match type of H with
      | match ?m with Some _ => _ | None => _ end = _ => destruct m as [res1|] eqn:E
      end.
      * injection H as <-. apply IHa in E. destruct E as (p1 & s1 & c1 & Ha & Hm).
        destruct (Nat.ltb_spec (length s1) (length s)) as [Hlt|Hge]; [|discriminate].
        apply IHn in Hm. destruct Hm as (p2 & s2 & c2 & Hr & Hm).
        exists p2, s2, c2. split; [eapply MRepMore; eassumption|exact Hm].
      * exists prev, s, c. split; [constructor|exact H].
    + destruct (k prev s c) as [res1|] eqn:E.
      * injection H as <-. exists prev, s, c. split; [constructor|exact E].
      * apply IHa in H. destruct H as (p1 & s1 & c1 & Ha & Hm).
        destruct (Nat.ltb_spec (length s1) (length s)) as [Hlt|Hge]; [|discriminate].
        apply IHn in Hm. destruct Hm as (p2 & s2 & c2 & Hr & Hm).
        exists p2, s2, c2. split; [eapply MRepMore; eassumption|exact Hm].
  - simpl in H. apply IHa in H. destruct H as (p' & s' & c' & Ha & H).
    eexists p', s', _. split; [constructor; exact Ha|exact H].
  - simpl in H. destruct prev; [discriminate|].
    exists None, s, c. split; [constructor|exact H].
  - simpl in H. destruct s; [|discriminate].
    exists prev, [], c. split; [constructor|exact H].
  - simpl in H. destruct (xorb (wordBefore prev) (wordAt s)) eqn:E; [|discriminate].
    exists prev, s, c. split; [constructor; exact E|exact H].
Qed.


(** The matcher finds a result whenever the expression can reach a position
    at which the continuation has one. *)
Lemma rmatch_complete (R : Type) (r : regex) :
  forall prev s c p' s' c',
    Matches r prev s c p' s' c' ->
    forall (k : option N -> jsstring -> caps -> option R) res,
      k p' s' c' = Some res -> exists res', rmatch r prev s c k = Some res'.
Proof.
  induction r as [|p|a IHa b IHb|a IHa b IHb|g a IHa|i a IHa| | |];
    intros prev s c p' s' c' HM k res Hk.
  - inversion HM; subst. simpl. eauto.
  - inversion HM; subst. simpl.
    match goal with H : p _ = true |- _ => rewrite H end. eauto.
  - inversion HM; subst. simpl.
    match goal with
    | Hb : Matches b _ _ _ _ _ _ |- _ => destruct (IHb _ _ _ _ _ _ Hb k res Hk) as [r2 Hr2]
    end.
    eapply IHa; eassumption.
  - inversion HM; subst; simpl.
    + match goal with
      | Ha : Matches a _ _ _ _ _ _ |- _ => destruct (IHa _ _ _ _ _ _ Ha k res Hk) as [r1 Hr1]
      end.
      rewrite Hr1. eauto.
    + destruct (rmatch a prev s c k); [eauto|].
      eapply IHb; eassumption.
  - destruct g; simpl;
      match goal with
      | HM0 : Matches (Rep ?g0 a) _ _ _ _ _ _ |- exists res', ?f (length s) prev s c = Some res' =>
          assert (Hgen : forall n prev s c,
                    Matches (Rep g0 a) prev s c p' s' c' -> (length s <= n)%nat ->
                    exists res', f n prev s c = Some res');
            [|apply Hgen; [exact HM|lia]]
      end; clear HM prev s c;
      (induction n as [|n IHn]; intros prev s c HM Hn; inversion HM; subst).
    + eauto.
    + lia.
    + match goal with
      | |- exists res', match ?m with Some _ => _ | None => _ end = _ => destruct m
      end; eauto.
    + match goal with
      | Ha : Matches a prev s c ?p1 ?s1 ?c1, Hr : Matches (Rep _ a) ?p1 ?s1 ?c1 _ _ _ |- _ =>
          destruct (IHn p1 s1 c1 Hr) as [r1 Hr1]; [lia|];
          match goal with
          | |- exists res', match rmatch a prev s c ?cont with Some _ => _ | None => _ end = _ =>
              destruct (IHa _ _ _ _ _ _ Ha cont r1) as [r2 Hr2]
          end
      end.
      * destruct (Nat.ltb_spec (length s1) (length s)); [exact Hr1|lia].
      * rewrite Hr2. eauto.
    + eauto.
    + lia.
    + rewrite Hk. eauto.
    + destruct (k prev s c); [eauto|].
      match goal with
      | Ha : Matches a prev s c ?p1 ?s1 ?c1, Hr : Matches (Rep _ a) ?p1 ?s1 ?c1 _ _ _ |- _ =>
          destruct (IHn p1 s1 c1 Hr) as [r1 Hr1]; [lia|];
          match goal with
          | |- exists res', rmatch a prev s c ?cont = _ =>
              apply (IHa _ _ _ _ _ _ Ha cont r1)
          end
      end.
      destruct (Nat.ltb_spec (length s1) (length s)); [exact Hr1|lia].
  - inversion HM; subst. simpl. eapply IHa; eassumption.
  - inversion HM; subst. simpl. eauto.
  - inversion HM; subst. simpl. eauto.
  - inversion HM; subst. simpl.
    match goal with H : xorb _ _ = true |- _ => rewrite H end. eauto.
Qed.

Lemma cap_setcap_eq (i : nat) (v : jsstring) (c : caps) : cap i (setcap i v c) = Some v.
Proof.
  unfold cap. revert c. induction i as [|i IH]; intros [|x c]; simpl; auto; apply IH.
Qed.

Lemma cap_setcap_ne (i j : nat) (v : jsstring) (c : caps) :
  i <> j -> cap i (setcap j v c) = cap i c.
Proof.
  unfold cap. revert j c. induction i as [|i IH]; intros [|j] [|x c] Hne; simpl; try congruence.
  - destruct i; reflexivity.
  - rewrite IH by congruence. destruct i; reflexivity.
  - apply IH. congruence.
Qed.

(** [exec]: the match starts after some prefix [pre] of the input, reads
    [w], and group 0 is [w]. *)
Lemma search_sound (r : regex) (s : jsstring) :
  forall prev m,
    search r prev s = Some m ->
    exists pre w rest p' c',
      s = pre ++ w ++ rest /\
      Matches r (prevAfter prev pre) (w ++ rest) [] p' rest c' /\
      m = setcap 0 w c'.
Proof.
  assert (Hhere : forall prev s m,
            rmatch (Grp 0 r) prev s [] (fun _ _ c => Some c) = Some m ->
            exists pre w rest p' c',
              s = pre ++ w ++ rest /\
              Matches r (prevAfter prev pre) (w ++ rest) [] p' rest c' /\
              m = setcap 0 w c').
  { intros prev s0 m H. apply rmatch_sound in H. destruct H as (p' & s' & c' & HM & Hk).
    cbv beta in Hk. injection Hk as <-. inversion HM; subst.
    match goal with
    | Hr : Matches r _ _ _ _ _ _ |- _ =>
        destruct (Matches_word _ _ _ _ _ _ _ Hr) as (w & -> & _);
        exists [], w, s'; eexists; eexists; split; [reflexivity|]; split; [exact Hr|]
    end.
    rewrite firstn_read. reflexivity. }
  induction s as [|x s IH]; intros prev m H.
  - cbn [search] in H.
    destruct (rmatch (Grp 0 r) prev [] [] (fun _ _ c => Some c)) as [c0|] eqn:E; [|discriminate].
    injection H as <-. apply Hhere. exact E.
  - cbn [search] in H.
    destruct (rmatch (Grp 0 r) prev (x :: s) [] (fun _ _ c => Some c)) as [c0|] eqn:E.
    + injection H as <-. apply Hhere. exact E.
    + apply IH in H. destruct H as (pre & w & rest & p' & c' & -> & HM & ->).
      exists (x :: pre), w, rest, p', c'. repeat split. exact HM.
Qed.

Lemma exec_sound (r : regex) (s : jsstring) (m : caps) :
  exec r s = Some m ->
  exists pre w rest p' c',
    s = pre ++ w ++ rest /\
    Matches r (prevAfter None pre) (w ++ rest) [] p' rest c' /\
    m = setcap 0 w c'.
Proof. apply search_sound. Qed.

Lemma exec_whole_match (r : regex) (s : jsstring) (m : caps) :
  exec r s = Some m -> exists w, cap 0 m = Some w.
Proof.
  intros H. apply exec_sound in H. destruct H as (pre & w & rest & p' & c' & _ & _ & ->).
  exists w. apply cap_setcap_eq.
Qed.

Lemma search_complete (r : regex) (pre : jsstring) :
  forall prev rest p' s' c',
    Matches r (prevAfter prev pre) rest [] p' s' c' ->
    exists m, search r prev (pre ++ rest) = Some m.
Proof.
  assert (Hhere : forall prev rest p' s' c',
            Matches r prev rest [] p' s' c' -> exists m, search r prev rest = Some m).
  { intros prev rest p' s' c' HM.
    assert (Hg : Matches (Grp 0 r) prev rest [] p' s'
                   (setcap 0 (firstn (length rest - length s') rest) c')) by (constructor; exact HM).
    destruct (rmatch_complete _ _ _ _ _ _ _ _ Hg (fun _ _ c => Some c) _ eq_refl) as [m Hm].
    exists m. destruct rest; cbn [search]; rewrite Hm; reflexivity. }
  induction pre as [|x pre IH]; intros prev rest p' s' c' HM.
  - simpl in *. eapply Hhere; eassumption.
  - cbn [search app]. destruct (rmatch (Grp 0 r) prev (x :: pre ++ rest) [] (fun _ _ c => Some c)); [eauto|].
    eapply IH. exact HM.
Qed.

Lemma exec_complete (r : regex) (s : jsstring) p' s' c' :
  Matches r None s [] p' s' c' -> exists m, exec r s = Some m.
Proof. intros H. apply (search_complete r [] None s p' s' c'). exact H. Qed.

Lemma prevAfter_Some (pre : jsstring) : forall x, prevAfter (Some x) pre <> None.
Proof.
  unfold prevAfter. induction pre as [|y pre IH]; intros x; simpl; [discriminate|apply IH].
Qed.

(** Only the start of the input has nothing before it. *)
Lemma prevAfter_None (pre : jsstring) : prevAfter None pre = None -> pre = [].
Proof.
  destruct pre as [|x pre]; [reflexivity|].
  intros H. exfalso. exact (prevAfter_Some pre x H).
Qed.

(** Runs of one class. *)
Lemma Matches_rep_cls g p prev s c p' s' c' :
  Matches (Rep g (Cls p)) prev s c p' s' c' ->
  exists w, s = w ++ s' /\ forallb p w = true /\ c' = c.
Proof.
  intros H. remember (Rep g (Cls p)) as r eqn:Hr. induction H; try discriminate.
  - exists []. auto.
  - injection Hr as -> ->. specialize (IHMatches2 eq_refl).
    destruct IHMatches2 as (w & -> & Hw & ->).
    inversion H; subst. exists (x :: w). simpl.
    match goal with Hp : p x = true |- _ => rewrite Hp end. auto.
Qed.

Lemma rep_cls_Matches g p (w : jsstring) :
  forall prev s' c,
    forallb p w = true ->
    Matches (Rep g (Cls p)) prev (w ++ s') c (prevAfter prev w) s' c.
Proof.
  induction w as [|x w IH]; intros prev s' c Hw; simpl in *.
  - constructor.
  - apply andb_true_iff in Hw. destruct Hw as [Hx Hw].
    eapply MRepMore; [constructor; exact Hx|simpl; lia|].
    apply (IH (Some x)). exact Hw.
Qed.

Lemma Matches_str (lit : jsstring) prev s c p' s' c' :
  Matches (str lit) prev s c p' s' c' -> s = lit ++ s' /\ c' = c.
Proof.
  revert prev s c. induction lit as [|x lit IH]; intros prev s c H; simpl in H.
  - inversion H; subst. auto.
  - inversion H; subst.
    match goal with
    | Hc : Matches (chr x) _ _ _ _ _ _, Hr : Matches (str lit) _ _ _ _ _ _ |- _ =>
        inversion Hc; subst; apply IH in Hr; destruct Hr as [-> ->]
    end.
    match goal with Hx : (x =? _) = true |- _ => apply N.eqb_eq in Hx; subst end.
    auto.
Qed.

Lemma str_Matches (lit : jsstring) :
  forall prev s' c, Matches (str lit) prev (lit ++ s') c (prevAfter prev lit) s' c.
Proof.
  induction lit as [|x lit IH]; intros prev s' c; simpl.
  - constructor.
  - econstructor; [constructor; apply N.eqb_refl|]. apply (IH (Some x)).
Qed.


Lemma Matches_reads (P : N -> Prop) r prev s c p' s' c' :
  Matches r prev s c p' s' c' -> reads P r -> exists w, s = w ++ s' /\ Forall P w.
Proof.
  induction 1; simpl; intros Hr;
    try (exists []; split; [reflexivity|constructor]).
  - exists [x]. split; [reflexivity|]. constructor; [apply Hr; assumption|constructor].
  - destruct Hr as [Ha Hb].
    destruct (IHMatches1 Ha) as (w1 & -> & Hw1), (IHMatches2 Hb) as (w2 & -> & Hw2).
    exists (w1 ++ w2). rewrite <- app_assoc. split; [reflexivity|].
    apply Forall_app; split; assumption.
  - apply IHMatches, Hr.
  - apply IHMatches, Hr.
  - destruct (IHMatches1 Hr) as (w1 & -> & Hw1), (IHMatches2 Hr) as (w2 & -> & Hw2).
    exists (w1 ++ w2). rewrite <- app_assoc. split; [reflexivity|].
    apply Forall_app; split; assumption.
  - apply IHMatches, Hr.
Qed.

Lemma Matches_length r prev s c p' s' c' :
  Matches r prev s c p' s' c' ->
  (minLen r + length s' <= length s)%nat /\
  (forall n, maxLen r = Some n -> (length s <= n + length s')%nat).
Proof.
  induction 1; simpl; try (split; [lia|intros n [= <-]; lia]).
  - destruct IHMatches1 as [L1 U1], IHMatches2 as [L2 U2]. split; [lia|].
    intros n. destruct (maxLen a) as [x|]; [|discriminate].
    destruct (maxLen b) as [y|]; [|discriminate]. intros [= <-].
    specialize (U1 x eq_refl). specialize (U2 y eq_refl). lia.
  - destruct IHMatches as [L U]. split; [lia|].
    intros n. destruct (maxLen a) as [x|]; [|discriminate].
    destruct (maxLen b) as [y|]; [|discriminate]. intros [= <-].
    specialize (U x eq_refl). lia.
  - destruct IHMatches as [L U]. split; [lia|].
    intros n. destruct (maxLen a) as [x|]; [|discriminate].
    destruct (maxLen b) as [y|]; [|discriminate]. intros [= <-].
    specialize (U y eq_refl). lia.
  - exact IHMatches.
Qed.

(** What a run of digits of bounded length reads. *)
Lemma Matches_digits r prev s c p' s' c' (lo hi : nat) :
  Matches r prev s c p' s' c' ->
  reads (fun x => isDigit x = true) r -> minLen r = lo -> maxLen r = Some hi ->
  exists w, s = w ++ s' /\ Properties.digitRun lo hi w /\ p' = prevAfter prev w.
Proof.
  intros HM Hr Hlo Hhi.
  destruct (Matches_word _ _ _ _ _ _ _ HM) as (w & -> & ->).
  destruct (Matches_reads _ _ _ _ _ _ _ _ HM Hr) as (w' & E & Hd).
  apply app_inv_tail in E. subst w'.
  destruct (Matches_length _ _ _ _ _ _ _ HM) as [L U]. specialize (U hi Hhi).
  rewrite Hlo in L. rewrite length_app in L, U.
  exists w. split; [reflexivity|]. split; [|reflexivity].
  split; [|lia]. apply forallb_forall. intros x Hx.
  rewrite Forall_forall in Hd. apply Hd, list_elem_of_In, Hx.
Qed.


(** Building what an expression accepts from what its parts accept. *)
Lemma Accepts_eps : Accepts Eps [].
Proof. intros prev s' c. exists prev, c. constructor. Qed.

Lemma Accepts_cls (p : N -> bool) (x : N) : p x = true -> Accepts (Cls p) [x].
Proof. intros H prev s' c. exists (Some x), c. constructor. exact H. Qed.

Lemma Accepts_cat a b (u v : jsstring) : Accepts a u -> Accepts b v -> Accepts (Cat a b) (u ++ v).
Proof.
  intros Ha Hb prev s' c.
  destruct (Ha prev (v ++ s') c) as (p1 & c1 & H1).
  destruct (Hb p1 s' c1) as (p2 & c2 & H2).
  exists p2, c2. rewrite <- app_assoc. econstructor; eassumption.
Qed.

Lemma Accepts_alt_l a b (u : jsstring) : Accepts a u -> Accepts (Alt a b) u.
Proof. intros Ha prev s' c. destruct (Ha prev s' c) as (p1 & c1 & H1). exists p1, c1. apply MAltL, H1. Qed.

Lemma Accepts_alt_r a b (u : jsstring) : Accepts b u -> Accepts (Alt a b) u.
Proof. intros Hb prev s' c. destruct (Hb prev s' c) as (p1 & c1 & H1). exists p1, c1. apply MAltR, H1. Qed.

Lemma Accepts_opt_none a : Accepts (opt a) [].
Proof. apply Accepts_alt_r, Accepts_eps. Qed.

Lemma Accepts_opt_some a (u : jsstring) : Accepts a u -> Accepts (opt a) u.
Proof. apply Accepts_alt_l. Qed.

Lemma Accepts_grp i a (u : jsstring) : Accepts a u -> Accepts (Grp i a) u.
Proof.
  intros Ha prev s' c. destruct (Ha prev s' c) as (p1 & c1 & H1).
  exists p1. eexists. constructor. exact H1.
Qed.

Lemma Accepts_rep_cls g (p : N -> bool) (u : jsstring) :
  forallb p u = true -> Accepts (Rep g (Cls p)) u.
Proof. intros H prev s' c. exists (prevAfter prev u), c. apply rep_cls_Matches, H. Qed.

Lemma Accepts_str (lit : jsstring) : Accepts (str lit) lit.
Proof. intros prev s' c. exists (prevAfter prev lit), c. apply str_Matches. Qed.

Lemma Accepts_strI (lit : jsstring) : Accepts (strI lit) lit.
Proof.
  induction lit as [|x lit IH]; simpl.
  - apply Accepts_eps.
  - change (x :: lit) with ([x] ++ lit). apply Accepts_cat; [|exact IH].
    apply Accepts_cls. apply N.eqb_refl.
Qed.

Lemma Accepts_exec (r : regex) (s : jsstring) : Accepts r s -> exists m, exec r s = Some m.
Proof.
  intros H. destruct (H None [] []) as (p' & c' & HM). rewrite app_nil_r in HM.
  eapply exec_complete. exact HM.
Qed.

End RegexFacts.

(** ** The timestamp normalizer on every text *)

Module TimestampProperties.
Import WhatsAppParser Claims Properties RegexSemantics StringFacts RegexFacts TimestampFacts.
Local Open Scope Z_scope.

Lemma Matches_Cat a b prev s c p2 s2 c2 :
  Matches (Cat a b) prev s c p2 s2 c2 ->
  exists p1 s1 c1, Matches a prev s c p1 s1 c1 /\ Matches b p1 s1 c1 p2 s2 c2.
Proof. intros H. inversion H; subst. eauto. Qed.

Lemma Matches_Alt a b prev s c p' s' c' :
  Matches (Alt a b) prev s c p' s' c' ->
  Matches a prev s c p' s' c' \/ Matches b prev s c p' s' c'.
Proof. intros H. inversion H; subst; auto. Qed.

Lemma Matches_opt a prev s c p' s' c' :
  Matches (opt a) prev s c p' s' c' ->
  Matches a prev s c p' s' c' \/ (p' = prev /\ s' = s /\ c' = c).
Proof.
  unfold opt. intros H. inversion H; subst; [left; assumption|].
  match goal with He : Matches Eps _ _ _ _ _ _ |- _ => inversion He; subst end. auto.
Qed.

Lemma Matches_Grp i a prev s c p' s' c' :
  Matches (Grp i a) prev s c p' s' c' ->
  exists c1, Matches a prev s c p' s' c1 /\
             c' = setcap i (firstn (length s - length s') s) c1.
Proof. intros H. inversion H; subst. eauto. Qed.

(** A capture group around a run of digits. *)
Lemma Matches_digit_group i r prev s c p' s' c' (lo hi : nat) :
  Matches (Grp i r) prev s c p' s' c' ->
  groupless r = true -> reads (fun x => isDigit x = true) r ->
  minLen r = lo -> maxLen r = Some hi ->
  exists w, s = w ++ s' /\ digitRun lo hi w /\ c' = setcap i w c /\ p' = prevAfter prev w.
Proof.
  intros H Hg Hr Hlo Hhi. apply Matches_Grp in H. destruct H as (c1 & HM & ->).
  destruct (Matches_digits _ _ _ _ _ _ _ lo hi HM Hr Hlo Hhi) as (w & -> & Hd & ->).
  rewrite (Matches_groupless _ _ _ _ _ _ _ HM Hg).
  exists w. rewrite firstn_read. auto.
Qed.

Lemma digit_value (c : N) : isDigit c = true -> 0 <= Z.of_N c - 48 <= 9.
Proof.
  unfold isDigit, inRange. intros H. apply andb_true_iff in H. destruct H as [H1 H2].
  apply N.leb_le in H1, H2. lia.
Qed.

Lemma digitsValue_bounds (w : jsstring) :
  forall acc, forallb isDigit w = true -> 0 <= acc ->
              acc * 10 ^ Z.of_nat (length w) <= digitsValue acc w
              < (acc + 1) * 10 ^ Z.of_nat (length w).
Proof.
  induction w as [|x w IH]; intros acc Hd Hacc.
  - simpl. lia.
  - simpl in Hd. apply andb_true_iff in Hd. destruct Hd as [Hx Hw].
    simpl digitsValue. rewrite Hx.
    pose proof (digit_value x Hx) as Hv.
    specialize (IH (10 * acc + (Z.of_N x - 48)) Hw ltac:(lia)).
    replace (Z.of_nat (length (x :: w))) with (Z.of_nat (length w) + 1) by (simpl length; lia).
    rewrite Z.pow_add_r by lia. change (10 ^ 1) with 10.
    assert (Hp : 0 < 10 ^ Z.of_nat (length w)) by (apply Z.pow_pos_nonneg; lia).
    nia.
Qed.

Lemma digitsValue_nonneg (s : jsstring) : forall acc, 0 <= acc -> 0 <= digitsValue acc s.
Proof.
  induction s as [|a s IH]; intros acc Ha; simpl; [exact Ha|].
  destruct (isDigit a) eqn:Hd; [|exact Ha]. apply IH.
  pose proof (digit_value a Hd). lia.
Qed.

Lemma parseInt_digitRun (lo hi : nat) (w : jsstring) :
  digitRun lo hi w -> (1 <= lo)%nat ->
  exists v, parseInt (Some w) = Some v /\ 0 <= v < 10 ^ Z.of_nat hi.
Proof.
  intros [Hd Hl] Hlo. exists (digitsValue 0 w). split.
  - destruct w as [|x w]; [simpl in Hl; lia|].
    simpl in Hd. apply andb_true_iff in Hd. destruct Hd as [Hx _].
    unfold parseInt. rewrite Hx. reflexivity.
  - pose proof (digitsValue_bounds w 0 Hd ltac:(lia)) as Hb.
    assert (Hp : 10 ^ Z.of_nat (length w) <= 10 ^ Z.of_nat hi)
      by (apply Z.pow_le_mono_r; lia).
    lia.
Qed.

Lemma monthStart_bounds (leap : bool) (m : Z) : 0 <= monthStart leap m <= 335.
Proof.
  unfold monthStart. destruct leap; destruct m as [|p|p]; try lia;
    do 4 (try destruct p as [p|p|]); lia.
Qed.

Lemma yearNumOf_bounds (y : Z) : 0 <= y < 10000 -> 100 <= yearNumOf y < 10000.
Proof.
  intros H. unfold yearNumOf.
  destruct (Z.ltb_spec y 100); [destruct (Z.ltb_spec y 50)|]; lia.
Qed.

Lemma hourNumOf_bounds (h : Z) (mer : option jsstring) : 0 <= h -> 0 <= hourNumOf h mer <= h + 12.
Proof.
  intros H. unfold hourNumOf.
  repeat match goal with
         | |- context [if ?b then _ else _] => destruct b
         end; lia.
Qed.

(** Within these bounds, which the fields of a token keep, the date is
    never invalid. *)
Lemma newDate_defined (y mo dy h mi s : Z) :
  100 <= y < 10000 -> -1 <= mo < 100 -> 0 <= dy < 100 ->
  0 <= h < 200 -> 0 <= mi < 100 -> 0 <= s < 100 ->
  newDate y mo dy h mi s = Some (makeDay y mo dy * msPerDay + makeTime h mi s).
Proof.
  intros Hy Hmo Hdy Hh Hmi Hs. unfold newDate.
  destruct ((0 <=? y) && (y <=? 99)) eqn:E.
  { apply andb_true_iff in E. destruct E as [_ E]. apply Z.leb_le in E. lia. }
  unfold timeClip.
  match goal with |- (if ?b then _ else _) = _ => destruct b eqn:Eb end; [reflexivity|].
  exfalso. apply Z.leb_gt in Eb.
  pose proof (monthStart_bounds (inLeapYear (y + mo / 12)) (mo mod 12)) as Hm.
  unfold makeDay, makeTime, dayFromYear, msPerDay, msPerHour, msPerMinute, msPerSecond in Eb.
  cbv zeta in Eb.
  set (ms := monthStart (inLeapYear (y + mo / 12)) (mo mod 12)) in *.
  assert (Hq : -1 <= mo / 12 <= 8) by (Z.div_mod_to_equations; lia).
  set (q := mo / 12) in *.
  assert (Hd : -4000000 <= 365 * (y + q - 1970) + (y + q - 1969) / 4 - (y + q - 1901) / 100
                           + (y + q - 1601) / 400 <= 4000000)
    by (Z.div_mod_to_equations; lia).
  lia.
Qed.


Lemma reads_d12 : reads (fun x => isDigit x = true) d12.
Proof. simpl. repeat split; auto. Qed.
Lemma reads_d2 : reads (fun x => isDigit x = true) d2.
Proof. simpl. repeat split; auto. Qed.
Lemma reads_d24 : reads (fun x => isDigit x = true) d24.
Proof. simpl. repeat split; auto. Qed.

Ltac peel H Ha := apply Matches_Cat in H; destruct H as (? & ? & ? & Ha & H).

(** The optional seconds and the optional meridiem, the last three parts of
    the first pattern. *)
Lemma format_tail_groups p5 s5 c5 p' s' c' :
  Matches (cats [opt (Cat (str (js ":")) (Grp 6 d2)); star sp; opt (Grp 7 meridiemCI)])
    p5 s5 c5 p' s' c' ->
  exists o6 o7,
    (o6 = None \/ exists w6, o6 = Some w6 /\ digitRun 2 2 w6) /\
    c' = (match o7 with Some w7 => setcap 7 w7 | None => id end)
           ((match o6 with Some w6 => setcap 6 w6 | None => id end) c5).
Proof.
  cbn [cats]. intros H. peel H H6. peel H Hws.
  rewrite (Matches_groupless _ _ _ _ _ _ _ Hws eq_refl) in H. clear Hws.
  assert (E6 : exists o6,
             (o6 = None \/ exists w6, o6 = Some w6 /\ digitRun 2 2 w6) /\
             x1 = (match o6 with Some w6 => setcap 6 w6 | None => id end) c5).
  { apply Matches_opt in H6. destruct H6 as [H6|(_ & _ & ->)].
    - peel H6 Hc. apply Matches_str in Hc. destruct Hc as [_ ->].
      destruct (Matches_digit_group _ _ _ _ _ _ _ _ 2%nat 2%nat H6 eq_refl reads_d2 eq_refl eq_refl)
        as (w6 & _ & Hd & -> & _).
      exists (Some w6). split; [right; eauto|reflexivity].
    - exists None. split; [left; reflexivity|reflexivity]. }
  destruct E6 as (o6 & Ho6 & ->).
  apply Matches_opt in H. destruct H as [H7|(_ & _ & ->)].
  - apply Matches_Grp in H7. destruct H7 as (c7 & H7 & ->).
    rewrite (Matches_groupless _ _ _ _ _ _ _ H7 eq_refl).
    eexists o6, (Some _). split; [exact Ho6|reflexivity].
  - exists o6, None. split; [exact Ho6|reflexivity].
Qed.

(** What the groups of a token of the first pattern hold. *)
Lemma firstFormat_groups prev s p' s' c' :
  Matches firstFormat prev s [] p' s' c' ->
  exists w1 w2 w3 w4 w5 rest1,
    s = w1 ++ rest1 /\
    digitRun 1 2 w1 /\ digitRun 1 2 w2 /\ digitRun 2 4 w3 /\
    digitRun 1 2 w4 /\ digitRun 2 2 w5 /\
    cap 1 c' = Some w1 /\ cap 2 c' = Some w2 /\ cap 3 c' = Some w3 /\
    cap 4 c' = Some w4 /\ cap 5 c' = Some w5 /\
    (cap 6 c' = None \/ exists w6, cap 6 c' = Some w6 /\ digitRun 2 2 w6).
Proof.
  unfold firstFormat, formats. cbn [nth]. cbn [cats]. intros H.
  peel H H1. peel H Hs1. peel H H2. peel H Hs2. peel H H3. peel H Hoc. peel H Hws.
  peel H H4. peel H Hco. peel H H5.
  destruct (Matches_digit_group _ _ _ _ _ _ _ _ 1%nat 2%nat H1 eq_refl reads_d12 eq_refl eq_refl)
    as (w1 & -> & Hd1 & -> & _).
  rewrite (Matches_groupless _ _ _ _ _ _ _ Hs1 eq_refl) in H2.
  destruct (Matches_digit_group _ _ _ _ _ _ _ _ 1%nat 2%nat H2 eq_refl reads_d12 eq_refl eq_refl)
    as (w2 & _ & Hd2 & -> & _).
  rewrite (Matches_groupless _ _ _ _ _ _ _ Hs2 eq_refl) in H3.
  destruct (Matches_digit_group _ _ _ _ _ _ _ _ 2%nat 4%nat H3 eq_refl reads_d24 eq_refl eq_refl)
    as (w3 & _ & Hd3 & -> & _).
  rewrite (Matches_groupless _ _ _ _ _ _ _ Hoc eq_refl) in Hws.
  rewrite (Matches_groupless _ _ _ _ _ _ _ Hws eq_refl) in H4.
  destruct (Matches_digit_group _ _ _ _ _ _ _ _ 1%nat 2%nat H4 eq_refl reads_d12 eq_refl eq_refl)
    as (w4 & _ & Hd4 & -> & _).
  rewrite (Matches_groupless _ _ _ _ _ _ _ Hco eq_refl) in H5.
  destruct (Matches_digit_group _ _ _ _ _ _ _ _ 2%nat 2%nat H5 eq_refl reads_d2 eq_refl eq_refl)
    as (w5 & _ & Hd5 & -> & _).
  destruct (format_tail_groups _ _ _ _ _ _ H) as (o6 & o7 & Ho6 & ->).
  exists w1, w2, w3, w4, w5. eexists. split; [reflexivity|].
  repeat (split; [assumption|]).
  destruct Ho6 as [->|(w6 & -> & Hd6)]; destruct o7 as [w7|]; cbn;
    repeat (split; [reflexivity|]); eauto.
Qed.

(** A match whose groups are such runs of digits gives a date that is
    never invalid. *)
Lemma dateOfMatch_defined (m : caps) (w1 w2 w3 w4 w5 : jsstring) :
  cap 1 m = Some w1 -> cap 2 m = Some w2 -> cap 3 m = Some w3 ->
  cap 4 m = Some w4 -> cap 5 m = Some w5 ->
  digitRun 1 2 w1 -> digitRun 1 2 w2 -> digitRun 2 4 w3 ->
  digitRun 1 2 w4 -> digitRun 2 2 w5 ->
  (cap 6 m = None \/ exists w6, cap 6 m = Some w6 /\ digitRun 2 2 w6) ->
  exists mo dy y h mi s,
    parseInt (cap 1 m) = Some mo /\ parseInt (cap 2 m) = Some dy /\
    parseInt (cap 3 m) = Some y /\ parseInt (cap 4 m) = Some h /\
    parseInt (cap 5 m) = Some mi /\
    (s = 0 \/ parseInt (cap 6 m) = Some s) /\
    0 <= mo < 100 /\ 0 <= dy < 100 /\ 0 <= y < 10000 /\ 0 <= h < 100 /\
    0 <= mi < 100 /\ 0 <= s < 100 /\
    dateOfMatch m =
    Some (makeDay (yearNumOf y) (mo - 1) dy * msPerDay + makeTime (hourNumOf h (cap 7 m)) mi s).
Proof.
  intros E1 E2 E3 E4 E5 D1 D2 D3 D4 D5 H6.
  destruct (parseInt_digitRun _ _ _ D1 ltac:(lia)) as (mo & Pmo & Bmo).
  destruct (parseInt_digitRun _ _ _ D2 ltac:(lia)) as (dy & Pdy & Bdy).
  destruct (parseInt_digitRun _ _ _ D3 ltac:(lia)) as (y & Py & By).
  destruct (parseInt_digitRun _ _ _ D4 ltac:(lia)) as (h & Ph & Bh).
  destruct (parseInt_digitRun _ _ _ D5 ltac:(lia)) as (mi & Pmi & Bmi).
  change (10 ^ Z.of_nat 2) with 100 in *. change (10 ^ Z.of_nat 4) with 10000 in *.
  assert (Hs : exists s, (s = 0 \/ parseInt (cap 6 m) = Some s) /\ 0 <= s < 100 /\
                         (if truthy (cap 6 m) then parseInt (cap 6 m) else Some 0) = Some s).
  { destruct H6 as [->|(w6 & -> & D6)].
    - exists 0. simpl. split; [left; reflexivity|]. split; [lia|reflexivity].
    - destruct (parseInt_digitRun _ _ _ D6 ltac:(lia)) as (s & Ps & Bs).
      change (10 ^ Z.of_nat 2) with 100 in Bs.
      exists s. split; [right; exact Ps|]. split; [exact Bs|].
      destruct w6 as [|x w6]; [destruct D6 as [_ D6]; simpl in D6; lia|]. exact Ps. }
  destruct Hs as (s & Hs0 & Bs & Es).
  exists mo, dy, y, h, mi, s.
  rewrite E1, E2, E3, E4, E5.
  repeat (split; [assumption|]).
  unfold dateOfMatch. rewrite E1, E2, E3, E4, E5, Py, Ph, Pmo, Pdy, Pmi. cbn [mbind option_bind].
  rewrite Es. cbn [mbind option_bind].
  pose proof (yearNumOf_bounds y By). pose proof (hourNumOf_bounds h (cap 7 m) ltac:(lia)).
  apply newDate_defined; lia.
Qed.


(** Every token of the second pattern is a token of the first, with the
    same groups. *)
Lemma second_in_first prev s c p' s' c' :
  Matches secondFormat prev s c p' s' c' -> Matches firstFormat prev s c p' s' c'.
Proof.
  unfold secondFormat, firstFormat, formats. cbn [nth]. cbn [cats]. intros H.
  peel H H1. peel H Hs1. peel H H2. peel H Hs2. peel H H3. peel H Hws.
  peel H H4. peel H Hco. peel H H5.
  repeat (eapply MCat; [eassumption|]).
  eapply MCat; [apply MAltR, MEps|].
  repeat (eapply MCat; [eassumption|]).
  eapply MCat; [apply MRepDone|]. apply MAltR, MEps.
Qed.

Lemma exec_second_first (s : jsstring) :
  exec firstFormat s = None -> exec secondFormat s = None.
Proof.
  intros H1. destruct (exec secondFormat s) as [m|] eqn:H2; [|reflexivity].
  apply exec_sound in H2. destruct H2 as (pre & w & rest & p' & c' & -> & HM & _).
  apply second_in_first in HM.
  destruct (search_complete firstFormat pre None (w ++ rest) p' rest c' HM) as [m' Hm'].
  unfold exec in H1. rewrite H1 in Hm'. discriminate.
Qed.

(** What a text that holds a token of the first pattern becomes. *)
Lemma exec_first_fields (s : jsstring) (m : caps) :
  exec firstFormat s = Some m ->
  exists mo dy y h mi sec,
    parseInt (cap 1 m) = Some mo /\ parseInt (cap 2 m) = Some dy /\
    parseInt (cap 3 m) = Some y /\ parseInt (cap 4 m) = Some h /\
    parseInt (cap 5 m) = Some mi /\
    (sec = 0 \/ parseInt (cap 6 m) = Some sec) /\
    0 <= mo < 100 /\ 0 <= dy < 100 /\ 0 <= y < 10000 /\ 0 <= h < 100 /\
    0 <= mi < 100 /\ 0 <= sec < 100 /\
    dateOfMatch m =
    Some (makeDay (yearNumOf y) (mo - 1) dy * msPerDay + makeTime (hourNumOf h (cap 7 m)) mi sec).
Proof.
  intros H. apply exec_sound in H. destruct H as (pre & w & rest & p' & c' & _ & HM & ->).
  destruct (firstFormat_groups _ _ _ _ _ HM)
    as (w1 & w2 & w3 & w4 & w5 & rest1 & _ & D1 & D2 & D3 & D4 & D5 & E1 & E2 & E3 & E4 & E5 & H6).
  apply (dateOfMatch_defined _ w1 w2 w3 w4 w5);
    rewrite ?cap_setcap_ne by discriminate; assumption.
Qed.

Lemma tryFormats_first (s : jsstring) :
  tryFormats formats s =
  match exec firstFormat s with
  | Some m => dateOfMatch m
  | None => None
  end.
Proof.
  unfold formats. cbn [tryFormats]. fold formats.
  change (cats _) with firstFormat at 1.
  destruct (exec firstFormat s) as [m|] eqn:E.
  - destruct (exec_first_fields s m E) as (mo & dy & y & h & mi & sec & _ & _ & _ & _ & _ & _ & _ & _ & _ & _ & _ & _ & ->).
    reflexivity.
  - apply exec_second_first in E. unfold secondFormat, formats in E. cbn [nth] in E.
    rewrite E. reflexivity.
Qed.

Lemma getMinutes_makeTime (day h mi s : Z) :
  0 <= mi < 60 -> 0 <= s < 60 ->
  getMinutes (day * msPerDay + makeTime h mi s) = mi.
Proof.
  intros Hmi Hs. unfold getMinutes, makeTime, msPerDay, msPerHour, msPerMinute, msPerSecond.
  replace (day * 86400000 + (h * 3600000 + mi * 60000 + s * 1000))
    with (mi * 60000 + s * 1000 + (day * 24 + h) * 3600000) by lia.
  rewrite Z.mod_add by lia. rewrite Z.mod_small by lia.
  symmetry. apply Z.div_unique with (r := s * 1000); lia.
Qed.

Lemma clean_digit (x : N) (dateStr : jsstring) :
  isDigit x = true -> In x (cleanDateStr dateStr) -> In x dateStr.
Proof.
  intros Hx Hin. unfold cleanDateStr in Hin. apply trim_In in Hin.
  apply in_map_iff in Hin. destruct Hin as (y & Hy & Hin).
  apply filter_In in Hin. destruct Hin as [Hin _].
  destruct (N.eqb_spec y 1548) as [E|E].
  - rewrite <- Hy in Hx. discriminate.
  - rewrite <- Hy. exact Hin.
Qed.


(** [dateOfMatch], written out. *)
Lemma dateOfMatch_eq (m : caps) :
  dateOfMatch m =
  match parseInt (cap 3 m), parseInt (cap 4 m), parseInt (cap 1 m), parseInt (cap 2 m),
        parseInt (cap 5 m), (if truthy (cap 6 m) then parseInt (cap 6 m) else Some 0) with
  | Some y, Some h, Some mo, Some dy, Some mi, Some s =>
      newDate (yearNumOf y) (mo - 1) dy (hourNumOf h (cap 7 m)) mi s
  | _, _, _, _, _, _ => None
  end.
Proof.
  unfold dateOfMatch.
  destruct (parseInt (cap 3 m)); [|reflexivity].
  destruct (parseInt (cap 4 m)); [|reflexivity].
  destruct (parseInt (cap 1 m)); [|reflexivity].
  destruct (parseInt (cap 2 m)); [|reflexivity].
  destruct (parseInt (cap 5 m)); [|reflexivity].
  destruct (if truthy (cap 6 m) then parseInt (cap 6 m) else Some 0); reflexivity.
Qed.
(** The call of the [Date] constructor that a match ends in. *)
Lemma dateOfMatch_call (m : caps) (t : Z) :
  dateOfMatch m = Some t ->
  exists mo dy y h mi s,
    parseInt (cap 1 m) = Some mo /\ parseInt (cap 2 m) = Some dy /\
    parseInt (cap 3 m) = Some y /\ parseInt (cap 4 m) = Some h /\
    parseInt (cap 5 m) = Some mi /\
    (if truthy (cap 6 m) then parseInt (cap 6 m) = Some s else s = 0) /\
    newDate (yearNumOf y) (mo - 1) dy (hourNumOf h (cap 7 m)) mi s = Some t.
Proof.
  rewrite dateOfMatch_eq.
  destruct (parseInt (cap 3 m)) as [y|]; [|discriminate].
  destruct (parseInt (cap 4 m)) as [h|]; [|discriminate].
  destruct (parseInt (cap 1 m)) as [mo|]; [|discriminate].
  destruct (parseInt (cap 2 m)) as [dy|]; [|discriminate].
  destruct (parseInt (cap 5 m)) as [mi|]; [|discriminate].
  destruct (truthy (cap 6 m)).
  - destruct (parseInt (cap 6 m)) as [s|]; [|discriminate]. intros H.
    exists mo, dy, y, h, mi, s. repeat (split; [reflexivity|]). exact H.
  - intros H. exists mo, dy, y, h, mi, 0. repeat (split; [reflexivity|]). exact H.
Qed.

(** A token of the first pattern: the fields that are read from its groups
    and the call of the constructor, which is the result of
    [parseTimestamp]. *)
Lemma exec_first_call (now : Z) (dateStr : jsstring) (m : caps) :
  exec firstFormat (cleanDateStr dateStr) = Some m ->
  exists mo dy y h mi s,
    parseInt (cap 1 m) = Some mo /\ parseInt (cap 2 m) = Some dy /\
    parseInt (cap 3 m) = Some y /\ parseInt (cap 4 m) = Some h /\
    parseInt (cap 5 m) = Some mi /\
    (if truthy (cap 6 m) then parseInt (cap 6 m) = Some s else s = 0) /\
    newDate (yearNumOf y) (mo - 1) dy (hourNumOf h (cap 7 m)) mi s =
    Some (parseTimestamp now dateStr) /\
    0 <= y.
Proof.
  intros E.
  destruct (exec_first_fields _ m E)
    as (mo' & dy' & y' & h' & mi' & sec' & _ & _ & R3 & _ & _ & _ & _ & _ & By & _ & _ & _ & Hdate).
  destruct (dateOfMatch_call _ _ Hdate) as (mo & dy & y & h & mi & s & P1 & P2 & P3 & P4 & P5 & P6 & Hn).
  exists mo, dy, y, h, mi, s. repeat (split; [assumption|]).
  split.
  - unfold parseTimestamp. rewrite tryFormats_first, E, Hdate. exact Hn.
  - rewrite P3 in R3. injection R3 as ->. lia.
Qed.

(** The first pattern decides: when some pattern gives a date, the first
    one matches. *)
Lemma matched_by_first (dateStr : jsstring) (t : Z) :
  tryFormats formats (cleanDateStr dateStr) = Some t ->
  exists m, exec firstFormat (cleanDateStr dateStr) = Some m.
Proof.
  rewrite tryFormats_first.
  destruct (exec firstFormat (cleanDateStr dateStr)) as [m|]; [eauto|discriminate].
Qed.

Lemma newDate_formula (yr mo dy h mi s t : Z) :
  100 <= yr -> newDate yr mo dy h mi s = Some t ->
  t = makeDay yr mo dy * msPerDay + makeTime h mi s.
Proof.
  intros Hyr. unfold newDate, timeClip.
  replace ((0 <=? yr) && (yr <=? 99)) with false by (symmetry; apply andb_false_iff; right; lia).
  match goal with |- (if ?c then _ else _) = _ -> _ => destruct c end; [|discriminate].
  intros [= <-]. reflexivity.
Qed.

(** C2, amended: the first numeric field [a] of a matched token is taken as
    the month and the second field [b] as the day of month.  The result of
    [parseTimestamp] is the instant that the [Date] constructor builds from
    the fields of the token of the first pattern, with month index [a - 1]
    and day [b] (the year windowed, the hour converted, the seconds of the
    token or 0); when [a/b] is a date of the calendar and the time lies
    within the day, the month of the instant is [a] and its day of month is
    [b], read in a time zone of constant offset. *)
Theorem month_day_order (now : Z) (dateStr : jsstring) (t : Z) :
  tryFormats formats (cleanDateStr dateStr) = Some t ->
  parseTimestamp now dateStr = t /\
  exists m a b y hour mi s,
    exec firstFormat (cleanDateStr dateStr) = Some m /\
    parseInt (cap 1 m) = Some a /\ parseInt (cap 2 m) = Some b /\
    parseInt (cap 3 m) = Some y /\ parseInt (cap 4 m) = Some hour /\
    parseInt (cap 5 m) = Some mi /\
    (if truthy (cap 6 m) then parseInt (cap 6 m) = Some s else s = 0) /\
    newDate (yearNumOf y) (a - 1) b (hourNumOf hour (cap 7 m)) mi s = Some t /\
    (1 <= a <= 12 -> 1 <= b <= daysInMonth (yearNumOf y) (a - 1) ->
     0 <= hourNumOf hour (cap 7 m) < 24 -> 0 <= mi < 60 -> 0 <= s < 60 ->
     getMonth t + 1 = a /\ getDate t = b).
Proof.
  intros H.
  assert (Ht : parseTimestamp now dateStr = t) by (apply parseTimestamp_matched; exact H).
  split; [exact Ht|].
  destruct (matched_by_first dateStr t H) as [m E].
  destruct (exec_first_call now dateStr m E)
    as (a & b & y & hour & mi & s & P1 & P2 & P3 & P4 & P5 & P6 & Hn & Hy).
  rewrite Ht in Hn.
  exists m, a, b, y, hour, mi, s. repeat (split; [assumption|]).
  intros Ha Hb Hh Hmi Hs.
  assert (Hyr : 100 <= yearNumOf y).
  { unfold yearNumOf. destruct (Z.ltb_spec y 100), (Z.ltb_spec y 50); lia. }
  rewrite (newDate_formula _ _ _ _ _ _ _ Hyr Hn).
  destruct (instant_calendar (yearNumOf y) (a - 1) b (hourNumOf hour (cap 7 m)) mi s)
    as (_ & Hm & Hd & _); [lia|exact Hb|exact Hh|exact Hmi|exact Hs|].
  cbv zeta in Hm, Hd. split; [lia|exact Hd].
Qed.

Lemma month_day_order_witness :
  parseTimestamp 0 (js "12/5/23, 3:41 PM") = 1701790860000.
Proof.
  apply (month_day_order 0 (js "12/5/23, 3:41 PM") 1701790860000).
  vm_compute. reflexivity.
Defined.

(** C8: the hour that [parseTimestamp] passes to the [Date] constructor for
    a matched token.  The result is the instant built from the fields of
    the token of the first pattern with the hour [H], where [H] is the
    parsed hour plus 12 for a meridiem PM or م with parsed hour below 12, 0
    for a meridiem AM or ص with parsed hour 12, and the parsed hour itself
    when the token has no meridiem; so 12:00 AM is built with hour 0, 12:00
    PM with hour 12 and 1:30 PM with hour 13. *)
Theorem meridiem_conversion :
  (forall (now : Z) (dateStr : jsstring) (t : Z),
     tryFormats formats (cleanDateStr dateStr) = Some t ->
     parseTimestamp now dateStr = t /\
     exists m mo dy y hour mi s H,
       exec firstFormat (cleanDateStr dateStr) = Some m /\
       parseInt (cap 1 m) = Some mo /\ parseInt (cap 2 m) = Some dy /\
       parseInt (cap 3 m) = Some y /\ parseInt (cap 4 m) = Some hour /\
       parseInt (cap 5 m) = Some mi /\
       (if truthy (cap 6 m) then parseInt (cap 6 m) = Some s else s = 0) /\
       newDate (yearNumOf y) (mo - 1) dy H mi s = Some t /\
       (forall mer, cap 7 m = Some mer -> isPM mer -> hour < 12 -> H = hour + 12) /\
       (forall mer, cap 7 m = Some mer -> isAM mer -> hour = 12 -> H = 0) /\
       (cap 7 m = None -> H = hour)) /\
  (forall now : Z,
     Some (parseTimestamp now (js "12/5/23, 12:00 AM")) = newDate 2023 11 5 0 0 0 /\
     Some (parseTimestamp now (js "12/5/23, 12:00 PM")) = newDate 2023 11 5 12 0 0 /\
     Some (parseTimestamp now (js "12/5/23, 1:30 PM")) = newDate 2023 11 5 13 30 0).
Proof.
  split.
  - intros now dateStr t H.
    assert (Ht : parseTimestamp now dateStr = t) by (apply parseTimestamp_matched; exact H).
    split; [exact Ht|].
    destruct (matched_by_first dateStr t H) as [m E].
    destruct (exec_first_call now dateStr m E)
      as (mo & dy & y & hour & mi & s & P1 & P2 & P3 & P4 & P5 & P6 & Hn & _).
    rewrite Ht in Hn.
    exists m, mo, dy, y, hour, mi, s, (hourNumOf hour (cap 7 m)).
    repeat (split; [assumption|]).
    split; [|split].
    + intros mer E7 Hpm Hlt. rewrite E7. apply hourNumOf_pm; assumption.
    + intros mer E7 Ham He. rewrite E7. apply hourNumOf_am; assumption.
    + intros E7. rewrite E7. reflexivity.
  - intros now. unfold parseTimestamp. repeat split; vm_compute; reflexivity.
Qed.

Lemma meridiem_conversion_witness :
  parseTimestamp 0 (js "12/5/23, 1:30 PM") = 1701783000000.
Proof.
  apply (proj1 meridiem_conversion 0 (js "12/5/23, 1:30 PM") 1701783000000).
  vm_compute. reflexivity.
Defined.

(** X1: when the cleaned text holds no token of the first pattern,
    [parseTimestamp] gives the current time.  When it holds one, the result
    is always the instant that the [Date] constructor builds from the
    fields of the token: month index from the first field, day from the
    second, the windowed year, the converted hour, the minutes, and the
    seconds of the token when it has them, 0 when it has none; fields out
    of range carry over and the date is never invalid, so the second
    pattern is never the one used. *)
Theorem timestamp_fallback (now : Z) (dateStr : jsstring) :
  match exec firstFormat (cleanDateStr dateStr) with
  | Some m =>
      exists mo dy y h mi sec,
        parseInt (cap 1 m) = Some mo /\ parseInt (cap 2 m) = Some dy /\
        parseInt (cap 3 m) = Some y /\ parseInt (cap 4 m) = Some h /\
        parseInt (cap 5 m) = Some mi /\
        (if truthy (cap 6 m) then parseInt (cap 6 m) = Some sec else sec = 0) /\
        newDate (yearNumOf y) (mo - 1) dy (hourNumOf h (cap 7 m)) mi sec =
        Some (parseTimestamp now dateStr)
  | None => parseTimestamp now dateStr = now
  end.
Proof.
  destruct (exec firstFormat (cleanDateStr dateStr)) as [m|] eqn:E.
  - destruct (exec_first_call now dateStr m E)
      as (mo & dy & y & h & mi & sec & P1 & P2 & P3 & P4 & P5 & P6 & Hn & _).
    exists mo, dy, y, h, mi, sec. repeat (split; [assumption|]). exact Hn.
  - unfold parseTimestamp. rewrite tryFormats_first, E. reflexivity.
Qed.

(** X2: a text that holds no decimal digit, the empty text included, is
    given the current time. *)
Theorem digitless_text_is_now (now : Z) (dateStr : jsstring) :
  forallb (fun c => negb (isDigit c)) dateStr = true -> parseTimestamp now dateStr = now.
Proof.
  intros Hno. unfold parseTimestamp. rewrite tryFormats_first.
  destruct (exec firstFormat (cleanDateStr dateStr)) as [m|] eqn:E; [|reflexivity].
  exfalso. apply exec_sound in E.
  destruct E as (pre & w & rest & p' & c' & Hs & HM & _).
  destruct (firstFormat_groups _ _ _ _ _ HM) as (w1 & _ & _ & _ & _ & rest1 & Hw & [Hd Hl] & _).
  destruct w1 as [|x w1]; [simpl in Hl; lia|].
  simpl in Hd. apply andb_true_iff in Hd. destruct Hd as [Hx _].
  assert (Hin : In x (cleanDateStr dateStr)).
  { rewrite Hs, Hw. apply in_or_app. right. left. reflexivity. }
  apply (clean_digit x dateStr Hx) in Hin.
  rewrite forallb_forall in Hno. specialize (Hno x Hin). rewrite Hx in Hno. discriminate.
Qed.

Lemma digitless_text_is_now_witness : parseTimestamp 7 (js "yesterday, noon") = 7.
Proof. apply (digitless_text_is_now 7 (js "yesterday, noon")). vm_compute. reflexivity. Defined.

(** X3: in a host time zone of constant offset (one without
    daylight-saving transitions, where no wall-clock time is skipped), the
    instant of a token reads back as the token's fields.  When the first two
    fields are a month and a day of the calendar and the time lies within
    the day, the instant has that month and day, the year of the third field
    (below 50: 2000 more, from 50 to 99: 1900 more, from 100 on: as
    written), the converted hour and the minutes.  The getters are those of
    [JsDate], which read the fields off the time value. *)
Theorem token_fields_round_trip (now : Z) (dateStr : jsstring) (m : caps) (mo dy y h mi : Z) :
  exec firstFormat (cleanDateStr dateStr) = Some m ->
  parseInt (cap 1 m) = Some mo -> parseInt (cap 2 m) = Some dy ->
  parseInt (cap 3 m) = Some y -> parseInt (cap 4 m) = Some h ->
  parseInt (cap 5 m) = Some mi ->
  1 <= mo <= 12 -> 1 <= dy <= daysInMonth (yearNumOf y) (mo - 1) ->
  hourNumOf h (cap 7 m) < 24 -> mi < 60 ->
  (forall sec, parseInt (cap 6 m) = Some sec -> sec < 60) ->
  let t := parseTimestamp now dateStr in
  getFullYear t = (if y <? 50 then 2000 + y else if y <? 100 then 1900 + y else y) /\
  getMonth t + 1 = mo /\ getDate t = dy /\
  getHours t = hourNumOf h (cap 7 m) /\ getMinutes t = mi.
Proof.
  intros E P1 P2 P3 P4 P5 Hmo Hdy Hh Hmi Hsec t. subst t.
  destruct (exec_first_fields _ m E)
    as (mo' & dy' & y' & h' & mi' & sec & R1 & R2 & R3 & R4 & R5 & R6 & _ & _ & By & Bh & Bmi & Bs & Hdate).
  rewrite P1 in R1. rewrite P2 in R2. rewrite P3 in R3. rewrite P4 in R4. rewrite P5 in R5.
  injection R1 as <-. injection R2 as <-. injection R3 as <-. injection R4 as <-.
  injection R5 as <-.
  unfold parseTimestamp. rewrite tryFormats_first, E, Hdate. cbn [from_option id].
  assert (Hs : 0 <= sec < 60).
  { destruct R6 as [->|R6]; [lia|]. specialize (Hsec sec R6). lia. }
  pose proof (hourNumOf_bounds h (cap 7 m) ltac:(lia)) as Hhb.
  destruct (instant_calendar (yearNumOf y) (mo - 1) dy (hourNumOf h (cap 7 m)) mi sec)
    as (Hy & Hm & Hd & Hhr); try lia.
  cbv zeta in Hy, Hm, Hd, Hhr.
  split; [|split; [|split; [|split]]].
  - rewrite Hy. unfold yearNumOf.
    destruct (Z.ltb_spec y 100), (Z.ltb_spec y 50); lia.
  - lia.
  - exact Hd.
  - exact Hhr.
  - apply getMinutes_makeTime; lia.
Qed.

Lemma token_fields_round_trip_witness :
  let t := parseTimestamp 0 (js "12/5/23, 3:41 PM") in
  getFullYear t = 2023 /\ getMonth t + 1 = 12 /\ getDate t = 5 /\
  getHours t = 15 /\ getMinutes t = 41.
Proof.
  apply (token_fields_round_trip 0 (js "12/5/23, 3:41 PM")
           [Some (js "12/5/23, 3:41 PM"); Some (js "12"); Some (js "5"); Some (js "23");
            Some (js "3"); Some (js "41"); None; Some (js "PM")] 12 5 23 3 41);
    try (vm_compute; reflexivity); try (vm_compute; intros; discriminate);
    vm_compute; split; discriminate.
Defined.

End TimestampProperties.

(** ** The timestamp of a line goes through the normalizer *)

Module TokenFacts.
Import WhatsAppParser Claims Properties RegexSemantics StringFacts RegexFacts TimestampFacts
  TimestampProperties.

Ltac peelAs H Ha s1 := apply Matches_Cat in H; destruct H as (? & s1 & ? & Ha & H).

Lemma Matches_spaces r prev s c p' s' c' :
  Matches r prev s c p' s' c' -> reads (fun x => isSpace x = true) r ->
  exists ws, s = ws ++ s' /\ forallb isSpace ws = true /\ (minLen r <= length ws)%nat.
Proof.
  intros HM Hr.
  destruct (Matches_reads _ _ _ _ _ _ _ _ HM Hr) as (ws & -> & Hd).
  destruct (Matches_length _ _ _ _ _ _ _ HM) as [L _]. rewrite length_app in L.
  exists ws. split; [reflexivity|]. split; [|lia].
  apply forallb_forall. intros x Hx. rewrite Forall_forall in Hd.
  apply Hd, list_elem_of_In, Hx.
Qed.

#[local] Arguments js : simpl never.

Lemma Matches_comma prev s c p' s' c' :
  Matches (opt (oneOf (js "،,"))) prev s c p' s' c' ->
  exists oc, (oc = [] \/ oc = js "،" \/ oc = js ",") /\ s = oc ++ s'.
Proof.
  intros H. apply Matches_opt in H. destruct H as [H|(_ & -> & _)].
  - unfold oneOf in H. inversion H as [|? ? u ? ? Hc| | | | | | | | |]; subst.
    change (js "،,") with [1548; 44] in Hc. simpl in Hc.
    rewrite orb_false_r in Hc. apply orb_true_iff in Hc.
    destruct Hc as [Hc|Hc]; apply N.eqb_eq in Hc; subst u.
    + exists (js "،"). split; [auto|reflexivity].
    + exists (js ","). split; [auto|reflexivity].
  - exists []. auto.
Qed.

Lemma Matches_seconds prev s c p' s' c' :
  Matches (opt (Cat (str (js ":")) d2)) prev s c p' s' c' ->
  exists o6, (o6 = [] \/ exists w6, o6 = js ":" ++ w6 /\ digitRun 2 2 w6) /\ s = o6 ++ s'.
Proof.
  intros H. apply Matches_opt in H. destruct H as [H|(_ & -> & _)].
  - peelAs H Hc smid. apply Matches_str in Hc. destruct Hc as [-> _].
    destruct (Matches_digits _ _ _ _ _ _ _ 2%nat 2%nat H reads_d2 eq_refl eq_refl)
      as (w6 & -> & D6 & _).
    exists (js ":" ++ w6). split; [right; eauto|]. rewrite <- app_assoc. reflexivity.
  - exists []. auto.
Qed.

Lemma Matches_meridiem prev s c p' s' c' :
  Matches (opt meridiemCS) prev s c p' s' c' ->
  exists o7, (o7 = [] \/ o7 = js "AM" \/ o7 = js "PM" \/ o7 = js "ص" \/ o7 = js "م") /\
             s = o7 ++ s'.
Proof.
  intros H. apply Matches_opt in H. destruct H as [H|(_ & -> & _)].
  - unfold meridiemCS in H. cbn [alts] in H.
    apply Matches_Alt in H. destruct H as [H|H].
    { apply Matches_str in H. destruct H as [-> _]. exists (js "AM"). auto 6. }
    apply Matches_Alt in H. destruct H as [H|H].
    { apply Matches_str in H. destruct H as [-> _]. exists (js "PM"). auto 6. }
    apply Matches_Alt in H. destruct H as [H|H].
    { apply Matches_str in H. destruct H as [-> _]. exists (js "ص"). auto 6. }
    apply Matches_str in H. destruct H as [-> _]. exists (js "م"). auto 6.
  - exists []. auto.
Qed.

(** The parts of a token of the line patterns' timestamp. *)
Lemma timestampPrefix_parts prev ts rest c p' c' :
  Matches timestampPrefix prev (ts ++ rest) c p' rest c' ->
  exists w1 w2 w3 oc ws1 w4 w5 o6 ws2 o7,
    ts = w1 ++ js "/" ++ w2 ++ js "/" ++ w3 ++ oc ++ ws1 ++ w4 ++ js ":" ++ w5 ++ o6 ++ ws2 ++ o7 /\
    digitRun 1 2 w1 /\ digitRun 1 2 w2 /\ digitRun 2 4 w3 /\
    (oc = [] \/ oc = js "،" \/ oc = js ",") /\
    forallb isSpace ws1 = true /\ ws1 <> [] /\
    digitRun 1 2 w4 /\ digitRun 2 2 w5 /\
    (o6 = [] \/ exists w6, o6 = js ":" ++ w6 /\ digitRun 2 2 w6) /\
    forallb isSpace ws2 = true /\
    (o7 = [] \/ o7 = js "AM" \/ o7 = js "PM" \/ o7 = js "ص" \/ o7 = js "م").
Proof.
  unfold timestampPrefix. cbn [cats]. intros H.
  peelAs H H1 s1. peelAs H Hs1 s2. peelAs H H2 s3. peelAs H Hs2 s4. peelAs H H3 s5.
  peelAs H Hoc s6. peelAs H Hws s7. peelAs H H4 s8. peelAs H Hco s9. peelAs H H5 s10.
  peelAs H H6 s11. peelAs H Hws2 s12.
  destruct (Matches_digits _ _ _ _ _ _ _ 1%nat 2%nat H1 reads_d12 eq_refl eq_refl) as (w1 & E1 & D1 & _).
  apply Matches_str in Hs1. destruct Hs1 as [Es1 _].
  destruct (Matches_digits _ _ _ _ _ _ _ 1%nat 2%nat H2 reads_d12 eq_refl eq_refl) as (w2 & E2 & D2 & _).
  apply Matches_str in Hs2. destruct Hs2 as [Es2 _].
  destruct (Matches_digits _ _ _ _ _ _ _ 2%nat 4%nat H3 reads_d24 eq_refl eq_refl) as (w3 & E3 & D3 & _).
  destruct (Matches_comma _ _ _ _ _ _ Hoc) as (oc & Hoc' & Eoc).
  destruct (Matches_spaces _ _ _ _ _ _ _ Hws) as (ws1 & Ews & Sws & Lws);
    [simpl; auto|].
  destruct (Matches_digits _ _ _ _ _ _ _ 1%nat 2%nat H4 reads_d12 eq_refl eq_refl) as (w4 & E4 & D4 & _).
  apply Matches_str in Hco. destruct Hco as [Eco _].
  destruct (Matches_digits _ _ _ _ _ _ _ 2%nat 2%nat H5 reads_d2 eq_refl eq_refl) as (w5 & E5 & D5 & _).
  destruct (Matches_seconds _ _ _ _ _ _ H6) as (o6 & Ho6 & E6).
  destruct (Matches_spaces _ _ _ _ _ _ _ Hws2) as (ws2 & Ews2 & Sws2 & _);
    [simpl; auto|].
  destruct (Matches_meridiem _ _ _ _ _ _ H) as (o7 & Ho7 & E7).
  exists w1, w2, w3, oc, ws1, w4, w5, o6, ws2, o7.
  split.
  - apply (app_inv_tail rest).
    rewrite E1, Es1, E2, Es2, E3, Eoc, Ews, E4, Eco, E5, E6, Ews2, E7.
    repeat rewrite <- app_assoc. reflexivity.
  - repeat (split; [assumption|]).
    split; [destruct ws1; [simpl in Lws; lia|discriminate]|].
    repeat (split; [assumption|]). assumption.
Qed.


Lemma Accepts_d12 (u : jsstring) : digitRun 1 2 u -> Accepts d12 u.
Proof.
  intros [Hd Hl]. unfold d12, d.
  destruct u as [|a [|b [|? ?]]]; simpl in Hl; try lia; simpl in Hd;
    repeat (apply andb_true_iff in Hd; destruct Hd as [? Hd]).
  - change [a] with ([a] ++ []).
    apply Accepts_cat; [apply Accepts_cls; assumption|apply Accepts_opt_none].
  - change [a; b] with ([a] ++ [b]).
    apply Accepts_cat; [apply Accepts_cls; assumption|apply Accepts_opt_some, Accepts_cls; assumption].
Qed.

Lemma Accepts_d2 (u : jsstring) : digitRun 2 2 u -> Accepts d2 u.
Proof.
  intros [Hd Hl]. unfold d2, d.
  destruct u as [|a [|b [|? ?]]]; simpl in Hl; try lia; simpl in Hd;
    repeat (apply andb_true_iff in Hd; destruct Hd as [? Hd]).
  change [a; b] with ([a] ++ [b]).
  apply Accepts_cat; apply Accepts_cls; assumption.
Qed.

Lemma Accepts_d24 (u : jsstring) : digitRun 2 4 u -> Accepts d24 u.
Proof.
  intros [Hd Hl]. unfold d24, d. cbn [cats].
  destruct u as [|a [|b [|x [|y [|? ?]]]]]; simpl in Hl; try lia; simpl in Hd;
    repeat (apply andb_true_iff in Hd; destruct Hd as [? Hd]).
  - change [a; b] with ([a] ++ [b] ++ []).
    repeat (apply Accepts_cat; [apply Accepts_cls; assumption|]). apply Accepts_opt_none.
  - change [a; b; x] with ([a] ++ [b] ++ [x] ++ []).
    repeat (apply Accepts_cat; [apply Accepts_cls; assumption|]).
    apply Accepts_opt_some, Accepts_cat; [apply Accepts_cls; assumption|apply Accepts_opt_none].
  - change [a; b; x; y] with ([a] ++ [b] ++ [x] ++ [y]).
    repeat (apply Accepts_cat; [apply Accepts_cls; assumption|]).
    apply Accepts_opt_some, Accepts_cat; [apply Accepts_cls; assumption|].
    apply Accepts_opt_some, Accepts_cls; assumption.
Qed.

Lemma Accepts_spaces (ws : jsstring) :
  forallb isSpace ws = true -> ws <> [] -> Accepts (plus sp) ws.
Proof.
  intros Hs Hne. unfold plus, sp. destruct ws as [|x ws]; [congruence|].
  simpl in Hs. apply andb_true_iff in Hs. destruct Hs as [Hx Hs].
  change (x :: ws) with ([x] ++ ws).
  apply Accepts_cat; [apply Accepts_cls; exact Hx|apply Accepts_rep_cls; exact Hs].
Qed.

(** The token as [parseTimestamp] cleans it, and the first pattern on it. *)
Lemma first_accepts_token (w1 w2 w3 oc ws1 w4 w5 o6 ws2 o7 : jsstring) :
  digitRun 1 2 w1 -> digitRun 1 2 w2 -> digitRun 2 4 w3 ->
  (oc = [] \/ oc = js ",") ->
  forallb isSpace ws1 = true -> ws1 <> [] ->
  digitRun 1 2 w4 -> digitRun 2 2 w5 ->
  (o6 = [] \/ exists w6, o6 = js ":" ++ w6 /\ digitRun 2 2 w6) ->
  forallb isSpace ws2 = true ->
  (o7 = [] \/ o7 = js "AM" \/ o7 = js "PM" \/ o7 = js "ص" \/ o7 = js "م") ->
  Accepts firstFormat
    (w1 ++ js "/" ++ w2 ++ js "/" ++ w3 ++ oc ++ ws1 ++ w4 ++ js ":" ++ w5 ++ o6 ++ ws2 ++ o7).
Proof.
  intros D1 D2 D3 Hoc S1 N1 D4 D5 H6 S2 H7.
  unfold firstFormat, formats. cbn [nth]. cbn [cats].
  apply Accepts_cat; [apply Accepts_grp, Accepts_d12, D1|].
  apply Accepts_cat; [apply Accepts_cls; reflexivity|].
  apply Accepts_cat; [apply Accepts_grp, Accepts_d12, D2|].
  apply Accepts_cat; [apply Accepts_cls; reflexivity|].
  apply Accepts_cat; [apply Accepts_grp, Accepts_d24, D3|].
  apply Accepts_cat.
  { destruct Hoc as [->| ->]; [apply Accepts_opt_none|].
    apply Accepts_opt_some, Accepts_cls. reflexivity. }
  apply Accepts_cat; [apply Accepts_spaces; assumption|].
  apply Accepts_cat; [apply Accepts_grp, Accepts_d12, D4|].
  apply Accepts_cat; [apply Accepts_str|].
  apply Accepts_cat; [apply Accepts_grp, Accepts_d2, D5|].
  apply Accepts_cat.
  { destruct H6 as [->|(w6 & -> & D6)]; [apply Accepts_opt_none|].
    apply Accepts_opt_some, Accepts_cat; [apply Accepts_str|apply Accepts_grp, Accepts_d2, D6]. }
  apply Accepts_cat; [apply Accepts_rep_cls; exact S2|].
  destruct H7 as [->|H7]; [apply Accepts_opt_none|].
  apply Accepts_opt_some, Accepts_grp. unfold meridiemCI. cbn [alts].
  destruct H7 as [->|[->|[->| ->]]].
  - apply Accepts_alt_l, Accepts_strI.
  - apply Accepts_alt_r, Accepts_alt_l, Accepts_strI.
  - apply Accepts_alt_r, Accepts_alt_r, Accepts_alt_l, Accepts_strI.
  - apply Accepts_alt_r, Accepts_alt_r, Accepts_alt_r, Accepts_strI.
Qed.


Lemma digitRun_plain (lo hi : nat) (u : jsstring) : digitRun lo hi u -> forallb plainUnit u = true.
Proof. intros [H _]. exact (forallb_imp _ _ _ digit_plain H). Qed.

Lemma spaces_plain (ws : jsstring) : forallb isSpace ws = true -> forallb plainUnit ws = true.
Proof. apply forallb_imp, space_plain. Qed.

Lemma digitRun_first (lo hi : nat) (u : jsstring) :
  digitRun lo hi u -> (1 <= lo)%nat -> exists a u', u = a :: u' /\ isSpace a = false.
Proof.
  intros [Hd Hl] Hlo. destruct u as [|a u']; [simpl in Hl; lia|].
  simpl in Hd. apply andb_true_iff in Hd. destruct Hd as [Ha _].
  exists a, u'. split; [reflexivity|apply digit_not_space, Ha].
Qed.

Lemma digitRun_last (u : jsstring) :
  digitRun 2 2 u -> exists x z, u = [x] ++ [z] /\ isSpace z = false.
Proof.
  intros [Hd Hl]. destruct u as [|x [|z [|? ?]]]; simpl in Hl; try lia.
  simpl in Hd. apply andb_true_iff in Hd. destruct Hd as [_ Hd].
  apply andb_true_iff in Hd. destruct Hd as [Hz _].
  exists x, z. split; [reflexivity|apply digit_not_space, Hz].
Qed.

(** What the cleaning of [parseTimestamp] leaves of a token: the Arabic
    comma becomes a comma, and white space at the end goes. *)
Lemma clean_token (w1 w2 w3 oc ws1 w4 w5 o6 ws2 o7 : jsstring) :
  digitRun 1 2 w1 -> digitRun 1 2 w2 -> digitRun 2 4 w3 ->
  (oc = [] \/ oc = js "،" \/ oc = js ",") ->
  forallb isSpace ws1 = true ->
  digitRun 1 2 w4 -> digitRun 2 2 w5 ->
  (o6 = [] \/ exists w6, o6 = js ":" ++ w6 /\ digitRun 2 2 w6) ->
  forallb isSpace ws2 = true ->
  (o7 = [] \/ o7 = js "AM" \/ o7 = js "PM" \/ o7 = js "ص" \/ o7 = js "م") ->
  exists oc' ws2',
    (oc' = [] \/ oc' = js ",") /\ forallb isSpace ws2' = true /\
    cleanDateStr
      (w1 ++ js "/" ++ w2 ++ js "/" ++ w3 ++ oc ++ ws1 ++ w4 ++ js ":" ++ w5 ++ o6 ++ ws2 ++ o7) =
    w1 ++ js "/" ++ w2 ++ js "/" ++ w3 ++ oc' ++ ws1 ++ w4 ++ js ":" ++ w5 ++ o6 ++ ws2' ++ o7.
Proof.
  intros D1 D2 D3 Hoc S1 D4 D5 H6 S2 H7.
  pose (A := w1 ++ js "/" ++ w2 ++ js "/" ++ w3).
  pose (B := ws1 ++ w4 ++ js ":" ++ w5 ++ o6 ++ ws2 ++ o7).
  assert (PA : forallb plainUnit A = true).
  { unfold A. rewrite !forallb_app.
    rewrite (digitRun_plain _ _ _ D1), (digitRun_plain _ _ _ D2), (digitRun_plain _ _ _ D3).
    reflexivity. }
  assert (P6 : forallb plainUnit o6 = true).
  { destruct H6 as [->|(w6 & -> & D6)]; [reflexivity|].
    rewrite forallb_app, (digitRun_plain _ _ _ D6). reflexivity. }
  assert (P7 : forallb plainUnit o7 = true)
    by (destruct H7 as [->|[->|[->|[->| ->]]]]; reflexivity).
  assert (PB : forallb plainUnit B = true).
  { unfold B. rewrite !forallb_app.
    rewrite (spaces_plain _ S1), (digitRun_plain _ _ _ D4), (digitRun_plain _ _ _ D5), P6,
      (spaces_plain _ S2), P7.
    reflexivity. }
  assert (Ew : w1 ++ js "/" ++ w2 ++ js "/" ++ w3 ++ oc ++ ws1 ++ w4 ++ js ":" ++ w5 ++ o6 ++ ws2 ++ o7
               = A ++ oc ++ B)
    by (unfold A, B; rewrite <- !app_assoc; reflexivity).
  assert (Ecl : exists oc',
             (oc' = [] \/ oc' = js ",") /\
             map (fun c => if c =? 1548 then 44 else c)
               (List.filter (fun c => negb ((c =? 91) || (c =? 93))) (A ++ oc ++ B)) =
             A ++ oc' ++ B).
  { rewrite !List.filter_app, !map_app, (plain_clean A PA), (plain_clean B PB).
    destruct Hoc as [->|[->| ->]];
      [exists []|exists (js ",")|exists (js ",")]; split; auto. }
  destruct Ecl as (oc' & Hoc' & Ecl).
  unfold cleanDateStr. rewrite Ew, Ecl. clear Ew Ecl.
  destruct (digitRun_first _ _ _ D1 ltac:(lia)) as (a & w1' & E1 & Ha).
  destruct (digitRun_last _ D5) as (x5 & z5 & E5 & Hz5).
  assert (Hend : exists m z, w5 ++ o6 = m ++ [z] /\ isSpace z = false).
  { destruct H6 as [->|(w6 & -> & D6)].
    - exists [x5], z5. rewrite app_nil_r. auto.
    - destruct (digitRun_last _ D6) as (x6 & z6 & -> & Hz6).
      exists (w5 ++ js ":" ++ [x6]), z6. split; [|exact Hz6].
      rewrite <- !app_assoc. reflexivity. }
  destruct Hend as (m & z & Em & Hz).
  assert (TX : trimmed (A ++ oc' ++ ws1 ++ w4 ++ js ":" ++ m ++ [z])).
  { eapply (trimmed_ends a z); [unfold A; rewrite E1; reflexivity| |exact Ha|exact Hz].
    rewrite !app_assoc. reflexivity. }
  destruct H7 as [->|H7].
  - exists oc', []. split; [exact Hoc'|]. split; [reflexivity|].
    unfold B. rewrite !app_nil_r.
    replace (A ++ oc' ++ ws1 ++ w4 ++ js ":" ++ w5 ++ o6 ++ ws2)
      with ((A ++ oc' ++ ws1 ++ w4 ++ js ":" ++ m ++ [z]) ++ ws2)
      by (rewrite <- Em, <- !app_assoc; reflexivity).
    rewrite (trim_strip _ _ TX S2). unfold A. rewrite <- Em, <- !app_assoc. reflexivity.
  - exists oc', ws2. split; [exact Hoc'|]. split; [exact S2|].
    assert (E7 : exists m7 z7, o7 = m7 ++ [z7] /\ isSpace z7 = false).
    { destruct H7 as [->|[->|[->| ->]]].
      - exists [65], 77. split; reflexivity.
      - exists [80], 77. split; reflexivity.
      - exists [], 1589. split; reflexivity.
      - exists [], 1605. split; reflexivity. }
    destruct E7 as (m7 & z7 & -> & Hz7).
    rewrite trim_of_trimmed.
    + unfold A, B. rewrite <- !app_assoc. reflexivity.
    + eapply (trimmed_ends a z7); [unfold A; rewrite E1; reflexivity| |exact Ha|exact Hz7].
      unfold B. rewrite !app_assoc. reflexivity.
Qed.

(** A token of the line patterns always goes through the first pattern of
    [parseTimestamp]. *)
Lemma token_parses prev ts rest c p' c' :
  Matches timestampPrefix prev (ts ++ rest) c p' rest c' ->
  exists m, exec firstFormat (cleanDateStr ts) = Some m.
Proof.
  intros H.
  destruct (timestampPrefix_parts _ _ _ _ _ _ H)
    as (w1 & w2 & w3 & oc & ws1 & w4 & w5 & o6 & ws2 & o7 & -> & D1 & D2 & D3 & Hoc & S1 & N1 &
        D4 & D5 & H6 & S2 & H7).
  destruct (clean_token w1 w2 w3 oc ws1 w4 w5 o6 ws2 o7 D1 D2 D3 Hoc S1 D4 D5 H6 S2 H7)
    as (oc' & ws2' & Hoc' & S2' & ->).
  apply Accepts_exec. apply first_accepts_token; assumption.
Qed.

(** The instant of such a token does not depend on the clock. *)
Lemma token_instant prev ts rest c p' c' :
  Matches timestampPrefix prev (ts ++ rest) c p' rest c' ->
  exists t, forall now, parseTimestamp now ts = t.
Proof.
  intros H. destruct (token_parses _ _ _ _ _ _ H) as [m Hm].
  destruct (exec_first_fields _ m Hm)
    as (mo & dy & y & h & mi & sec & _ & _ & _ & _ & _ & _ & _ & _ & _ & _ & _ & _ & Hd).
  exists (makeDay (yearNumOf y) (mo - 1) dy * msPerDay + makeTime (hourNumOf h (cap 7 m)) mi sec)%Z.
  intros now. unfold parseTimestamp. rewrite tryFormats_first, Hm, Hd. reflexivity.
Qed.

End TokenFacts.

(** ** The line patterns *)

Module LineFacts.
Import WhatsAppParser Claims Properties RegexSemantics StringFacts RegexFacts TimestampFacts
  TimestampProperties TokenFacts.

#[local] Arguments js : simpl never.

Ltac peelTo H Ha p1 s1 c1 := apply Matches_Cat in H; destruct H as (p1 & s1 & c1 & Ha & H).

(** A capture group around an expression without groups. *)
Lemma Matches_group_word i r prev s c p' s' c' :
  Matches (Grp i r) prev s c p' s' c' -> groupless r = true ->
  exists u, s = u ++ s' /\ c' = setcap i u c /\ Matches r prev (u ++ s') c p' s' c.
Proof.
  intros H Hg. apply Matches_Grp in H. destruct H as (c1 & HM & ->).
  destruct (Matches_word _ _ _ _ _ _ _ HM) as (u & -> & _).
  pose proof (Matches_groupless _ _ _ _ _ _ _ HM Hg) as ->.
  exists u. rewrite firstn_read. split; [reflexivity|]. split; [reflexivity|exact HM].
Qed.

Lemma Matches_Bol prev s c p' s' c' :
  Matches Bol prev s c p' s' c' -> prev = None /\ s' = s /\ c' = c.
Proof. intros H. inversion H; subst. auto. Qed.

Lemma Matches_Eol prev s c p' s' c' :
  Matches Eol prev s c p' s' c' -> s = [] /\ s' = [] /\ c' = c.
Proof. intros H. inversion H; subst. auto. Qed.

Lemma reads_sender : reads (fun x => x <> 58) (plusLazy (noneOf (js ":"))).
Proof. simpl. split; intros x Hx ->; vm_compute in Hx; discriminate. Qed.

Lemma reads_body : reads (fun x => isLineTerminator x = false) (plus dot).
Proof. simpl. split; intros x Hx; apply negb_true_iff in Hx; exact Hx. Qed.

(** What the groups of a user-message line hold: a timestamp token, a
    sender without a colon and text up to the end of the line, neither of
    them empty. *)
Lemma messageRegex_groups (line : jsstring) (m : caps) :
  exec messageRegex line = Some m ->
  exists ts sndr body before prev rest c p' c',
    cap 1 m = Some ts /\ cap 2 m = Some sndr /\ cap 3 m = Some body /\
    Matches timestampPrefix prev (ts ++ rest) c p' rest c' /\
    sndr <> [] /\ ~ In 58 sndr /\
    body <> [] /\ Forall (fun x => isLineTerminator x = false) body /\
    line = before ++ body.
Proof.
  intros H. apply exec_sound in H.
  destruct H as (pre & u & rest0 & p0 & c0 & Hline & H & ->).
  unfold messageRegex in H. cbn [cats] in H.
  peelTo H Hbol pa sa ca. peelTo H Hlb pb sb cb. peelTo H H1 p1 s1 c1.
  peelTo H Hrb pc sc' cc. peelTo H Hw1 pd sd cd. peelTo H Hda pe se ce. peelTo H Hw2 pf sf cf.
  peelTo H H2 p2 s2 c2. peelTo H Hco pg sg cg. peelTo H Hw3 ph sh ch. peelTo H H3 p3 s3 c3.
  apply Matches_Bol in Hbol. destruct Hbol as (_ & Ebol & ->).
  rewrite (Matches_groupless _ _ _ _ _ _ _ Hlb eq_refl) in *.
  destruct (Matches_group_word _ _ _ _ _ _ _ _ H1 eq_refl) as (ts & E1 & -> & HT).
  rewrite (Matches_groupless _ _ _ _ _ _ _ Hrb eq_refl) in *.
  rewrite (Matches_groupless _ _ _ _ _ _ _ Hw1 eq_refl) in *.
  rewrite (Matches_groupless _ _ _ _ _ _ _ Hda eq_refl) in *.
  rewrite (Matches_groupless _ _ _ _ _ _ _ Hw2 eq_refl) in *.
  destruct (Matches_group_word _ _ _ _ _ _ _ _ H2 eq_refl) as (sndr & E2 & -> & HS).
  rewrite (Matches_groupless _ _ _ _ _ _ _ Hco eq_refl) in *.
  rewrite (Matches_groupless _ _ _ _ _ _ _ Hw3 eq_refl) in *.
  destruct (Matches_group_word _ _ _ _ _ _ _ _ H3 eq_refl) as (body & E3 & -> & HB).
  apply Matches_Eol in H. destruct H as (Eeol & Erest & ->).
  destruct (Matches_reads _ _ _ _ _ _ _ _ HS reads_sender) as (sndr' & Es & Fs).
  apply app_inv_tail in Es. subst sndr'.
  destruct (Matches_length _ _ _ _ _ _ _ HS) as [Ls _].
  destruct (Matches_reads _ _ _ _ _ _ _ _ HB reads_body) as (body' & Eb & Fb).
  apply app_inv_tail in Eb. subst body'.
  destruct (Matches_length _ _ _ _ _ _ _ HB) as [Lb _].
  destruct (Matches_word _ _ _ _ _ _ _ Hlb) as (ulb & Elb & _).
  destruct (Matches_word _ _ _ _ _ _ _ Hrb) as (urb & Erb & _).
  destruct (Matches_word _ _ _ _ _ _ _ Hw1) as (uw1 & Ew1 & _).
  destruct (Matches_word _ _ _ _ _ _ _ Hda) as (uda & Eda & _).
  destruct (Matches_word _ _ _ _ _ _ _ Hw2) as (uw2 & Ew2 & _).
  destruct (Matches_word _ _ _ _ _ _ _ Hco) as (uco & Eco & _).
  destruct (Matches_word _ _ _ _ _ _ _ Hw3) as (uw3 & Ew3 & _).
  exists ts, sndr, body. eexists. exists pb, s1, [], p1, [].
  split; [reflexivity|]. split; [reflexivity|]. split; [reflexivity|].
  split; [exact HT|].
  rewrite length_app in Ls, Lb. simpl in Ls, Lb.
  split; [destruct sndr; [simpl in Ls; lia|discriminate]|].
  split; [intros Hin; rewrite Forall_forall in Fs; exact (Fs 58 (proj2 (list_elem_of_In _ _) Hin) eq_refl)|].
  split; [destruct body; [simpl in Lb; lia|discriminate]|].
  split; [exact Fb|].
  rewrite Hline, <- Ebol, Elb, E1, Erb, Ew1, Eda, Ew2, E2, Eco, Ew3, E3, Eeol, Erest.
  repeat rewrite app_nil_r. repeat rewrite app_assoc. reflexivity.
Qed.


(** What the groups of a system line hold. *)
Lemma systemMessageRegex_groups (line : jsstring) (m : caps) :
  exec systemMessageRegex line = Some m ->
  exists ts body prev rest c p' c',
    cap 1 m = Some ts /\ cap 2 m = Some body /\
    Matches timestampPrefix prev (ts ++ rest) c p' rest c' /\
    body <> [].
Proof.
  intros H. apply exec_sound in H.
  destruct H as (pre & u & rest0 & p0 & c0 & Hline & H & ->).
  unfold systemMessageRegex in H. cbn [cats] in H.
  peelTo H Hbol pa sa ca. peelTo H Hlb pb sb cb. peelTo H H1 p1 s1 c1.
  peelTo H Hrb pc sc' cc. peelTo H Hw1 pd sd cd. peelTo H Hda pe se ce. peelTo H Hw2 pf sf cf.
  peelTo H H2 p2 s2 c2.
  apply Matches_Bol in Hbol. destruct Hbol as (_ & Ebol & ->).
  rewrite (Matches_groupless _ _ _ _ _ _ _ Hlb eq_refl) in *.
  destruct (Matches_group_word _ _ _ _ _ _ _ _ H1 eq_refl) as (ts & E1 & -> & HT).
  rewrite (Matches_groupless _ _ _ _ _ _ _ Hrb eq_refl) in *.
  rewrite (Matches_groupless _ _ _ _ _ _ _ Hw1 eq_refl) in *.
  rewrite (Matches_groupless _ _ _ _ _ _ _ Hda eq_refl) in *.
  rewrite (Matches_groupless _ _ _ _ _ _ _ Hw2 eq_refl) in *.
  destruct (Matches_group_word _ _ _ _ _ _ _ _ H2 eq_refl) as (body & E2 & -> & HB).
  apply Matches_Eol in H. destruct H as (Eeol & Erest & ->).
  destruct (Matches_length _ _ _ _ _ _ _ HB) as [Lb _].
  exists ts, body, pb, s1, [], p1, [].
  split; [reflexivity|]. split; [reflexivity|]. split; [exact HT|].
  rewrite length_app in Lb. simpl in Lb. destruct body; [simpl in Lb; lia|discriminate].
Qed.

(** The timestamp of a header line does not depend on the clock. *)
Lemma header_instant (line : jsstring) :
  match matchLine line with
  | MessageMatch m | SystemMatch m => exists t, forall now, parseTimestamp now (group 1 m) = t
  | NoMatch => True
  end.
Proof.
  unfold matchLine.
  destruct (exec messageRegex line) as [m|] eqn:E.
  - destruct (messageRegex_groups line m E)
      as (ts & sndr & body & before & prev & rest & c & p' & c' & E1 & _ & _ & HT & _).
    unfold group. rewrite E1. exact (token_instant _ _ _ _ _ _ HT).
  - destruct (exec systemMessageRegex line) as [m|] eqn:E'; [|exact I].
    destruct (systemMessageRegex_groups line m E')
      as (ts & body & prev & rest & c & p' & c' & E1 & _ & HT & _).
    unfold group. rewrite E1. exact (token_instant _ _ _ _ _ _ HT).
Qed.

End LineFacts.

(** ** The transcript parser on every transcript *)

Module ParserProperties.
Import WhatsAppParser Claims Properties RegexSemantics StringFacts RegexFacts TimestampFacts
  ParserFacts TimestampProperties LineFacts.

#[local] Arguments parseMediaAttachment : simpl never.
#[local] Arguments parseTimestamp : simpl never.
#[local] Arguments js : simpl never.
#[local] Arguments isYou : simpl never.
#[local] Arguments trim : simpl never.
#[local] Arguments matchLine : simpl never.
#[local] Arguments group : simpl never.

(** An invariant of the loop that [skipFirstLine] does not touch holds of
    the state after the last line. *)
Lemma parseLines_invariant (now : Z) (P : ParseState -> Prop) :
  (forall line st, P st -> P (handleLine now line st)) ->
  (forall b st, P st -> P (setSkipFirstLine b st)) ->
  forall lines i st, P st -> P (parseLines now i lines st).
Proof.
  intros Hh Hs. induction lines as [|l lines IH]; intros i st H; simpl; [exact H|].
  apply IH. unfold parseLine.
  destruct (blank l); [exact H|].
  destruct ((i =? 0)%nat && test encryptionNoticeRegex l); [apply Hs, H|].
  apply Hh, Hs, H.
Qed.

Lemma matchLine_message (line : jsstring) (m : caps) :
  matchLine line = MessageMatch m -> exec messageRegex line = Some m.
Proof.
  unfold matchLine. destruct (exec messageRegex line) as [m'|]; [congruence|].
  destruct (exec systemMessageRegex line); discriminate.
Qed.

Lemma matchLine_system (line : jsstring) (m : caps) :
  matchLine line = SystemMatch m -> exec systemMessageRegex line = Some m.
Proof.
  unfold matchLine. destruct (exec messageRegex line) as [m'|]; [discriminate|].
  destruct (exec systemMessageRegex line); congruence.
Qed.

Lemma handleLine_clock_free (now1 now2 : Z) (line : jsstring) (st : ParseState) :
  handleLine now1 line st = handleLine now2 line st.
Proof.
  unfold handleLine. pose proof (header_instant line) as H.
  destruct (matchLine line) as [m|m|]; [| |reflexivity];
    destruct H as [t Ht]; rewrite (Ht now1), (Ht now2); reflexivity.
Qed.

Lemma parseLines_clock_free (now1 now2 : Z) (lines : list jsstring) :
  forall i st, parseLines now1 i lines st = parseLines now2 i lines st.
Proof.
  induction lines as [|l lines IH]; intros i st; simpl; [reflexivity|].
  rewrite IH. f_equal. unfold parseLine.
  destruct (blank l); [reflexivity|].
  destruct ((i =? 0)%nat && test encryptionNoticeRegex l); [reflexivity|].
  apply handleLine_clock_free.
Qed.

(** X4: parsing a transcript never reads the clock.  Every line that one
    of the line patterns matches carries a timestamp token that the
    normalizer accepts, so the fallback to the current time is not reached
    from [parseExport] and the result is the same at any time. *)
Theorem parse_does_not_read_clock (now1 now2 : Z) (content chatName : jsstring) :
  parseExport now1 content chatName = parseExport now2 content chatName.
Proof.
  unfold parseExport. rewrite (parseLines_clock_free now1 now2). reflexivity.
Qed.


Lemma wellFormed_user (content0 s : jsstring) (b : bool) (t : Z) :
  content0 <> [] -> trim s = s -> ~ In 58 s ->
  (isYou s = true -> s = js "You" /\ b = true) ->
  wellFormed (parseMediaAttachment (mkMessage (Some content0) (Some s) b t false None None None)).
Proof.
  intros Hc Ht Hn Hy. unfold wellFormed.
  destruct (parseMediaAttachment_frame (mkMessage (Some content0) (Some s) b t false None None None))
    as (Ec & Es & Ef & _ & Ey).
  rewrite Ec, Es, Ef, Ey. cbn [content sender isFromMe isSystemMessage].
  split; [destruct content0; [congruence|reflexivity]|].
  exists s. auto.
Qed.

Lemma wellFormed_continued (cm : Message) (line : jsstring) :
  wellFormed cm -> isSystemMessage cm = false ->
  wellFormed (parseMediaAttachment (setContent (appendLine (content cm) line) cm)).
Proof.
  intros [_ H] Hsys. rewrite Hsys in H. unfold wellFormed.
  destruct (parseMediaAttachment_frame (setContent (appendLine (content cm) line) cm))
    as (Ec & Es & Ef & _ & Ey).
  rewrite Ec, Es, Ef, Ey. cbn [content sender isFromMe isSystemMessage setContent].
  rewrite Hsys. split; [|exact H].
  unfold appendLine. destruct (default (js "null") (content cm)); reflexivity.
Qed.

Lemma wellFormed_relabel (me : jsstring) (msg : Message) :
  wellFormed msg -> wellFormed (relabel me msg).
Proof.
  intros [Hc H]. unfold relabel.
  destruct (bool_decide (sender msg = Some me) && negb (isSystemMessage msg)) eqn:E;
    [|split; assumption].
  apply andb_true_iff in E. destruct E as [_ E]. apply negb_true_iff in E.
  unfold wellFormed. cbn [setIsFromMe content sender isFromMe isSystemMessage mediaType mediaUrl mediaName].
  rewrite E in *. split; [exact Hc|].
  destruct H as (s & Hs & Ht & Hn & Hy). exists s. repeat (split; [assumption|]).
  intros Hyou. split; [apply Hy, Hyou|reflexivity].
Qed.

Lemma handleLine_wellFormed (now : Z) (line : jsstring) (st : ParseState) :
  Forall wellFormed (pushCurrent st) -> Forall wellFormed (pushCurrent (handleLine now line st)).
Proof.
  intros H. unfold handleLine.
  destruct (matchLine line) as [m|m|] eqn:Hm.
  - apply matchLine_message in Hm.
    destruct (messageRegex_groups line m Hm)
      as (ts & sndr & body & before & prev & rest & c & p' & c' & _ & E2 & E3 & _ & _ & Hn & Hb & _).
    assert (G2 : group 2 m = sndr) by (unfold group; rewrite E2; reflexivity).
    assert (G3 : group 3 m = body) by (unfold group; rewrite E3; reflexivity).
    rewrite G2, G3.
    destruct (isYou (trim sndr)) eqn:Hy; rewrite pushCurrent_open;
      apply Forall_app; (split; [exact H|]); apply Forall_cons; (split; [|constructor]);
      apply wellFormed_user; try assumption.
    + vm_compute. reflexivity.
    + vm_compute. intuition discriminate.
    + auto.
    + apply trim_idem.
    + intros Hin. apply Hn. apply trim_In. exact Hin.
    + intros Hy'. congruence.
  - apply matchLine_system in Hm.
    destruct (systemMessageRegex_groups line m Hm)
      as (ts & body & prev & rest & c & p' & c' & _ & E2 & _ & Hb).
    assert (G2 : group 2 m = body) by (unfold group; rewrite E2; reflexivity).
    rewrite G2, pushCurrent_open.
    apply Forall_app. split; [exact H|]. apply Forall_cons. split; [|constructor].
    unfold wellFormed. cbn [content sender isFromMe isSystemMessage mediaType mediaUrl mediaName].
    split; [destruct body; [congruence|reflexivity]|]. auto.
  - destruct (currentMessage st) as [cm|] eqn:Hcm; [|exact H].
    destruct (isSystemMessage cm) eqn:Hsys; cbn [negb]; [exact H|].
    rewrite pushCurrent_open.
    unfold pushCurrent in H. rewrite Hcm in H.
    apply Forall_app in H. destruct H as [H1 H2].
    apply Forall_app. split; [exact H1|].
    apply Forall_cons. split; [|constructor].
    apply Forall_cons in H2. destruct H2 as [H2 _].
    apply wellFormed_continued; assumption.
Qed.

(** X5: every message that [parseExport] returns has content that is not
    empty; a system message has no sender, is not the user's and carries no
    media fields; a user message has a sender that is trimmed and holds no
    colon, and when that sender is one of the self identifiers it is
    written [You] and the message is the user's. *)
Theorem messages_well_formed (now : Z) (content chatName : jsstring) :
  Forall wellFormed (messages (parseExport now content chatName)).
Proof.
  unfold parseExport. cbn [messages].
  set (st := parseLines now 0 (split 10 content) initialState).
  assert (H : Forall wellFormed (pushCurrent st)).
  { apply (parseLines_invariant now (fun st => Forall wellFormed (pushCurrent st))).
    - apply handleLine_wellFormed.
    - intros b st0 H0. exact H0.
    - constructor. }
  unfold retroactive.
  destruct (negb (existsb isFromMe (pushCurrent st)) && (0 <? length (senderCounts st))%nat);
    [|exact H].
  destruct (truthy (chooseMeSender (senderCounts st) (pushCurrent st))); [|exact H].
  apply Forall_forall. intros msg Hin. apply list_elem_of_In in Hin.
  apply in_map_iff in Hin. destruct Hin as (m0 & <- & Hin).
  apply wellFormed_relabel. rewrite Forall_forall in H. apply H, list_elem_of_In, Hin.
Qed.


Lemma begunBy_continued (now : Z) (h : jsstring) (cm : Message) (line : jsstring) :
  begunBy now h cm -> isSystemMessage cm = false ->
  begunBy now h (parseMediaAttachment (setContent (appendLine (content cm) line) cm)).
Proof.
  unfold begunBy. destruct (matchLine h) as [m|m|]; [| |tauto].
  - intros [Hb Hs] Hsys. split; [apply beginsUser_continued; assumption|].
    destruct (parseMediaAttachment_frame (setContent (appendLine (content cm) line) cm))
      as (_ & Es & _).
    rewrite Es. exact Hs.
  - intros [(Hsy & _) _] Hsys. congruence.
Qed.

Lemma begunBy_relabel (now : Z) (h me : jsstring) (msg : Message) :
  begunBy now h msg -> begunBy now h (relabel me msg).
Proof.
  assert (Es : sender (relabel me msg) = sender msg).
  { unfold relabel.
    destruct (bool_decide (sender msg = Some me) && negb (isSystemMessage msg)); reflexivity. }
  unfold begunBy. destruct (matchLine h) as [m|m|]; [| |tauto]; intros [Hb Hs]; rewrite Es.
  - split; [|exact Hs]. exact (beginsUser_sameText now m _ _ (relabel_sameText me msg) Hb).
  - split; [|exact Hs]. exact (beginsSystem_sameText now m _ _ (relabel_sameText me msg) Hb).
Qed.

Lemma handleLine_headers (now : Z) (line : jsstring) (st : ParseState) (hs : list jsstring) :
  Forall2 (begunBy now) hs (pushCurrent st) ->
  Forall2 (begunBy now) (hs ++ (if isHeader line then [line] else []))
    (pushCurrent (handleLine now line st)).
Proof.
  intros H. unfold handleLine, isHeader.
  destruct (matchLine line) as [m|m|] eqn:Hm.
  - destruct (isYou (trim (group 2 m))) eqn:Hy; rewrite pushCurrent_open;
      (apply Forall2_app; [exact H|]); (constructor; [|constructor]);
      unfold begunBy; rewrite Hm, Hy;
      match goal with
      | |- context [parseMediaAttachment ?x] =>
          destruct (parseMediaAttachment_frame x) as (Ec & Es & _ & Et & Ey)
      end;
      (split; [|rewrite Es; reflexivity]);
      unfold beginsUser; rewrite Ec, Et, Ey; cbn [content timestamp isSystemMessage];
      (split; [reflexivity|]); (split; [reflexivity|]);
      exists []; rewrite app_nil_r; reflexivity.
  - rewrite pushCurrent_open. apply Forall2_app; [exact H|]. constructor; [|constructor].
    unfold begunBy. rewrite Hm. unfold beginsSystem.
    cbn [content timestamp isSystemMessage sender]. auto.
  - rewrite app_nil_r.
    destruct (currentMessage st) as [cm|] eqn:Hcm; [|exact H].
    destruct (isSystemMessage cm) eqn:Hsys; cbn [negb]; [exact H|].
    rewrite pushCurrent_open. unfold pushCurrent in H. rewrite Hcm in H.
    apply List.Forall2_app_inv_r in H. destruct H as (hs1 & hs2 & H1 & H2 & ->).
    apply Forall2_app; [exact H1|].
    inversion H2 as [|h cm0 hs3 l3 Hh H3]; subst. inversion H3; subst.
    constructor; [|constructor]. apply begunBy_continued; assumption.
Qed.

Lemma parseLines_headers (now : Z) (lines : list jsstring) :
  forall (i : nat) (st : ParseState) (hs : list jsstring),
    Forall2 (begunBy now) hs (pushCurrent st) ->
    Forall2 (begunBy now) (hs ++ List.filter isHeader (handledLines i lines))
      (pushCurrent (parseLines now i lines st)).
Proof.
  induction lines as [|l lines IH]; intros i st hs H.
  - simpl. rewrite app_nil_r. exact H.
  - cbn [handledLines parseLines]. unfold parseLine.
    destruct (blank l); cbn [orb]; [apply IH, H|].
    destruct ((i =? 0)%nat && test encryptionNoticeRegex l); [apply IH, H|].
    cbn [List.filter].
    match goal with
    | |- context [handleLine now ?line ?st0] =>
        pose proof (handleLine_headers now line st0 hs H) as Hstep
    end.
    apply (IH (S i)) in Hstep.
    destruct (isHeader (normalizeLine l)).
    + rewrite <- app_assoc in Hstep. exact Hstep.
    + rewrite app_nil_r in Hstep. exact Hstep.
Qed.

(** X6: the messages that [parseExport] returns are, one for one and in
    the same order, the lines that one of the two line patterns matches
    (among the lines that are neither blank nor the skipped notice): each
    message has the timestamp of its line, the sender of its line ([You]
    for a self identifier, none on a system line) and a content that starts
    with the text of its line. *)
Theorem one_message_per_header (now : Z) (content chatName : jsstring) :
  Forall2 (begunBy now)
    (List.filter isHeader (handledLines 0 (split 10 content)))
    (messages (parseExport now content chatName)).
Proof.
  unfold parseExport. cbn [messages].
  set (st := parseLines now 0 (split 10 content) initialState).
  assert (H : Forall2 (begunBy now) (List.filter isHeader (handledLines 0 (split 10 content)))
                (pushCurrent st)).
  { apply (parseLines_headers now (split 10 content) 0 initialState []). constructor. }
  unfold retroactive.
  destruct (negb (existsb isFromMe (pushCurrent st)) && (0 <? length (senderCounts st))%nat);
    [|exact H].
  destruct (truthy (chooseMeSender (senderCounts st) (pushCurrent st))); [|exact H].
  generalize (default [] (chooseMeSender (senderCounts st) (pushCurrent st))) as me.
  intros me. induction H; cbn [map]; constructor; [apply begunBy_relabel|]; assumption.
Qed.

(** X7: a text in which no line is matched by a line pattern, the empty
    text and a text of blank lines included, gives no message. *)
Theorem no_header_no_message (now : Z) (content chatName : jsstring) :
  (forall line, In line (handledLines 0 (split 10 content)) -> matchLine line = NoMatch) ->
  messages (parseExport now content chatName) = [].
Proof.
  intros Hno.
  pose proof (parseLines_headers now (split 10 content) 0 initialState [] ltac:(constructor)) as H.
  assert (E : List.filter isHeader (handledLines 0 (split 10 content)) = []).
  { generalize dependent (handledLines 0 (split 10 content)). intros l Hno _.
    induction l as [|x l IH]; [reflexivity|]. cbn [List.filter].
    unfold isHeader at 1. rewrite (Hno x (or_introl eq_refl)).
    apply IH. intros y Hy. apply Hno. right. exact Hy. }
  rewrite E in H. cbn [app] in H. apply Forall2_nil_inv_l in H.
  unfold parseExport. cbn [messages]. rewrite H.
  unfold retroactive. cbn [existsb negb andb].
  destruct (0 <? length _)%nat; [|reflexivity].
  destruct (truthy _); reflexivity.
Qed.

Lemma no_header_no_message_witness :
  messages (parseExport 0 (js "
not a transcript
") (js "c")) = [].
Proof.
  apply (no_header_no_message 0 _ (js "c")).
  intros line Hin. vm_compute in Hin. destruct Hin as [<-|[]]. vm_compute. reflexivity.
Defined.


Lemma handleLine_youMarked (now : Z) (line : jsstring) (st : ParseState) :
  youMarked st -> youMarked (handleLine now line st).
Proof.
  intros H. unfold handleLine.
  destruct (matchLine line) as [m|m|].
  - destruct (isYou (trim (group 2 m))) eqn:Hy; intros msg Hin;
      rewrite pushCurrent_open in Hin; apply in_app_or in Hin;
      (destruct Hin as [Hin|[<-|[]]]; [apply H, Hin|]);
      match goal with
      | |- context [parseMediaAttachment ?x] =>
          destruct (parseMediaAttachment_frame x) as (_ & Es & Ef & _)
      end; rewrite Es, Ef; cbn [sender isFromMe].
    + tauto.
    + split; [discriminate|]. intros [= E]. rewrite E, isYou_You in Hy. discriminate.
  - intros msg Hin. rewrite pushCurrent_open in Hin. apply in_app_or in Hin.
    destruct Hin as [Hin|[<-|[]]]; [apply H, Hin|].
    cbn [sender isFromMe]. split; discriminate.
  - destruct (currentMessage st) as [cm|] eqn:Hcm; [|exact H].
    destruct (isSystemMessage cm) eqn:Hsys; cbn [negb]; [exact H|].
    intros msg Hin. rewrite pushCurrent_open in Hin. apply in_app_or in Hin.
    unfold youMarked, pushCurrent in H. rewrite Hcm in H.
    destruct Hin as [Hin|[<-|[]]]; [apply H, in_or_app; left; exact Hin|].
    destruct (parseMediaAttachment_frame (setContent (appendLine (content cm) line) cm))
      as (_ & Es & Ef & _).
    rewrite Es, Ef. cbn [sender isFromMe setContent].
    apply H, in_or_app. right. left. reflexivity.
Qed.

(** X8: the messages that [parseExport] marks as the user's are exactly
    the messages of one sender: if a message of the result is the user's,
    another message of the result is the user's exactly when it has the
    same sender. *)
Theorem mine_is_one_sender (now : Z) (content chatName : jsstring) (m1 m2 : Message) :
  In m1 (messages (parseExport now content chatName)) ->
  In m2 (messages (parseExport now content chatName)) ->
  isFromMe m1 = true ->
  (isFromMe m2 = true <-> sender m2 = sender m1).
Proof.
  unfold parseExport. cbn [messages].
  set (st := parseLines now 0 (split 10 content) initialState).
  assert (HY : youMarked st).
  { apply (parseLines_invariant now youMarked).
    - apply handleLine_youMarked.
    - intros b st0 H0. exact H0.
    - intros msg []. }
  assert (HW : Forall wellFormed (pushCurrent st)).
  { apply (parseLines_invariant now (fun st => Forall wellFormed (pushCurrent st))).
    - apply handleLine_wellFormed.
    - intros b st0 H0. exact H0.
    - constructor. }
  assert (Hplain : In m1 (pushCurrent st) -> In m2 (pushCurrent st) -> isFromMe m1 = true ->
                   (isFromMe m2 = true <-> sender m2 = sender m1)).
  { intros H1 H2 Hf. apply (HY m1 H1) in Hf. rewrite Hf. apply HY, H2. }
  unfold retroactive.
  destruct (negb (existsb isFromMe (pushCurrent st)) && (0 <? length (senderCounts st))%nat)
    eqn:Hc; [|exact Hplain].
  destruct (truthy (chooseMeSender (senderCounts st) (pushCurrent st))); [|exact Hplain].
  apply andb_true_iff in Hc. destruct Hc as [Hno _]. apply negb_true_iff in Hno.
  generalize (default [] (chooseMeSender (senderCounts st) (pushCurrent st))) as me.
  intros me H1 H2 Hf.
  apply in_map_iff in H1, H2. destruct H1 as (a & <- & Ha), H2 as (b & <- & Hb).
  assert (Hfalse : forall x, In x (pushCurrent st) -> isFromMe x = false).
  { intros x Hx. destruct (isFromMe x) eqn:E; [|reflexivity].
    assert (existsb isFromMe (pushCurrent st) = true) by (apply existsb_exists; eauto).
    congruence. }
  assert (Hrel : forall x, In x (pushCurrent st) ->
                           (isFromMe (relabel me x) = true <-> sender x = Some me) /\
                           sender (relabel me x) = sender x).
  { intros x Hx. unfold relabel.
    destruct (bool_decide (sender x = Some me)) eqn:Es; cbn [andb].
    - apply bool_decide_eq_true in Es.
      rewrite Forall_forall in HW. specialize (HW x (proj2 (list_elem_of_In _ _) Hx)).
      destruct HW as [_ HW]. destruct (isSystemMessage x); cbn [negb].
      + destruct HW as [HW _]. congruence.
      + cbn [setIsFromMe isFromMe sender]. tauto.
    - apply bool_decide_eq_false in Es. rewrite (Hfalse x Hx).
      split; [split; [discriminate|tauto]|reflexivity]. }
  destruct (Hrel a Ha) as [Ha1 Ha2], (Hrel b Hb) as [Hb1 Hb2].
  rewrite Ha2, Hb2, Hb1. apply Ha1 in Hf. rewrite Hf. tauto.
Qed.

Lemma mine_is_one_sender_witness :
  let m1 := mkMessage (Some (js "hi")) (Some (js "You")) true 1672567200000 false
              None None None in
  let m2 := mkMessage (Some (js "again")) (Some (js "You")) true 1672567320000 false
              None None None in
  isFromMe m2 = true <-> sender m2 = sender m1.
Proof.
  intros m1 m2.
  apply (mine_is_one_sender 0 (js "1/1/23, 10:00 - You: hi
1/1/23, 10:01 - Alice: hello
1/1/23, 10:02 - you: again") (js "Alice") m1 m2).
  - vm_compute. left. reflexivity.
  - vm_compute. right. right. left. reflexivity.
  - reflexivity.
Defined.


Lemma followsAnother_snoc (l : list jsstring) (s : jsstring) :
  forall seen,
    followsAnother seen (l ++ [s]) =
    followsAnother seen l ||
    (negb (JsString.eqb s (js "You")) && existsb (fun s' => negb (JsString.eqb s' s)) (seen ++ l)).
Proof.
  induction l as [|a l IH]; intros seen; cbn [app followsAnother].
  - rewrite app_nil_r, orb_false_r. reflexivity.
  - rewrite IH, <- app_assoc, orb_assoc. reflexivity.
Qed.

Lemma addKey_In (ks : list jsstring) (s x : jsstring) :
  In x (addKey ks s) <-> In x ks \/ x = s.
Proof.
  pose proof (In_addKeys [s] ks x) as H. cbn [fold_left] in H. rewrite H.
  simpl. intuition congruence.
Qed.

Lemma addKey_NoDup (ks : list jsstring) (s : jsstring) : NoDup ks -> NoDup (addKey ks s).
Proof. intros H. exact (NoDup_addKeys [s] ks H). Qed.

Lemma others_absent (s : jsstring) (l : list jsstring) :
  ~ In s l -> existsb (fun k => negb (JsString.eqb k s)) l = (0 <? length l)%nat.
Proof.
  destruct l as [|a l]; [reflexivity|]. intros Hn. cbn [existsb length].
  assert (E : JsString.eqb a s = false).
  { apply eqb_false. intros ->. apply Hn. left. reflexivity. }
  rewrite E. reflexivity.
Qed.

Lemma others_present (s : jsstring) (ks : list jsstring) :
  NoDup ks -> In s ks ->
  existsb (fun k => negb (JsString.eqb k s)) ks = (1 <? length ks)%nat.
Proof.
  induction ks as [|a ks IH]; intros Hnd Hin; [destruct Hin|].
  apply NoDup_cons in Hnd. destruct Hnd as [Ha Hnd].
  cbn [existsb length]. destruct (JsString.eqb a s) eqn:E.
  - apply eqb_true in E. subst a. cbn [negb orb].
    rewrite others_absent by (intros Hs; apply Ha, list_elem_of_In, Hs). reflexivity.
  - cbn [negb orb]. apply eqb_false in E.
    destruct Hin as [Hin|Hin]; [congruence|].
    destruct ks; [destruct Hin|reflexivity].
Qed.

Lemma addKey_several (ks : list jsstring) (s : jsstring) :
  NoDup ks ->
  (1 <? length (addKey ks s))%nat = existsb (fun k => negb (JsString.eqb k s)) ks.
Proof.
  intros Hnd. unfold addKey, inList.
  destruct (existsb (JsString.eqb s) ks) eqn:E.
  - symmetry. apply others_present; [exact Hnd|].
    apply existsb_exists in E. destruct E as (x & Hx & Ex). apply eqb_true in Ex. subst x.
    exact Hx.
  - rewrite length_app. cbn [length]. rewrite Nat.add_1_r, others_absent.
    + destruct (length ks); reflexivity.
    + intros Hin. assert (existsb (JsString.eqb s) ks = true); [|congruence].
      apply existsb_exists. exists s. split; [exact Hin|apply eqb_refl].
Qed.

Lemma You_not_other (s : jsstring) : isYou s = false -> JsString.eqb s (js "You") = false.
Proof. intros H. apply eqb_false. intros ->. rewrite isYou_You in H. discriminate. Qed.

Lemma handleLine_groupInv (now : Z) (line : jsstring) (st : ParseState) :
  groupInv st -> groupInv (handleLine now line st).
Proof.
  intros (Hnd & Hk & Hu & Hg). unfold handleLine.
  destruct (matchLine line) as [m|m|].
  - set (s := trim (group 2 m)).
    change (setCount s (default 0%nat (getCount s (senderCounts st)) + 1)%nat (senderCounts st))
      with (countOne (senderCounts st) s).
    assert (Hsnd : forall b t,
              userSender (parseMediaAttachment
                            (mkMessage (Some (group 3 m)) (Some (if isYou s then js "You" else s))
                               b t false None None None)) =
              Some (if isYou s then js "You" else s)).
    { intros b t. unfold userSender.
      match goal with
      | |- context [parseMediaAttachment ?x] =>
          destruct (parseMediaAttachment_frame x) as (_ & Es & _ & _ & Ey)
      end.
      rewrite Es, Ey. reflexivity. }
    assert (Hkeys : forall x, In x (addKey (keys (senderCounts st)) s) <->
                              In x (keys (senderCounts st)) \/ x = s) by (intros; apply addKey_In).
    destruct (isYou s) eqn:Hy; unfold groupInv;
      cbn [senderCounts stIsGroup]; rewrite pushCurrent_open, userSenders_snoc, Hsnd, keys_countOne;
      (split; [apply addKey_NoDup, Hnd|]).
    + split; [|split].
      * intros k Hin. apply Hkeys in Hin. destruct Hin as [Hin| ->].
        -- specialize (Hk k Hin). destruct (isYou k); apply in_or_app; left; exact Hk.
        -- rewrite Hy. apply in_or_app. right. left. reflexivity.
      * intros u Hin. apply in_app_or in Hin. destruct Hin as [Hin|[<-|[]]].
        -- specialize (Hu u Hin). destruct (JsString.eqb u (js "You")).
           ++ destruct Hu as (k & Hkin & Hky). exists k. split; [apply Hkeys; left; exact Hkin|exact Hky].
           ++ destruct Hu as [Hu1 Hu2]. split; [exact Hu1|apply Hkeys; left; exact Hu2].
        -- rewrite eqb_refl. exists s. split; [apply Hkeys; right; reflexivity|exact Hy].
      * rewrite followsAnother_snoc, eqb_refl. cbn [negb andb]. rewrite orb_false_r. exact Hg.
    + assert (Hother : existsb (fun k => negb (JsString.eqb k s)) (keys (senderCounts st)) =
                       existsb (fun s' => negb (JsString.eqb s' s))
                         (userSenders (pushCurrent st))).
      { apply eq_true_iff_eq. rewrite !existsb_exists. split.
        - intros (k & Hin & Hne). apply negb_true_iff, eqb_false in Hne.
          specialize (Hk k Hin). destruct (isYou k) eqn:Hyk.
          + exists (js "You"). split; [exact Hk|].
            apply negb_true_iff, eqb_false. intros E. rewrite <- E, isYou_You in Hy. discriminate.
          + exists k. split; [exact Hk|]. apply negb_true_iff, eqb_false. exact Hne.
        - intros (u & Hin & Hne). apply negb_true_iff, eqb_false in Hne.
          specialize (Hu u Hin). destruct (JsString.eqb u (js "You")).
          + destruct Hu as (k & Hkin & Hky). exists k. split; [exact Hkin|].
            apply negb_true_iff, eqb_false. intros ->. congruence.
          + destruct Hu as [_ Hu2]. exists u. split; [exact Hu2|].
            apply negb_true_iff, eqb_false. exact Hne. }
      split; [|split].
      * intros k Hin. apply Hkeys in Hin. destruct Hin as [Hin| ->].
        -- specialize (Hk k Hin). destruct (isYou k); apply in_or_app; left; exact Hk.
        -- rewrite Hy. apply in_or_app. right. left. reflexivity.
      * intros u Hin. apply in_app_or in Hin. destruct Hin as [Hin|[<-|[]]].
        -- specialize (Hu u Hin). destruct (JsString.eqb u (js "You")).
           ++ destruct Hu as (k & Hkin & Hky). exists k. split; [apply Hkeys; left; exact Hkin|exact Hky].
           ++ destruct Hu as [Hu1 Hu2]. split; [exact Hu1|apply Hkeys; left; exact Hu2].
        -- rewrite (You_not_other s Hy). split; [exact Hy|apply Hkeys; right; reflexivity].
      * rewrite followsAnother_snoc, (You_not_other s Hy). cbn [negb andb app].
        rewrite <- Hother, <- Hg.
        rewrite <- (length_map fst (countOne (senderCounts st) s)).
        change (map fst (countOne (senderCounts st) s)) with (keys (countOne (senderCounts st) s)).
        rewrite keys_countOne, (addKey_several _ s Hnd).
        generalize (existsb (fun k => negb (JsString.eqb k s)) (keys (senderCounts st))).
        intros [|]; destruct (stIsGroup st); reflexivity.
  - unfold groupInv. cbn [senderCounts stIsGroup]. rewrite pushCurrent_open, userSenders_snoc.
    unfold userSender at 2. cbn [isSystemMessage]. cbv zeta. rewrite !app_nil_r.
    split; [exact Hnd|]. split; [exact Hk|]. split; [exact Hu|exact Hg].
  - destruct (currentMessage st) as [cm|] eqn:Hcm; [|unfold groupInv; auto].
    destruct (isSystemMessage cm) eqn:Hsys; cbn [negb]; [unfold groupInv; auto|].
    assert (E : userSenders
                  (pushCurrent
                     (mkParseState (stMessages st)
                        (Some (parseMediaAttachment (setContent (appendLine (content cm) line) cm)))
                        (stIsGroup st) (skipFirstLine st) (senderCounts st)
                        (firstNonSystemSender st))) =
                userSenders (pushCurrent st)).
    { rewrite pushCurrent_open. unfold pushCurrent. rewrite Hcm, !userSenders_snoc.
      f_equal. unfold userSender.
      destruct (parseMediaAttachment_frame (setContent (appendLine (content cm) line) cm))
        as (_ & Es & _ & _ & Ey).
      rewrite Es, Ey. reflexivity. }
    unfold groupInv. rewrite E. cbn [senderCounts stIsGroup].
    split; [exact Hnd|]. split; [exact Hk|]. split; [exact Hu|exact Hg].
Qed.

(** X9: [parseExport] marks the chat as a group exactly when, among the
    senders of its user messages in order, one that is not [You] comes
    after a message of a different sender ([You] included).  So a chat of
    the user and one other party is a group when the user wrote first. *)
Theorem group_flag (now : Z) (content chatName : jsstring) :
  isGroup (parseExport now content chatName) =
  followsAnother [] (userSenders (messages (parseExport now content chatName))).
Proof.
  unfold parseExport. cbn [messages isGroup]. rewrite retroactive_userSenders.
  assert (H : groupInv (parseLines now 0 (split 10 content) initialState)).
  { apply (parseLines_invariant now groupInv).
    - apply handleLine_groupInv.
    - intros b st0 H0. exact H0.
    - unfold groupInv. cbn. split; [constructor|]. split; [intros k []|].
      split; [intros u []|reflexivity]. }
  destruct H as (_ & _ & _ & H). exact H.
Qed.


Lemma distinct_nil (l : list jsstring) : distinct l = [] -> l = [].
Proof.
  intros H. destruct l as [|x l]; [reflexivity|].
  assert (Hin : In x (distinct (x :: l))) by (apply In_distinct; left; reflexivity).
  rewrite H in Hin. destruct Hin.
Qed.

(** X10: a transcript with one sender is the user's own: when every user
    message of the result has the same sender, and that name is not empty,
    every user message of the result is marked as the user's. *)
Theorem sole_sender_is_me (now : Z) (content chatName k : jsstring) :
  k <> [] ->
  (forall msg, In msg (messages (parseExport now content chatName)) ->
               isSystemMessage msg = false -> sender msg = Some k) ->
  forall msg, In msg (messages (parseExport now content chatName)) ->
              isSystemMessage msg = false -> isFromMe msg = true.
Proof.
  intros Hk Hall.
  pose proof (retroactive_cases now content chatName) as HR. cbv zeta in HR.
  assert (Hsenders : forall s,
            In s (userSenders (pushCurrent (parseLines now 0 (split 10 content) initialState))) ->
            s = k).
  { intros s Hs.
    rewrite <- (retroactive_userSenders
                  (senderCounts (parseLines now 0 (split 10 content) initialState))) in Hs.
    apply In_userSenders in Hs. destruct Hs as (m0 & Hin & Hsys & Hsnd).
    specialize (Hall m0 Hin Hsys). congruence. }
  revert Hall HR. unfold parseExport. cbn [messages].
  set (st := parseLines now 0 (split 10 content) initialState) in *.
  intros Hall HR.
  assert (HY : youMarked st).
  { apply (parseLines_invariant now youMarked).
    - apply handleLine_youMarked.
    - intros b st0 H0. exact H0.
    - intros msg []. }
  destruct (existsb isFromMe (pushCurrent st)) eqn:Hex.
  - assert (Eout : retroactive (senderCounts st) (pushCurrent st) = pushCurrent st).
    { unfold retroactive. rewrite Hex. reflexivity. }
    rewrite Eout in *.
    apply existsb_exists in Hex. destruct Hex as (me & Hme & Hf).
    assert (Hyou : In (js "You") (userSenders (pushCurrent st))).
    { apply In_userSenders. exists me. split; [exact Hme|].
      pose proof (proj1 (HY me Hme) Hf) as Hs. split; [|exact Hs].
      assert (HW : Forall wellFormed (pushCurrent st)).
      { apply (parseLines_invariant now (fun st => Forall wellFormed (pushCurrent st))).
        - apply handleLine_wellFormed.
        - intros b st0 H0. exact H0.
        - constructor. }
      rewrite Forall_forall in HW. specialize (HW me (proj2 (list_elem_of_In _ _) Hme)).
      destruct HW as [_ HW]. destruct (isSystemMessage me); [|reflexivity].
      destruct HW as (_ & HW & _). congruence. }
    apply Hsenders in Hyou.
    intros msg Hin Hsys. apply (HY msg Hin). rewrite (Hall msg Hin Hsys), Hyou. reflexivity.
  - specialize (HR eq_refl). destruct HR as [_ HR].
    pose proof (NoDup_distinct (userSenders (pushCurrent st))) as Hnd.
    assert (Hd : forall s, In s (distinct (userSenders (pushCurrent st))) -> s = k).
    { intros s Hs. apply Hsenders, In_distinct, Hs. }
    destruct (distinct (userSenders (pushCurrent st))) as [|k1 [|k2 rest]] eqn:Ed.
    + apply distinct_nil in Ed. intros msg Hin Hsys. exfalso.
      rewrite HR in Hin.
      assert (Hs : In k (userSenders (pushCurrent st))).
      { apply In_userSenders. exists msg. rewrite HR in Hall. auto. }
      rewrite Ed in Hs. destruct Hs.
    + assert (E1 : k1 = k) by (apply Hd; left; reflexivity). subst k1.
      destruct (HR Hk) as [_ Hmine]. exact Hmine.
    + exfalso.
      assert (E1 : k1 = k) by (apply Hd; left; reflexivity).
      assert (E2 : k2 = k) by (apply Hd; right; left; reflexivity).
      subst k1 k2. apply NoDup_cons in Hnd. destruct Hnd as [Hn _]. apply Hn. left.
Qed.

Lemma sole_sender_is_me_witness :
  Forall (fun msg => isSystemMessage msg = false -> isFromMe msg = true)
    (messages (parseExport 0 (js "1/1/23, 10:00 - Bob: note
1/1/23, 10:01 - Bob: another") (js "Bob"))).
Proof.
  apply Forall_forall. intros msg Hin. apply list_elem_of_In in Hin. revert msg Hin.
  apply (sole_sender_is_me 0 _ (js "Bob") (js "Bob")).
  - vm_compute. discriminate.
  - vm_compute. intros msg [<-|[<-|[]]] _; reflexivity.
Defined.

Lemma arabicDigit_cases (c : N) :
  inRange 1632 1641 c = true ->
  In c [1632; 1633; 1634; 1635; 1636; 1637; 1638; 1639; 1640; 1641]%N.
Proof.
  unfold inRange. intros H. apply andb_true_iff in H. destruct H as [H1 H2].
  apply N.leb_le in H1, H2.
  assert (E : (c = 1632 \/ c = 1633 \/ c = 1634 \/ c = 1635 \/ c = 1636 \/ c = 1637 \/
               c = 1638 \/ c = 1639 \/ c = 1640 \/ c = 1641)%N) by lia.
  simpl. intuition auto.
Qed.

Lemma westernDigit_facts (c : N) :
  let c' := if inRange 1632 1641 c then (c - 1632 + 48)%N else c in
  isSpace c' = isSpace c /\ inRange 1632 1641 c' = false /\
  (isDirectionMark c = false -> isDirectionMark c' = false).
Proof.
  destruct (inRange 1632 1641 c) eqn:E; cbv zeta.
  - apply arabicDigit_cases in E.
    repeat (destruct E as [<-|E]; [vm_compute; auto|]). destruct E.
  - auto.
Qed.

(** X11: a line as the loop of [parseExport] hands it to the patterns holds
    no direction mark and no Arabic-Indic digit and has no white space at
    its ends; normalizing it again changes nothing. *)
Theorem normalized_line_clean (rawLine : jsstring) :
  (forall c, In c (normalizeLine rawLine) ->
             isDirectionMark c = false /\ inRange 1632 1641 c = false) /\
  trim (normalizeLine rawLine) = normalizeLine rawLine /\
  normalizeLine (normalizeLine rawLine) = normalizeLine rawLine.
Proof.
  assert (Hclean : forall c, In c (normalizeLine rawLine) ->
                             isDirectionMark c = false /\ inRange 1632 1641 c = false).
  { intros c Hc. unfold normalizeLine, normalizeArabicNumerals, normalizeText in Hc.
    apply in_map_iff in Hc. destruct Hc as (c0 & <- & Hc0).
    apply trim_In, filter_In in Hc0. destruct Hc0 as [_ Hm]. apply negb_true_iff in Hm.
    destruct (westernDigit_facts c0) as (_ & Hr & Hd). split; [apply Hd, Hm|exact Hr]. }
  assert (Htrim : trim (normalizeLine rawLine) = normalizeLine rawLine).
  { unfold normalizeLine, normalizeArabicNumerals.
    rewrite trim_map by (intros c; apply (westernDigit_facts c)).
    unfold normalizeText. rewrite trim_idem. reflexivity. }
  split; [exact Hclean|]. split; [exact Htrim|].
  unfold normalizeLine at 1. unfold normalizeText.
  rewrite filter_all.
  - rewrite Htrim. unfold normalizeArabicNumerals.
    rewrite <- (map_id (normalizeLine rawLine)) at 2. apply map_ext_in.
    intros c Hc. destruct (Hclean c Hc) as [_ ->]. reflexivity.
  - apply forallb_forall. intros c Hc. destruct (Hclean c Hc) as [-> _]. reflexivity.
Qed.

(** The three things [parseMediaAttachment] does to a message: nothing;
    a kind of attachment, with or without a name; a link with its address. *)
Lemma parseMediaAttachment_cases (m : Message) :
  parseMediaAttachment m = m \/
  (exists kind,
     (parseMediaAttachment m = setMediaType (Some kind) m \/
      exists n, parseMediaAttachment m = setMediaName (Some n) (setMediaType (Some kind) m)) /\
     In kind attachmentKinds) \/
  (exists urlMatch,
     exec urlRegex (default [] (content m)) = Some urlMatch /\
     parseMediaAttachment m = setMediaUrl (cap 0 urlMatch) (setMediaType (Some (js "link")) m)).
Proof.
  unfold parseMediaAttachment.
  repeat match goal with
         | |- context [if ?c then _ else _] => destruct c
         | |- context [match ?c with Some _ => _ | None => _ end] => destruct c eqn:?
         end;
    first [ left; reflexivity
          | right; left; eexists;
            (split; [first [left; reflexivity | right; eexists; reflexivity]|]);
            unfold attachmentKinds; simpl; auto 10
          | right; right; eexists; split; [first [eassumption|reflexivity]|reflexivity] ].
Qed.

(** What the address pattern reads. *)
Lemma urlRegex_word prev (u rest : jsstring) p' c' :
  Matches urlRegex prev (u ++ rest) [] p' rest c' -> httpUrl u.
Proof.
  intros H. unfold urlRegex in H. cbn [cats] in H.
  peelTo H H1 p1 s1 c1. peelTo H H2 p2 s2 c2. peelTo H H3 p3 s3 c3.
  unfold plus in H. peelTo H H4 p4 s4 c4.
  apply Matches_str in H1. destruct H1 as [E1 _].
  apply Matches_str in H3. destruct H3 as [E3 _].
  assert (E5 : exists x, s3 = x :: s4 /\ negb (isSpace x) = true).
  { unfold nsp in H4. inversion H4; subst. eauto. }
  destruct E5 as (x & E5 & Hx).
  apply Matches_rep_cls in H. destruct H as (tail & E4 & Htail & _).
  assert (Hrest : forallb (fun c => negb (isSpace c)) (x :: tail) = true).
  { cbn [forallb]. rewrite Hx, Htail. reflexivity. }
  exists (x :: tail). split; [|split; [discriminate|exact Hrest]].
  rewrite E4 in E5. rewrite E5 in E3. clear E4 E5.
  apply Matches_opt in H2. destruct H2 as [H2|(_ & E2 & _)].
  - apply Matches_str in H2. destruct H2 as [E2 _]. right.
    rewrite E3 in E2. rewrite E2 in E1.
    change (js "http" ++ js "s" ++ js "://" ++ x :: tail ++ rest)
      with ((js "https://" ++ x :: tail) ++ rest) in E1.
    apply app_inv_tail in E1. exact E1.
  - left. rewrite E3 in E2. rewrite <- E2 in E1.
    change (js "http" ++ js "://" ++ x :: tail ++ rest)
      with ((js "http://" ++ x :: tail) ++ rest) in E1.
    apply app_inv_tail in E1. exact E1.
Qed.

Lemma mediaShaped_attachment (m : Message) :
  mediaShaped m -> mediaShaped (parseMediaAttachment m).
Proof.
  intros (Hk & Hn & Hl & Hu).
  destruct (parseMediaAttachment_cases m) as [->|[(kind & Hres & Hin)|(um & Hex & ->)]].
  - exact (conj Hk (conj Hn (conj Hl Hu))).
  - assert (Hkind : In kind mediaKinds) by (apply in_or_app; left; exact Hin).
    assert (Hnl : kind <> js "link").
    { intros ->. vm_compute in Hin. intuition discriminate. }
    destruct Hres as [-> |(n & ->)]; unfold mediaShaped;
      cbn [setMediaType setMediaName mediaType mediaName mediaUrl content];
      (split; [intros k [= <-]; exact Hkind|]);
      (split; [discriminate|]); (split; [congruence|exact Hu]).
  - apply exec_sound in Hex.
    destruct Hex as (pre & u & rest & p' & c' & Etext & HM & ->).
    apply urlRegex_word in HM. rewrite cap_setcap_eq.
    unfold mediaShaped. cbn [setMediaType setMediaUrl mediaType mediaName mediaUrl content].
    split; [intros k [= <-]; apply in_or_app; right; left; reflexivity|].
    split; [discriminate|]. split; [discriminate|].
    intros u' [= <-]. split; [exact HM|].
    exists pre, rest. destruct (content m) as [text|]; cbn [from_option id] in Etext.
    + unfold id in Etext. rewrite Etext. reflexivity.
    + exfalso. destruct HM as (tail & [-> | ->] & _); destruct pre; discriminate.
Qed.

Lemma mediaShaped_continued (cm : Message) (line : jsstring) :
  mediaShaped cm -> mediaShaped (setContent (appendLine (content cm) line) cm).
Proof.
  intros (Hk & Hn & Hl & Hu). unfold mediaShaped.
  cbn [setContent mediaType mediaName mediaUrl content].
  repeat (split; [assumption|]).
  intros u Hmu. destruct (Hu u Hmu) as (Hh & pre & post & Ec). split; [exact Hh|].
  exists pre, (post ++ 10%N :: line). rewrite Ec. unfold appendLine. cbn [from_option id].
  unfold id. rewrite <- !app_assoc. reflexivity.
Qed.

Lemma mediaShaped_fresh c s b t sys : mediaShaped (mkMessage c s b t sys None None None).
Proof. unfold mediaShaped. cbn. repeat split; try discriminate; congruence. Qed.

Lemma handleLine_mediaShaped (now : Z) (line : jsstring) (st : ParseState) :
  Forall mediaShaped (pushCurrent st) -> Forall mediaShaped (pushCurrent (handleLine now line st)).
Proof.
  intros H. unfold handleLine.
  destruct (matchLine line) as [m|m|].
  - destruct (isYou (trim (group 2 m))); rewrite pushCurrent_open;
      apply Forall_app; (split; [exact H|]); apply Forall_cons; (split; [|constructor]);
      apply mediaShaped_attachment, mediaShaped_fresh.
  - rewrite pushCurrent_open. apply Forall_app. split; [exact H|].
    apply Forall_cons. split; [apply mediaShaped_fresh|constructor].
  - destruct (currentMessage st) as [cm|] eqn:Hcm; [|exact H].
    destruct (isSystemMessage cm) eqn:Hsys; cbn [negb]; [exact H|].
    rewrite pushCurrent_open.
    unfold pushCurrent in H. rewrite Hcm in H.
    apply Forall_app in H. destruct H as [H1 H2].
    apply Forall_app. split; [exact H1|].
    apply Forall_cons. split; [|constructor].
    apply Forall_cons in H2. destruct H2 as [H2 _].
    apply mediaShaped_attachment, mediaShaped_continued, H2.
Qed.

Lemma mediaShaped_relabel (me : jsstring) (msg : Message) :
  mediaShaped msg -> mediaShaped (relabel me msg).
Proof.
  intros H. unfold relabel.
  destruct (bool_decide (sender msg = Some me) && negb (isSystemMessage msg)); exact H.
Qed.

(** A property of messages that the loop and the relabelling keep holds
    of every message of the result. *)
Lemma parseExport_Forall (P : Message -> Prop) (now : Z) (content chatName : jsstring) :
  (forall line st, Forall P (pushCurrent st) -> Forall P (pushCurrent (handleLine now line st))) ->
  (forall me msg, P msg -> P (relabel me msg)) ->
  Forall P (messages (parseExport now content chatName)).
Proof.
  intros Hloop Hrel. unfold parseExport. cbn [messages].
  set (st := parseLines now 0 (split 10 content) initialState).
  assert (H : Forall P (pushCurrent st)).
  { apply (parseLines_invariant now (fun st => Forall P (pushCurrent st))).
    - exact Hloop.
    - intros b st0 H0. exact H0.
    - constructor. }
  unfold retroactive.
  destruct (negb (existsb isFromMe (pushCurrent st)) && (0 <? length (senderCounts st))%nat);
    [|exact H].
  destruct (truthy (chooseMeSender (senderCounts st) (pushCurrent st))); [|exact H].
  apply Forall_forall. intros msg Hin. apply list_elem_of_In in Hin.
  apply in_map_iff in Hin. destruct Hin as (m0 & <- & Hin).
  apply Hrel. rewrite Forall_forall in H. apply H, list_elem_of_In, Hin.
Qed.

(** X12: the media fields of every message that [parseExport] returns: a
    media kind is one of image, video, audio, document, file and link; a
    message with a media name has a kind; a link has an address; an
    address is an http or https address without white space that occurs in
    the content of the message. *)
Theorem media_fields_shaped (now : Z) (content chatName : jsstring) :
  Forall mediaShaped (messages (parseExport now content chatName)).
Proof.
  apply parseExport_Forall.
  - apply handleLine_mediaShaped.
  - apply mediaShaped_relabel.
Qed.

End ParserProperties.

(** ** The descriptors of media files *)

Module MediaNameProperties.
Import WhatsAppParser Claims Properties RegexSemantics StringFacts RegexFacts TimestampFacts
  TimestampProperties TokenFacts LineFacts.
Local Open Scope Z_scope.

#[local] Arguments js : simpl never.



(** What the vendor pattern reads: a tag, a dash, eight digits, [-WA] and
    digits; the first group is the eight digits. *)
Lemma whatsappMediaRegex_groups prev s p' s' c' :
  Matches whatsappMediaRegex prev s [] p' s' c' ->
  exists tag w8 tail,
    In tag vendorTags /\ s = tag ++ js "-" ++ w8 ++ js "-WA" ++ tail /\
    digitRun 8 8 w8 /\ cap 1 c' = Some w8.
Proof.
  intros H. unfold whatsappMediaRegex in H. cbn [cats] in H.
  peelTo H Htag p1 s1 c1. peelTo H Hdash p2 s2 c2. peelTo H Hd8 p3 s3 c3.
  peelTo H Hwa p4 s4 c4.
  assert (Ht : exists tag, In tag vendorTags /\ s = tag ++ s1 /\ c1 = []).
  { cbn [alts] in Htag. unfold vendorTags.
    repeat (apply Matches_Alt in Htag; destruct Htag as [Htag|Htag]);
      apply Matches_str in Htag; destruct Htag as [-> ->];
      eexists; (split; [|split; reflexivity]); simpl; auto 10. }
  destruct Ht as (tag & Hin & -> & ->).
  apply Matches_str in Hdash. destruct Hdash as [-> ->].
  apply (Matches_digit_group 1 d8 _ _ _ _ _ _ 8 8) in Hd8; try reflexivity;
    [|simpl; repeat split; auto].
  destruct Hd8 as (w8 & -> & Hw8 & -> & _).
  apply Matches_str in Hwa. destruct Hwa as [-> ->].
  apply Matches_Grp in H. destruct H as (c5 & H & ->).
  pose proof (Matches_groupless _ _ _ _ _ _ _ H eq_refl) as ->.
  exists tag, w8, s4. split; [exact Hin|]. split; [reflexivity|]. split; [exact Hw8|].
  rewrite cap_setcap_ne by discriminate. apply cap_setcap_eq.
Qed.














Lemma startsWith_app (p s : jsstring) : startsWith p (p ++ s) = true.
Proof.
  induction p as [|x p IH]; simpl; [destruct s; reflexivity|].
  rewrite N.eqb_refl. exact IH.
Qed.

Lemma includes_app (p pre post : jsstring) : includes p (pre ++ p ++ post) = true.
Proof.
  induction pre as [|x pre IH].
  - cbn [app]. pose proof (startsWith_app p post) as H.
    destruct (p ++ post); cbn [includes]; rewrite H; reflexivity.
  - cbn [app includes]. rewrite IH. apply orb_true_r.
Qed.

(** X14: a file whose name does not contain [-WA] is dated by the clock,
    at the moment it is read. *)
Theorem other_name_dated_now (now : Z) (filename : jsstring) :
  includes (js "-WA") filename = false ->
  parseMediaFilename now filename = (now, extensionOf filename).
Proof.
  intros Hno. unfold parseMediaFilename.
  destruct (exec whatsappMediaRegex filename) as [m|] eqn:Hex; [|reflexivity].
  exfalso. apply exec_sound in Hex.
  destruct Hex as (pre & u & rest & p' & c' & -> & HM & _).
  apply whatsappMediaRegex_groups in HM.
  destruct HM as (tag & w8 & tail & _ & E & _).
  rewrite E in Hno.
  replace (pre ++ tag ++ js "-" ++ w8 ++ js "-WA" ++ tail)
    with ((pre ++ tag ++ js "-" ++ w8) ++ js "-WA" ++ tail) in Hno
    by (repeat rewrite <- app_assoc; reflexivity).
  rewrite includes_app in Hno. discriminate.
Qed.

Lemma other_name_dated_now_witness :
  parseMediaFilename 1700000000000 (js "holiday-photo.jpg") = (1700000000000, js "jpg").
Proof.
  apply (other_name_dated_now 1700000000000 (js "holiday-photo.jpg")).
  vm_compute. reflexivity.
Defined.

Lemma split_whole (sep : N) (s : jsstring) : ~ In sep s -> split sep s = [s].
Proof.
  induction s as [|c r IH]; intros Hn; [reflexivity|].
  cbn [split]. destruct (N.eqb_spec c sep) as [->|Hc]; [exfalso; apply Hn; left; reflexivity|].
  rewrite IH by (intros Hr; apply Hn; right; exact Hr). reflexivity.
Qed.

Lemma split_last_piece (sep : N) (base ext : jsstring) :
  ~ In sep ext -> exists p ps, split sep (base ++ sep :: ext) = (p :: ps) ++ [ext].
Proof.
  intros Hn. induction base as [|c base IH].
  - cbn [app split]. rewrite N.eqb_refl, (split_whole sep ext Hn). exists [], []. reflexivity.
  - destruct IH as (p & ps & IH). cbn [app split]. rewrite IH.
    destruct (c =? sep)%N.
    + exists [], (p :: ps). reflexivity.
    + exists (c :: p), ps. reflexivity.
Qed.

Lemma parseMediaFilename_type (now : Z) (filename : jsstring) :
  snd (parseMediaFilename now filename) = extensionOf filename.
Proof. unfold parseMediaFilename. destruct (exec whatsappMediaRegex filename); reflexivity. Qed.

(** X15: the type of a media file is the text after the last dot of its
    name, and a name without a dot is its own type. *)
Theorem file_type_of_name (now : Z) (base ext : jsstring) :
  ~ In 46%N ext ->
  snd (parseMediaFilename now (base ++ 46%N :: ext)) = ext /\
  snd (parseMediaFilename now ext) = ext.
Proof.
  intros Hn. rewrite !parseMediaFilename_type. unfold extensionOf. split.
  - destruct (split_last_piece 46 base ext Hn) as (p & ps & ->).
    rewrite last_snoc. reflexivity.
  - rewrite (split_whole 46 ext Hn). reflexivity.
Qed.

Lemma file_type_of_name_witness :
  snd (parseMediaFilename 0 (js "archive.tar.gz")) = js "gz" /\
  snd (parseMediaFilename 0 (js "gz")) = js "gz".
Proof.
  apply (file_type_of_name 0 (js "archive.tar") (js "gz")).
  vm_compute. intros [H|[H|[]]]; discriminate.
Defined.

Lemma inList_cases (x : jsstring) (l : list jsstring) : inList x l = true -> In x l.
Proof.
  unfold inList. intros H. apply existsb_exists in H. destruct H as (y & Hy & E).
  apply eqb_true in E. subst y. exact Hy.
Qed.

(** X16: the extension lists of the four kinds are disjoint: a file
    extension that suits an image, video, audio or document message suits
    messages of that kind only. *)
Theorem type_buckets_disjoint (k1 k2 ext : jsstring) :
  In k1 bucketKinds -> In k2 bucketKinds ->
  mediaTypeMatches (Some k1) ext = true -> mediaTypeMatches (Some k2) ext = true ->
  k1 = k2.
Proof.
  unfold bucketKinds, mediaTypeMatches.
  generalize (toLowerCase ext) as l. intros l H1 H2.
  destruct H1 as [<-|[<-|[<-|[<-|[]]]]]; destruct H2 as [<-|[<-|[<-|[<-|[]]]]];
    try reflexivity; cbv zeta;
    match goal with
    | |- (if negb (truthy (Some ?a)) then _ else _) = true ->
         (if negb (truthy (Some ?b)) then _ else _) = true -> _ =>
        let ta := eval vm_compute in (truthy (Some a)) in
        let tb := eval vm_compute in (truthy (Some b)) in
        change (truthy (Some a)) with ta; change (truthy (Some b)) with tb
    end;
    cbn [negb from_option id];
    repeat match goal with
           | |- context [JsString.eqb ?a ?b] =>
               let v := eval vm_compute in (JsString.eqb a b) in
               change (JsString.eqb a b) with v
           end;
    cbv iota;
    intros Ha Hb; exfalso; apply inList_cases in Ha;
    repeat (destruct Ha as [<-|Ha]; [vm_compute in Hb; discriminate|]);
    destruct Ha.
Qed.

Lemma type_buckets_disjoint_witness : js "audio" = js "audio".
Proof.
  apply (type_buckets_disjoint (js "audio") (js "audio") (js "OPUS")).
  - vm_compute. right. right. left. reflexivity.
  - vm_compute. right. right. left. reflexivity.
  - vm_compute. reflexivity.
  - vm_compute. reflexivity.
Defined.

Lemma day_of_calendar (day : Z) :
  day = dayFromYear (yearFromDay day)
        + monthStart (inLeapYear (yearFromDay day)) (monthFromDay day)
        + dateFromDay day - 1.
Proof. unfold dateFromDay, dayWithinYear. lia. Qed.

(** X17: two instants have the same date key exactly when they fall on
    the same day. *)
Theorem same_key_same_day (t1 t2 : Z) :
  getDateKey t1 = getDateKey t2 <-> t1 / msPerDay = t2 / msPerDay.
Proof.
  unfold getDateKey, getFullYear, getMonth, getDate. split.
  - intros [= Hy Hm Hd].
    rewrite (day_of_calendar (t1 / msPerDay)), (day_of_calendar (t2 / msPerDay)).
    assert (Hm' : monthFromDay (t1 / msPerDay) = monthFromDay (t2 / msPerDay)) by lia.
    rewrite Hy, Hm', Hd. reflexivity.
  - intros ->. reflexivity.
Qed.

End MediaNameProperties.

(** ** The correlator on every transcript and pool *)

Module CorrelationProperties.
Import WhatsAppParser Claims Properties TimestampFacts CorrelatorFacts.
Local Open Scope Z_scope.

#[local] Arguments js : simpl never.

(** With nothing in the indexes no message finds a file. *)
Lemma correlateAll_empty (userId : jsstring) (msgs : list Message) :
  correlateAll [] userId (mkMediaIndex ∅ ∅) msgs = (msgs, mkMediaIndex ∅ ∅).
Proof.
  induction msgs as [|m rest IH]; [reflexivity|].
  cbn [correlateAll].
  assert (E : correlateMessage [] userId (mkMediaIndex ∅ ∅) m = (m, mkMediaIndex ∅ ∅)).
  { unfold correlateMessage.
    destruct (negb (truthy (mediaType m)) || JsString.eqb (default [] (mediaType m)) (js "link"));
      [reflexivity|].
    assert (F : findMatch [] (mkMediaIndex ∅ ∅) m = None).
    { unfold findMatch, exactMatch, fuzzyMatch. cbn [mediaByFilename mediaByDate].
      rewrite !lookup_empty. destruct (truthy (mediaName m)); reflexivity. }
    rewrite F. reflexivity. }
  rewrite E, IH. reflexivity.
Qed.

(** X18: with no media file in the pool the correlator leaves every
    message as it is. *)
Theorem empty_pool_changes_nothing (msgs : list Message) (userId : jsstring) :
  mapMediaToMessages msgs [] userId = msgs.
Proof.
  unfold mapMediaToMessages.
  change (buildIndex []) with (mkMediaIndex ∅ ∅).
  rewrite correlateAll_empty. reflexivity.
Qed.

(** The correlator of [WhatsAppParser] is the one of [MediaCorrelator] at
    the case mapping of the model. *)
Lemma mapMediaToMessages_instance (msgs : list Message) (mediaFiles : list MediaFile)
    (userId : jsstring) :
  MediaCorrelator.mapMediaToMessages toLowerCase msgs mediaFiles userId =
  mapMediaToMessages msgs mediaFiles userId.
Proof. reflexivity. Qed.

Section AnyCaseMapping.
Variable lower : jsstring -> jsstring.
Variable mediaFiles : list MediaFile.
Variable userId : jsstring.

Lemma fold_indexOne_sound_any (entries : list (nat * MediaFile)) (idx : MediaIndex) :
  (forall ref media, In (ref, media) entries -> nth_error mediaFiles ref = Some media) ->
  MediaCorrelator.indexSound lower mediaFiles (mediaByFilename idx) ->
  MediaCorrelator.indexSound lower mediaFiles
    (mediaByFilename (fold_left (MediaCorrelator.indexOne lower) entries idx)).
Proof.
  revert idx. induction entries as [|[ref media] entries IH]; intros idx Hall Hs;
    cbn [fold_left]; [exact Hs|].
  apply IH; [intros r m' Hin; apply Hall; right; exact Hin|].
  intros k r. cbn [MediaCorrelator.indexOne mediaByFilename].
  destruct (decide (lower (filename media) = k)) as [<-|Hne].
  - rewrite lookup_insert_eq. intros [= <-]. exists media.
    split; [apply Hall; left; reflexivity|reflexivity].
  - rewrite lookup_insert_ne by exact Hne. apply Hs.
Qed.

Lemma buildIndex_sound_any :
  MediaCorrelator.indexSound lower mediaFiles
    (mediaByFilename (MediaCorrelator.buildIndex lower mediaFiles)).
Proof.
  unfold MediaCorrelator.buildIndex. apply fold_indexOne_sound_any.
  - intros ref media Hin. unfold withRefs in Hin.
    destruct (withRefs_nth _ _ _ _ Hin) as [Hn _]. rewrite Nat.sub_0_r in Hn. exact Hn.
  - intros k ref. cbn [mediaByFilename]. rewrite lookup_empty. discriminate.
Qed.

(** The index by day does not depend on the case mapping. *)
Lemma byDate_any (entries : list (nat * MediaFile)) (idx idx' : MediaIndex) :
  mediaByDate idx = mediaByDate idx' ->
  mediaByDate (fold_left (MediaCorrelator.indexOne lower) entries idx) =
  mediaByDate (fold_left indexOne entries idx').
Proof.
  revert idx idx'. induction entries as [|[ref media] entries IH]; intros idx idx' H;
    cbn [fold_left]; [exact H|].
  apply IH. cbn [MediaCorrelator.indexOne indexOne mediaByDate]. rewrite H. reflexivity.
Qed.

Lemma buildIndex_byDate_any :
  mediaByDate (MediaCorrelator.buildIndex lower mediaFiles) = mediaByDate (buildIndex mediaFiles).
Proof. apply byDate_any. reflexivity. Qed.

(** What the scored step keeps is one of the candidates, of a type that
    suits the message and less than 10,000,000 ms away from it. *)
Lemma scored_fold_any (byFilename : gmap jsstring nat) (m : Message) (cands0 : list nat)
    (P : nat -> Prop) :
  (forall ref media,
     In ref cands0 ->
     nth_error mediaFiles ref = Some media ->
     MediaCorrelator.mediaTypeMatches lower (mediaType m) (type media) = true ->
     Z.abs (mtimestamp media - timestamp m) < 10000000 -> P ref) ->
  forall cands acc,
    (forall x, In x cands -> In x cands0) ->
    0 <= fst acc -> (forall r, snd acc = Some r -> P r) ->
    forall r,
      snd (fold_left (MediaCorrelator.scoreCandidate lower mediaFiles byFilename m) cands acc)
      = Some r -> P r.
Proof.
  intros HP. induction cands as [|ref cands IH]; intros acc Hsub Hpos Hacc; cbn [fold_left];
    [exact Hacc|].
  assert (Hstep : 0 <= fst (MediaCorrelator.scoreCandidate lower mediaFiles byFilename m acc ref) /\
                  forall r, snd (MediaCorrelator.scoreCandidate lower mediaFiles byFilename m acc ref)
                            = Some r -> P r).
  { unfold MediaCorrelator.scoreCandidate.
    destruct (nth_error mediaFiles ref) as [media|] eqn:Hn; [|split; assumption].
    destruct (bool_decide (is_Some (byFilename !! lower (filename media))) &&
              negb (bool_decide (byFilename !! lower (filename media) = Some ref)));
      [split; assumption|].
    cbv zeta. unfold getTime.
    destruct (MediaCorrelator.mediaTypeMatches lower (mediaType m) (type media)) eqn:Hty;
      cbn [andb]; [|split; assumption].
    destruct (Z.abs (mtimestamp media - timestamp m) <? 24 * 60 * 60 * 1000);
      [|split; assumption].
    destruct (Z.ltb_spec (fst acc) (10000000 - Z.abs (mtimestamp media - timestamp m)))
      as [Hlt|_]; [|split; assumption].
    cbn [fst snd]. split; [lia|].
    intros r [= <-]. apply (HP ref media); [apply Hsub; left; reflexivity|exact Hn|exact Hty|lia]. }
  destruct Hstep as [Hpos' Hacc'].
  apply IH; [intros x Hx; apply Hsub; right; exact Hx|assumption|assumption].
Qed.

(** The file that one message is given suits it. *)
Lemma correlateMessage_suits (idx : MediaIndex) (m : Message) :
  MediaCorrelator.indexSound lower mediaFiles (mediaByFilename idx) ->
  mediaByDate idx = mediaByDate (buildIndex mediaFiles) ->
  mediaUrl (fst (MediaCorrelator.correlateMessage lower mediaFiles userId idx m)) <> mediaUrl m ->
  exists media,
    In media mediaFiles /\
    mediaUrl (fst (MediaCorrelator.correlateMessage lower mediaFiles userId idx m)) =
    Some (mediaUrlOf userId media) /\
    MediaCorrelator.suits lower media m.
Proof.
  intros Hs Hd. unfold MediaCorrelator.correlateMessage.
  destruct (negb (truthy (mediaType m)) || JsString.eqb (default [] (mediaType m)) (js "link"));
    [intros H; exfalso; apply H; reflexivity|].
  destruct (MediaCorrelator.findMatch lower mediaFiles idx m) as [ref|] eqn:Hf;
    [|intros H; exfalso; apply H; reflexivity].
  destruct (nth_error mediaFiles ref) as [bestMatch|] eqn:Hn;
    [|intros H; exfalso; apply H; reflexivity].
  intros _. exists bestMatch. split; [eapply nth_error_In; exact Hn|].
  split.
  { cbn [fst]. destruct (negb (truthy (mediaName (setMediaUrl _ m)))); reflexivity. }
  unfold MediaCorrelator.findMatch in Hf.
  destruct (MediaCorrelator.exactMatch lower (mediaByFilename idx) m) as [r|] eqn:He.
  - injection Hf as ->. unfold MediaCorrelator.exactMatch in He.
    destruct (truthy (mediaName m)) eqn:Ht; [|discriminate].
    destruct (Hs _ _ He) as (media & Hn' & Hk).
    rewrite Hn in Hn'. injection Hn' as <-.
    left. destruct (mediaName m) as [n|]; [|discriminate].
    exists n. split; [reflexivity|]. split; [intros ->; discriminate|].
    symmetry. exact Hk.
  - right. unfold MediaCorrelator.fuzzyMatch in Hf. cbv zeta in Hf.
    set (cands := default [] (mediaByDate idx !! getDateKey (timestamp m))) in Hf.
    assert (HP : In ref cands /\
                 exists media, nth_error mediaFiles ref = Some media /\
                   MediaCorrelator.mediaTypeMatches lower (mediaType m) (type media) = true /\
                   Z.abs (mtimestamp media - timestamp m) < 10000000).
    { apply (scored_fold_any (mediaByFilename idx) m cands
               (fun r => In r cands /\
                         exists media, nth_error mediaFiles r = Some media /\
                           MediaCorrelator.mediaTypeMatches lower (mediaType m) (type media) = true /\
                           Z.abs (mtimestamp media - timestamp m) < 10000000))
        with (cands := cands) (acc := (0, @None nat)).
      - intros r media Hin Hr Hty Hgap. split; [exact Hin|]. exists media. auto.
      - intros x Hx. exact Hx.
      - cbn [fst]. lia.
      - cbn [snd]. discriminate.
      - exact Hf. }
    destruct HP as (Hin & media & Hn' & Hty & Hgap).
    rewrite Hn in Hn'. injection Hn' as <-.
    unfold cands in Hin. rewrite Hd in Hin.
    apply candidates_of_day in Hin. destruct Hin as (media & Hn' & Hday).
    rewrite Hn in Hn'. injection Hn' as <-.
    split; [exact Hday|]. split; [exact Hty|exact Hgap].
Qed.

(** A message leaves the filename index sound and the index by day as it
    was. *)
Lemma correlateMessage_keeps (idx : MediaIndex) (m : Message) :
  MediaCorrelator.indexSound lower mediaFiles (mediaByFilename idx) ->
  MediaCorrelator.indexSound lower mediaFiles
    (mediaByFilename (snd (MediaCorrelator.correlateMessage lower mediaFiles userId idx m))) /\
  mediaByDate (snd (MediaCorrelator.correlateMessage lower mediaFiles userId idx m)) =
  mediaByDate idx.
Proof.
  intros Hs. unfold MediaCorrelator.correlateMessage.
  destruct (negb (truthy (mediaType m)) || JsString.eqb (default [] (mediaType m)) (js "link"));
    [split; [exact Hs|reflexivity]|].
  destruct (MediaCorrelator.findMatch lower mediaFiles idx m) as [ref|];
    [|split; [exact Hs|reflexivity]].
  destruct (nth_error mediaFiles ref) as [bestMatch|]; [|split; [exact Hs|reflexivity]].
  cbn [snd mediaByFilename mediaByDate]. split; [|reflexivity].
  intros k r Hk.
  destruct (decide (lower (filename bestMatch) = k)) as [<-|Hne].
  - rewrite lookup_delete_eq in Hk. discriminate.
  - rewrite lookup_delete_ne in Hk by exact Hne. apply Hs. exact Hk.
Qed.

Lemma correlateAll_suits (msgs : list Message) :
  forall idx,
    MediaCorrelator.indexSound lower mediaFiles (mediaByFilename idx) ->
    mediaByDate idx = mediaByDate (buildIndex mediaFiles) ->
    Forall2 (fun before after =>
               mediaUrl after <> mediaUrl before ->
               exists media,
                 In media mediaFiles /\
                 mediaUrl after = Some (mediaUrlOf userId media) /\
                 MediaCorrelator.suits lower media before)
      msgs (fst (MediaCorrelator.correlateAll lower mediaFiles userId idx msgs)).
Proof.
  induction msgs as [|m rest IH]; intros idx Hs Hd; cbn [MediaCorrelator.correlateAll];
    [constructor|].
  pose proof (correlateMessage_suits idx m Hs Hd) as Hm.
  destruct (correlateMessage_keeps idx m Hs) as (Hs' & Hd').
  destruct (MediaCorrelator.correlateMessage lower mediaFiles userId idx m) as [m' idx'].
  cbn [fst snd] in *.
  specialize (IH idx' Hs' ltac:(congruence)).
  destruct (MediaCorrelator.correlateAll lower mediaFiles userId idx' rest) as [rest' idx''].
  cbn [fst] in *.
  constructor; assumption.
Qed.

Lemma filename_fold_skip (entries : list (nat * MediaFile)) (k : jsstring) :
  (forall r g, In (r, g) entries -> lower (filename g) <> k) ->
  forall idx,
    mediaByFilename (fold_left (MediaCorrelator.indexOne lower) entries idx) !! k =
    mediaByFilename idx !! k.
Proof.
  induction entries as [|[r g] entries IH]; intros Hall idx; [reflexivity|].
  cbn [fold_left]. rewrite IH by (intros r' g' Hin; apply (Hall r' g'); right; exact Hin).
  cbn [MediaCorrelator.indexOne mediaByFilename]. apply lookup_insert_ne.
  apply (Hall r g). left. reflexivity.
Qed.

Lemma correlateMessage_skip (idx : MediaIndex) (m : Message) :
  isMedia m = false -> MediaCorrelator.correlateMessage lower mediaFiles userId idx m = (m, idx).
Proof.
  unfold isMedia, MediaCorrelator.correlateMessage. intros H.
  destruct (truthy (mediaType m)); cbn [negb orb andb] in *; [|reflexivity].
  apply negb_false_iff in H. rewrite H. reflexivity.
Qed.

Lemma correlateAll_skip (idx : MediaIndex) (before tail : list Message) :
  Forall (fun x => isMedia x = false) before ->
  fst (MediaCorrelator.correlateAll lower mediaFiles userId idx (before ++ tail)) =
  before ++ fst (MediaCorrelator.correlateAll lower mediaFiles userId idx tail).
Proof.
  induction 1 as [|x before Hx _ IH]; [reflexivity|].
  cbn [app MediaCorrelator.correlateAll]. rewrite (correlateMessage_skip _ _ Hx).
  destruct (MediaCorrelator.correlateAll lower mediaFiles userId idx (before ++ tail)) as [r i].
  cbn [fst] in *. rewrite IH. reflexivity.
Qed.

End AnyCaseMapping.

Lemma withRefs_app (l1 l2 : list MediaFile) (start : nat) :
  combine (seq start (length (l1 ++ l2))) (l1 ++ l2) =
  combine (seq start (length l1)) l1 ++ combine (seq (start + length l1) (length l2)) l2.
Proof.
  revert start. induction l1 as [|x l1 IH]; intros start; cbn [app length seq combine].
  - rewrite Nat.add_0_r. reflexivity.
  - rewrite IH. replace (S start + length l1)%nat with (start + S (length l1))%nat by lia.
    reflexivity.
Qed.

(** The filename index holds, under a name, the last file of the pool
    with that name. *)
Lemma buildIndex_last (lower : jsstring -> jsstring) (pre post : list MediaFile)
    (f : MediaFile) (k : jsstring) :
  lower (filename f) = k ->
  (forall g, In g post -> lower (filename g) <> k) ->
  mediaByFilename (MediaCorrelator.buildIndex lower (pre ++ f :: post)) !! k = Some (length pre).
Proof.
  intros Hk Hpost. unfold MediaCorrelator.buildIndex, withRefs.
  rewrite withRefs_app, fold_left_app. cbn [length seq combine fold_left].
  rewrite filename_fold_skip.
  - cbn [MediaCorrelator.indexOne mediaByFilename]. rewrite Hk, lookup_insert_eq. reflexivity.
  - intros r g Hin. apply Hpost. apply in_combine_r in Hin. exact Hin.
Qed.

(** X19: whatever function maps the case of the letters (the code calls
    [toLowerCase]), every address that the correlator puts on a message is
    that of a file of the pool that suits the message: the name of the file
    and the media name of the message have the same image under the case
    mapping, or it is a file of the same day whose type suits the kind of
    the message and that is less than 10,000,000 ms away from it. *)
Theorem assigned_file_suits (lower : jsstring -> jsstring) (msgs : list Message)
    (mediaFiles : list MediaFile) (userId : jsstring) :
  Forall2 (fun before after =>
             mediaUrl after <> mediaUrl before ->
             exists media,
               In media mediaFiles /\
               mediaUrl after = Some (mediaUrlOf userId media) /\
               MediaCorrelator.suits lower media before)
    msgs (MediaCorrelator.mapMediaToMessages lower msgs mediaFiles userId).
Proof.
  unfold MediaCorrelator.mapMediaToMessages. apply correlateAll_suits.
  - apply buildIndex_sound_any.
  - apply buildIndex_byDate_any.
Qed.

(** X20: whatever function maps the case of the letters (the code calls
    [toLowerCase]), the first media message of a transcript that names a
    file of the pool is given that file when the two names have the same
    image under the case mapping, whatever the dates; of several files with
    such a name, the last of the pool. *)
Theorem named_file_assigned (lower : jsstring -> jsstring) (before rest : list Message)
    (m : Message) (pre post : list MediaFile) (f : MediaFile) (n userId : jsstring) :
  Forall (fun x => isMedia x = false) before ->
  isMedia m = true -> mediaName m = Some n -> n <> [] ->
  lower (filename f) = lower n ->
  (forall g, In g post -> lower (filename g) <> lower n) ->
  nth_error (MediaCorrelator.mapMediaToMessages lower (before ++ m :: rest) (pre ++ f :: post)
               userId)
    (length before) =
  Some (setMediaUrl (Some (mediaUrlOf userId f)) m).
Proof.
  intros Hbefore Hmedia Hname Hn Hf Hpost. unfold MediaCorrelator.mapMediaToMessages.
  rewrite (correlateAll_skip _ _ _ _ _ _ Hbefore).
  rewrite nth_error_app2, Nat.sub_diag by lia.
  cbn [MediaCorrelator.correlateAll].
  assert (E : fst (MediaCorrelator.correlateMessage lower (pre ++ f :: post) userId
                     (MediaCorrelator.buildIndex lower (pre ++ f :: post)) m) =
              setMediaUrl (Some (mediaUrlOf userId f)) m).
  { unfold MediaCorrelator.correlateMessage. unfold isMedia in Hmedia.
    apply andb_true_iff in Hmedia. destruct Hmedia as [Ht Hl].
    apply negb_true_iff in Hl. rewrite Ht, Hl. cbn [negb orb].
    assert (Htr : truthy (mediaName m) = true).
    { rewrite Hname. destruct n; [congruence|reflexivity]. }
    unfold MediaCorrelator.findMatch, MediaCorrelator.exactMatch.
    rewrite Htr, Hname. cbn [from_option id]. unfold id.
    rewrite (buildIndex_last lower pre post f (lower n) Hf Hpost).
    rewrite nth_error_app2, Nat.sub_diag by lia. cbn [nth_error fst].
    change (mediaName (setMediaUrl (Some (mediaUrlOf userId f)) m)) with (mediaName m).
    rewrite Htr. reflexivity. }
  destruct (MediaCorrelator.correlateMessage lower (pre ++ f :: post) userId
              (MediaCorrelator.buildIndex lower (pre ++ f :: post)) m) as [m' idx'].
  destruct (MediaCorrelator.correlateAll lower (pre ++ f :: post) userId idx' rest) as [r i].
  cbn [fst nth_error] in *. rewrite E. reflexivity.
Qed.

Lemma named_file_assigned_witness :
  let m := mkMessage (Some (js "img-20231205-wa0001.JPG (file attached)")) (Some (js "John"))
             false 1701781200000 false (Some (js "image")) None
             (Some (js "img-20231205-wa0001.JPG")) in
  let f := mkMediaFile (js "IMG-20231205-WA0001.jpg") 0 (js "jpg") in
  nth_error (MediaCorrelator.mapMediaToMessages toLowerCase ([] ++ m :: []) ([] ++ f :: [])
               (js "u")) (length (@nil Message)) =
  Some (setMediaUrl (Some (mediaUrlOf (js "u") f)) m).
Proof.
  intros m f.
  apply (named_file_assigned toLowerCase [] [] m [] [] f (js "img-20231205-wa0001.JPG") (js "u")).
  - constructor.
  - vm_compute. reflexivity.
  - reflexivity.
  - vm_compute. discriminate.
  - vm_compute. reflexivity.
  - intros g H. destruct H.
Defined.

End CorrelationProperties.

(** ** The archive pipeline on every archive *)

Module PipelineProperties.
Import WhatsAppParser StreamingZipProcessor Claims Properties Jobs PipelineFacts
  ParserProperties CorrelationProperties.

#[local] Arguments js : simpl never.
#[local] Arguments parseMediaFilename : simpl never.
#[local] Arguments chatNameOf : simpl never.
#[local] Arguments destPathOf : simpl never.
#[local] Arguments endsWith : simpl never.
#[local] Arguments startsWith : simpl never.

(** One entry that passes. *)
Lemma onEntry_passes (o : ProcessingOptions) (e : Entry) (p : Processor) (acc : Extracted) :
  passes e = true ->
  onEntry o e p acc =
  (mkProcessor (written o [e] (disk p)) (extractedMediaPaths p ++ pathsOf o [e])
     (status p) (stored p),
   inr (mkExtracted (chatFiles acc ++ transcriptsOf [e]) (mediaFiles acc ++ poolOf o [e]))).
Proof.
  destruct p as [dk led st sto], acc as [cf mf].
  unfold passes, onEntry, written, pathsOf, transcriptsOf, poolOf, isTranscript, isMediaEntry,
    skipped.
  intros H. cbn [List.filter disk extractedMediaPaths status stored chatFiles mediaFiles].
  destruct (endsWith (js "/") (fileName e) || startsWith (js "__MACOSX") (fileName e)).
  - cbn [negb andb map fold_left]. rewrite !app_nil_r. reflexivity.
  - cbn [orb negb andb] in *. destruct (outcome e) as [| |data] eqn:Ho; try discriminate.
    destruct (endsWith (js ".txt") (fileName e)); cbn [negb map fold_left].
    + rewrite !app_nil_r. unfold dataOf. rewrite Ho. reflexivity.
    + rewrite !app_nil_r. unfold descriptorOf.
      destruct (parseMediaFilename (now o) (basename (fileName e))) as [t ext].
      reflexivity.
Qed.

Lemma filter_cons_app {A} (f : A -> bool) (x : A) (l : list A) :
  List.filter f (x :: l) = List.filter f [x] ++ List.filter f l.
Proof. cbn [List.filter]. destruct (f x); reflexivity. Qed.

(** The entries that pass, read one after the other. *)
Lemma readEntries_pass (o : ProcessingOptions) (entries : list Entry) :
  forall p acc,
    forallb passes entries = true ->
    readEntries o entries p acc =
    (mkProcessor (written o entries (disk p)) (extractedMediaPaths p ++ pathsOf o entries)
       (status p) (stored p),
     inr (mkExtracted (chatFiles acc ++ transcriptsOf entries)
            (mediaFiles acc ++ poolOf o entries))).
Proof.
  induction entries as [|e entries IH]; intros p acc H.
  - destruct p, acc. cbn. rewrite !app_nil_r. reflexivity.
  - cbn [forallb] in H. apply andb_true_iff in H. destruct H as [He H].
    cbn [readEntries]. rewrite (onEntry_passes o e p acc He), (IH _ _ H).
    cbn [disk extractedMediaPaths status stored chatFiles mediaFiles].
    unfold written, pathsOf, transcriptsOf, poolOf.
    rewrite (filter_cons_app isMediaEntry e entries), (filter_cons_app isTranscript e entries).
    rewrite !map_app, fold_left_app, <- !app_assoc. reflexivity.
Qed.

(** An entry that does not pass ends the reading. *)
Lemma onEntry_fails (o : ProcessingOptions) (e : Entry) (p : Processor) (acc : Extracted) :
  passes e = false ->
  exists dk, onEntry o e p acc = (setDisk dk p, inl tt).
Proof.
  unfold passes, onEntry, skipped. intros H.
  destruct (endsWith (js "/") (fileName e) || startsWith (js "__MACOSX") (fileName e));
    [discriminate|].
  cbn [orb] in H.
  destruct (outcome e); try discriminate;
    destruct (endsWith (js ".txt") (fileName e));
    try (exists (disk p); destruct p; reflexivity); eauto.
Qed.

Lemma readEntries_fail (o : ProcessingOptions) (pre post : list Entry) (e : Entry)
    (p : Processor) (acc : Extracted) :
  forallb passes pre = true -> passes e = false ->
  exists dk,
    readEntries o (pre ++ e :: post) p acc =
    (mkProcessor dk (extractedMediaPaths p ++ pathsOf o pre) (status p) (stored p), inl tt).
Proof.
  intros Hpre He.
  assert (Happ : forall xs ys p0 acc0,
            forallb passes xs = true ->
            readEntries o (xs ++ ys) p0 acc0 =
            readEntries o ys
              (mkProcessor (written o xs (disk p0)) (extractedMediaPaths p0 ++ pathsOf o xs)
                 (status p0) (stored p0))
              (mkExtracted (chatFiles acc0 ++ transcriptsOf xs)
                 (mediaFiles acc0 ++ poolOf o xs))).
  { induction xs as [|x xs IH]; intros ys p0 acc0 H.
    - destruct p0, acc0. cbn. rewrite !app_nil_r. reflexivity.
    - cbn [forallb] in H. apply andb_true_iff in H. destruct H as [Hx H].
      cbn [app readEntries]. rewrite (onEntry_passes o x p0 acc0 Hx), (IH _ _ _ H).
      cbn [disk extractedMediaPaths status stored chatFiles mediaFiles].
      unfold written, pathsOf, transcriptsOf, poolOf.
      rewrite (filter_cons_app isMediaEntry x xs), (filter_cons_app isTranscript x xs).
      rewrite !map_app, fold_left_app, <- !app_assoc. reflexivity. }
  rewrite (Happ pre (e :: post) p acc Hpre). cbn [readEntries].
  destruct (onEntry_fails o e
              (mkProcessor (written o pre (disk p)) (extractedMediaPaths p ++ pathsOf o pre)
                 (status p) (stored p))
              (mkExtracted (chatFiles acc ++ transcriptsOf pre) (mediaFiles acc ++ poolOf o pre))
              He) as [dk ->].
  exists dk. reflexivity.
Qed.

(** The entries all pass, or there is a first one that does not. *)
Lemma first_failure (entries : list Entry) :
  forallb passes entries = true \/
  exists pre e post,
    entries = pre ++ e :: post /\ forallb passes pre = true /\ passes e = false.
Proof.
  induction entries as [|x entries IH]; [left; reflexivity|].
  destruct (passes x) eqn:Hx.
  - destruct IH as [IH|(pre & e & post & -> & Hpre & He)].
    + left. cbn [forallb]. rewrite Hx, IH. reflexivity.
    + right. exists (x :: pre), e, post. cbn [forallb app]. rewrite Hx, Hpre. auto.
  - right. exists [], x, entries. auto.
Qed.


Lemma written_whole (o : ProcessingOptions) (entries : list Entry) (dk : Disk) (path : jsstring) :
  In path (pathsOf o entries) -> written o entries dk !! path = Some Whole.
Proof.
  unfold written, Disk in *. generalize (pathsOf o entries) as paths. intros paths. revert dk.
  induction paths as [|x paths IH]; intros dk H; [destruct H|].
  cbn [fold_left]. destruct (decide (path ∈ paths)) as [Hin|Hout];
    [apply list_elem_of_In in Hin|rewrite list_elem_of_In in Hout].
  - apply IH, Hin.
  - destruct H as [->|H]; [|contradiction].
    clear IH. revert dk. induction paths as [|y paths IH]; intros dk; cbn [fold_left].
    + apply lookup_insert_eq.
    + assert (Hy : y <> path) by (intros ->; apply Hout; left; reflexivity).
      assert (Hrest : ~ In path paths) by (intros Hr; apply Hout; right; exact Hr).
      rewrite insert_insert_ne by exact Hy.
      apply IH, Hrest.
Qed.

Lemma status_fail (o : ProcessingOptions) (p : Processor) : status (fail o p) = Failed.
Proof. reflexivity. Qed.

(** The job on an archive whose entries all pass. *)
Lemma process_pass (o : ProcessingOptions) (p : Processor) (entries : list Entry) :
  archive o = Some entries -> forallb passes entries = true ->
  let p1 := mkProcessor (written o entries (disk p))
              (extractedMediaPaths p ++ pathsOf o entries) (status p) (stored p) in
  process o p =
  if storageAccepts o then
    match unlink (filePath o) (disk p1) with
    | Some dk =>
        mkProcessor dk (extractedMediaPaths p1) Completed
          (mapMediaToChats o (parseChats o (transcriptsOf entries)) (poolOf o entries))
    | None =>
        fail o (mkProcessor (disk p1) (extractedMediaPaths p1) (status p1)
                  (mapMediaToChats o (parseChats o (transcriptsOf entries)) (poolOf o entries)))
    end
  else fail o p1.
Proof.
  intros Ha Hall p1. unfold process, extractZipStreaming. rewrite Ha.
  rewrite (readEntries_pass o entries p (mkExtracted [] []) Hall).
  cbn [chatFiles mediaFiles app]. fold p1.
  destruct (storageAccepts o); reflexivity.
Qed.

(** The job on an archive with an entry that does not pass. *)
Lemma process_fail (o : ProcessingOptions) (p : Processor) (pre post : list Entry) (e : Entry) :
  archive o = Some (pre ++ e :: post) -> forallb passes pre = true -> passes e = false ->
  exists dk,
    process o p =
    fail o (mkProcessor dk (extractedMediaPaths p ++ pathsOf o pre) (status p) (stored p)).
Proof.
  intros Ha Hpre He. unfold process, extractZipStreaming. rewrite Ha.
  destruct (readEntries_fail o pre post e p (mkExtracted [] []) Hpre He) as [dk ->].
  exists dk. reflexivity.
Qed.



(** What a job that ended as completed went through. *)
Lemma completed_cases (o : ProcessingOptions) (p : Processor) :
  status (process o p) = Completed ->
  exists entries dk,
    archive o = Some entries /\ forallb passes entries = true /\
    unlink (filePath o) (written o entries (disk p)) = Some dk /\
    process o p =
    mkProcessor dk (extractedMediaPaths p ++ pathsOf o entries) Completed
      (mapMediaToChats o (parseChats o (transcriptsOf entries)) (poolOf o entries)).
Proof.
  intros Hdone.
  destruct (archive o) as [entries|] eqn:Ha.
  2:{ assert (E : process o p = fail o p).
      { unfold process, extractZipStreaming. rewrite Ha. reflexivity. }
      rewrite E, status_fail in Hdone. discriminate. }
  destruct (first_failure entries) as [Hall|(pre & e & post & -> & Hpre & He)].
  - rewrite (process_pass o p entries Ha Hall) in *. cbv zeta in *.
    cbn [disk extractedMediaPaths status stored] in *.
    destruct (storageAccepts o); [|rewrite status_fail in Hdone; discriminate].
    destruct (unlink (filePath o) (written o entries (disk p))) as [dk|] eqn:Hun;
      [|rewrite status_fail in Hdone; discriminate].
    exists entries, dk. split; [reflexivity|]. split; [exact Hall|]. split; [exact Hun|reflexivity].
  - destruct (process_fail o p pre post e Ha Hpre He) as [dk E].
    rewrite E, status_fail in Hdone. discriminate.
Qed.



(** X23: after a job recorded as completed, the destination path of every
    media entry of the archive, which is the media folder of the user
    joined with the last part of the entry's name, holds a fully written
    file (unless that is the path of the archive itself).  Entries whose
    names have the same last part have the same destination path, and the
    later one overwrites the earlier: the statement is about the path, not
    about whose data the file holds. *)
Theorem completed_job_keeps_media (o : ProcessingOptions) (p : Processor)
    (entries : list Entry) (e : Entry) :
  status (process o p) = Completed -> archive o = Some entries ->
  In e entries -> isMediaEntry e = true ->
  destPathOf o (fileName e) <> filePath o ->
  disk (process o p) !! destPathOf o (fileName e) = Some Whole.
Proof.
  intros Hdone Ha Hin Hmedia Hne.
  destruct (completed_cases o p Hdone) as (entries' & dk & Ha' & _ & Hun & ->).
  rewrite Ha in Ha'. injection Ha' as <-. cbn [disk].
  unfold unlink in Hun.
  match type of Hun with
  | match ?x with Some _ => _ | None => _ end = _ => destruct x; [|discriminate]
  end.
  injection Hun as <-. unfold Disk in *.
  rewrite lookup_delete_ne by (intros E; apply Hne; symmetry; exact E).
  apply written_whole. unfold pathsOf.
  apply in_map_iff. exists e. split; [reflexivity|].
  apply filter_In. auto.
Qed.

Lemma completed_job_keeps_media_witness :
  let chat := mkEntry (js "Chat_with_Bob.txt") (Completes (js "1/1/23, 10:00 - Bob: hi")) in
  let picture := mkEntry (js "WhatsApp/IMG-20230101-WA0001.jpg") (Completes []) in
  let o := mkOptions (js "uploads/x.zip") (js "u") 0 (Some [chat; picture]) true in
  let p := newProcessor o {[ js "uploads/x.zip" := Whole ]} in
  disk (process o p) !! destPathOf o (fileName picture) = Some Whole.
Proof.
  intros chat picture o p.
  apply (completed_job_keeps_media o p [chat; picture] picture).
  - vm_compute. reflexivity.
  - reflexivity.
  - right. left. reflexivity.
  - vm_compute. reflexivity.
  - vm_compute. discriminate.
Defined.

(** X24: a job that ends as failed leaves neither the archive file nor
    any file of its ledger on disk. *)
Theorem failed_job_cleanup (o : ProcessingOptions) (p : Processor) (path : jsstring) :
  status (process o p) = Failed ->
  path = filePath o \/ In path (extractedMediaPaths (process o p)) ->
  disk (process o p) !! path = None.
Proof.
  intros Hfailed Hpath.
  assert (Hf : exists p', process o p = fail o p').
  { unfold process in *.
    destruct (extractZipStreaming o p) as [p1 [err|ex]]; [eauto|].
    destruct (storageAccepts o); [|eauto].
    destruct (unlink (filePath o) _); [|eauto].
    cbn [status] in Hfailed. discriminate. }
  destruct Hf as [p' E]. rewrite E in *. unfold fail in *.
  apply cleanupOnFailure_removes_ledger. exact Hpath.
Qed.

Lemma failed_job_cleanup_witness :
  let o := mkOptions (js "uploads/x.zip") (js "u") 0
             (Some [mkEntry (js "IMG-20230101-WA0001.jpg") (Completes []);
                    mkEntry (js "Chat_with_Bob.txt") StreamFails]) true in
  let p := newProcessor o {[ js "uploads/x.zip" := Whole ]} in
  disk (process o p) !! js "uploads/media/u/IMG-20230101-WA0001.jpg" = None.
Proof.
  intros o p. apply (failed_job_cleanup o p).
  - vm_compute. reflexivity.
  - right. vm_compute. left. reflexivity.
Defined.

Lemma onEntry_skipped (o : ProcessingOptions) (e : Entry) (p : Processor) (acc : Extracted) :
  skipped e = true -> onEntry o e p acc = (p, inr acc).
Proof. unfold skipped, onEntry. intros ->. reflexivity. Qed.

Lemma readEntries_skipped (o : ProcessingOptions) (entries : list Entry) :
  forall p acc,
    readEntries o (List.filter (fun e => negb (skipped e)) entries) p acc =
    readEntries o entries p acc.
Proof.
  induction entries as [|e entries IH]; intros p acc; [reflexivity|].
  cbn [List.filter]. destruct (skipped e) eqn:Hs; cbn [negb].
  - cbn [readEntries]. rewrite (onEntry_skipped o e p acc Hs). apply IH.
  - cbn [readEntries]. destruct (onEntry o e p acc) as [p' [err|acc']]; [reflexivity|apply IH].
Qed.

Lemma onEntry_archive (o : ProcessingOptions) (a : option (list Entry)) (e : Entry)
    (p : Processor) (acc : Extracted) :
  onEntry (withArchive o a) e p acc = onEntry o e p acc.
Proof. reflexivity. Qed.

Lemma readEntries_archive (o : ProcessingOptions) (a : option (list Entry))
    (entries : list Entry) :
  forall p acc, readEntries (withArchive o a) entries p acc = readEntries o entries p acc.
Proof.
  induction entries as [|e entries IH]; intros p acc; [reflexivity|].
  cbn [readEntries]. rewrite onEntry_archive.
  destruct (onEntry o e p acc) as [p' [err|acc']]; [reflexivity|apply IH].
Qed.

(** The job as a function of what the reading of the entries gives. *)
Lemma process_reading (o o' : ProcessingOptions) (p : Processor) :
  filePath o' = filePath o -> userId o' = userId o -> now o' = now o ->
  storageAccepts o' = storageAccepts o ->
  extractZipStreaming o' p = extractZipStreaming o p ->
  process o' p = process o p.
Proof.
  intros Hf Hu Hn Hs He. unfold process. rewrite He.
  destruct (extractZipStreaming o p) as [p1 [err|ex]].
  - unfold fail, cleanupOnFailure. rewrite Hf. reflexivity.
  - unfold parseChats, mapMediaToChats, fail, cleanupOnFailure. rewrite Hf, Hu, Hn, Hs.
    reflexivity.
Qed.

(** X25: directory entries and the entries of the [__MACOSX] folder play
    no part: the job on an archive is the job on the archive without
    them. *)
Theorem skipped_entries_ignored (o : ProcessingOptions) (p : Processor) :
  process (withArchive o (option_map (List.filter (fun e => negb (skipped e))) (archive o))) p =
  process o p.
Proof.
  apply process_reading; try reflexivity.
  unfold extractZipStreaming. cbn [withArchive archive].
  destruct (archive o) as [entries|]; [|reflexivity]. cbn [option_map].
  rewrite readEntries_archive. apply readEntries_skipped.
Qed.

(** X26: the reading stops at the first entry that does not arrive
    whole: the job ends as failed, its ledger holds the media entries
    before that entry and no other, and the entries after it play no
    part. *)
Theorem reading_stops_at_failure (o : ProcessingOptions) (p : Processor)
    (pre post : list Entry) (e : Entry) :
  archive o = Some (pre ++ e :: post) ->
  forallb passes pre = true -> passes e = false ->
  status (process o p) = Failed /\
  extractedMediaPaths (process o p) = extractedMediaPaths p ++ pathsOf o pre /\
  stored (process o p) = stored p /\
  process o p = process (withArchive o (Some (pre ++ [e]))) p.
Proof.
  intros Ha Hpre He.
  assert (Hsame : extractZipStreaming (withArchive o (Some (pre ++ [e]))) p =
                  extractZipStreaming o p).
  { unfold extractZipStreaming. cbn [withArchive archive]. rewrite Ha, readEntries_archive.
    assert (Hcut : forall xs p0 acc0,
              readEntries o (xs ++ [e]) p0 acc0 = readEntries o (xs ++ e :: post) p0 acc0).
    { induction xs as [|x xs IH]; intros p0 acc0; cbn [app readEntries].
      - destruct (onEntry_fails o e p0 acc0 He) as [dk ->]. reflexivity.
      - destruct (onEntry o x p0 acc0) as [p' [err|acc']]; [reflexivity|apply IH]. }
    apply Hcut. }
  destruct (process_fail o p pre post e Ha Hpre He) as [dk E].
  split; [rewrite E; reflexivity|]. split; [rewrite E; reflexivity|].
  split; [rewrite E; reflexivity|].
  symmetry. apply process_reading; try reflexivity. exact Hsame.
Qed.

Lemma reading_stops_at_failure_witness :
  let picture := mkEntry (js "IMG-20230101-WA0001.jpg") (Completes []) in
  let chat := mkEntry (js "Chat_with_Bob.txt") StreamFails in
  let video := mkEntry (js "VID-20230101-WA0002.mp4") (Completes []) in
  let o := mkOptions (js "uploads/x.zip") (js "u") 0 (Some ([picture] ++ chat :: [video])) true in
  let p := newProcessor o {[ js "uploads/x.zip" := Whole ]} in
  status (process o p) = Failed /\
  extractedMediaPaths (process o p) = extractedMediaPaths p ++ pathsOf o [picture] /\
  stored (process o p) = stored p /\
  process o p = process (withArchive o (Some ([picture] ++ [chat]))) p.
Proof.
  intros picture chat video o p.
  apply (reading_stops_at_failure o p [picture] [video] chat).
  - reflexivity.
  - vm_compute. reflexivity.
  - vm_compute. reflexivity.
Defined.

Lemma split_pieces (sep : N) (s : jsstring) :
  forall piece, In piece (split sep s) -> ~ In sep piece.
Proof.
  induction s as [|c r IH]; intros piece Hin; cbn [split] in Hin.
  - destruct Hin as [<-|[]]. intros [].
  - destruct (N.eqb_spec c sep) as [->|Hc].
    + destruct Hin as [<-|Hin]; [intros []|apply IH, Hin].
    + destruct (split sep r) as [|q qs] eqn:E.
      * destruct Hin as [<-|[]]. intros [H|[]]. congruence.
      * destruct Hin as [<-|Hin].
        -- intros [H|H]; [congruence|]. apply (IH q); [left; reflexivity|exact H].
        -- apply IH. right. exact Hin.
Qed.

Lemma basename_no_slash (fileName : jsstring) : ~ In 47%N (basename fileName).
Proof.
  unfold basename. destruct (last (split 47 fileName)) as [piece|] eqn:E; [|intros []].
  cbn [from_option id]. unfold id. apply (split_pieces 47 fileName).
  apply list_elem_of_In. apply last_Some_elem_of. exact E.
Qed.

(** X27: the display name of a transcript entry, the entry named [.txt]
    included (its display name is empty), has no white space at its ends
    and holds no underscore, no slash and no direction mark. *)
Theorem chat_name_clean (fileName : jsstring) :
  trim (chatNameOf fileName) = chatNameOf fileName /\
  (forall c, In c (chatNameOf fileName) ->
             c <> 95%N /\ c <> 47%N /\ isDirectionMark c = false) /\
  chatNameOf (js ".txt") = [].
Proof.
  split; [|split; [|vm_compute; reflexivity]];
    unfold chatNameOf, normalizeText; [apply StringFacts.trim_idem|].
  intros c Hc. apply StringFacts.trim_In, filter_In in Hc. destruct Hc as [Hc Hm].
  apply negb_true_iff in Hm. split; [|split; [|exact Hm]].
  - apply in_map_iff in Hc. destruct Hc as (c0 & E & _).
    destruct (N.eqb_spec c0 95); subst; [discriminate|assumption].
  - apply in_map_iff in Hc. destruct Hc as (c0 & E & Hc0).
    destruct (N.eqb_spec c0 95) as [_|_]; [subst; discriminate|]. subst c0.
    intros ->. unfold basenameWithout in Hc0.
    destruct (JsString.eqb fileName (js ".txt")); [destruct Hc0|].
    apply (basename_no_slash fileName).
    unfold stripSuffix in Hc0.
    destruct (endsWith (js ".txt") (basename fileName) &&
              negb (JsString.eqb (basename fileName) (js ".txt"))); [|exact Hc0].
    rewrite <- (firstn_skipn (length (basename fileName) - length (js ".txt"))
                  (basename fileName)).
    apply in_or_app. left. exact Hc0.
Qed.

Lemma Forall2_In_r {A B} (R : A -> B -> Prop) (l : list A) (l' : list B) (y : B) :
  Forall2 R l l' -> In y l' -> exists x, In x l /\ R x y.
Proof.
  induction 1 as [|x y' l l' Hxy _ IH]; intros Hin; [destruct Hin|].
  destruct Hin as [->|Hin]; [exists x; split; [left; reflexivity|exact Hxy]|].
  destruct (IH Hin) as (x' & Hx' & HR). exists x'. split; [right; exact Hx'|exact HR].
Qed.

(** X28: every address on a message that a completed job stored is either
    an http or https address taken from the content of the message, or the
    address [/media/<user>/<name>] of a media entry of the archive, whose
    file is on disk, whole, in the media folder of the user. *)
Theorem stored_addresses_resolve (o : ProcessingOptions) (p : Processor)
    (chat : ParsedChat) (msg : Message) (url : jsstring) :
  status (process o p) = Completed ->
  In chat (stored (process o p)) -> In msg (messages chat) -> mediaUrl msg = Some url ->
  httpUrl url \/
  exists entries e,
    archive o = Some entries /\ In e entries /\ isMediaEntry e = true /\
    url = js "/media/" ++ userId o ++ js "/" ++ basename (fileName e) /\
    (destPathOf o (fileName e) <> filePath o ->
     disk (process o p) !! destPathOf o (fileName e) = Some Whole).
Proof.
  intros Hdone Hchat Hmsg Hurl.
  destruct (completed_cases o p Hdone) as (entries & dk & Ha & _ & Hun & E).
  rewrite E in *. cbn [stored disk] in *.
  unfold mapMediaToChats, parseChats, transcriptsOf in Hchat. rewrite !map_map in Hchat.
  apply in_map_iff in Hchat. destruct Hchat as (t & <- & _). cbn [messages] in Hmsg.
  pose proof (correlateAll_suits toLowerCase (poolOf o entries) (userId o)
                (messages (parseExport (now o) (dataOf t) (chatNameOf (fileName t))))
                (buildIndex (poolOf o entries))
                (buildIndex_sound_any toLowerCase (poolOf o entries)) eq_refl) as HS.
  change (MediaCorrelator.correlateAll toLowerCase) with correlateAll in HS.
  destruct (Forall2_In_r _ _ _ msg HS Hmsg) as (before & Hbefore & Hsuit).
  destruct (decide (mediaUrl msg = mediaUrl before)) as [Esame|Hdiff].
  - left.
    assert (HP : Forall mediaShaped
                   (messages (parseExport (now o) (dataOf t) (chatNameOf (fileName t))))).
    { apply parseExport_Forall; [apply handleLine_mediaShaped|apply mediaShaped_relabel]. }
    rewrite Forall_forall in HP. specialize (HP before (proj2 (list_elem_of_In _ _) Hbefore)).
    destruct HP as (_ & _ & _ & HP). apply (HP url). congruence.
  - right. destruct (Hsuit Hdiff) as (media & Hpool & Hnew & _).
    unfold poolOf in Hpool. apply in_map_iff in Hpool. destruct Hpool as (e & <- & He).
    apply filter_In in He. destruct He as [He Hm].
    exists entries, e. split; [exact Ha|]. split; [exact He|]. split; [exact Hm|].
    split; [rewrite Hurl in Hnew; injection Hnew as ->; reflexivity|].
    intros Hne. unfold unlink in Hun.
    match type of Hun with
    | match ?x with Some _ => _ | None => _ end = _ => destruct x; [|discriminate]
    end.
    injection Hun as <-. unfold Disk in *.
    rewrite lookup_delete_ne by (intros E'; apply Hne; symmetry; exact E').
    apply written_whole. unfold pathsOf.
    apply in_map_iff. exists e. split; [reflexivity|]. apply filter_In. auto.
Qed.

Lemma stored_addresses_resolve_witness :
  let text := js "12/5/23, 3:41 PM - Bob: IMG-20231205-WA0001.jpg (file attached)" in
  let chatEntry := mkEntry (js "Chat_with_Bob.txt") (Completes text) in
  let picture := mkEntry (js "WhatsApp/IMG-20231205-WA0001.jpg") (Completes []) in
  let o := mkOptions (js "uploads/x.zip") (js "u") 0 (Some [chatEntry; picture]) true in
  let p := newProcessor o {[ js "uploads/x.zip" := Whole ]} in
  let url := js "/media/u/IMG-20231205-WA0001.jpg" in
  let msg := mkMessage (Some (js "IMG-20231205-WA0001.jpg (file attached)")) (Some (js "Bob"))
               true 1701790860000 false
               (Some (js "image")) (Some url) (Some (js "IMG-20231205-WA0001.jpg")) in
  let chat := mkParsedChat (js "Chat with Bob") [msg] false in
  httpUrl url \/
  exists entries e,
    archive o = Some entries /\ In e entries /\ isMediaEntry e = true /\
    url = js "/media/" ++ userId o ++ js "/" ++ basename (fileName e) /\
    (destPathOf o (fileName e) <> filePath o ->
     disk (process o p) !! destPathOf o (fileName e) = Some Whole).
Proof.
  intros text chatEntry picture o p url msg chat.
  apply (stored_addresses_resolve o p chat msg url).
  - vm_compute. reflexivity.
  - vm_compute. left. reflexivity.
  - left. reflexivity.
  - reflexivity.
Defined.

End PipelineProperties.

(** ** Line endings *)

Module LineEndingProperties.
Import WhatsAppParser Claims Properties RegexSemantics StringFacts RegexFacts TimestampProperties.

#[local] Arguments js : simpl never.

(** What an expression without [$] and word boundary reads, it reads
    whatever follows. *)
Lemma Matches_tail r prev s c p' s' c' :
  Matches r prev s c p' s' c' -> lookless r = true ->
  exists u, s = u ++ s' /\ forall tail, Matches r prev (u ++ tail) c p' tail c'.
Proof.
  induction 1 as [prev s c|q prev x s c Hq|a b prev s c p1 s1 c1 p2 s2 c2 _ IHa _ IHb
                 |a b prev s c p' s' c' _ IHa|a b prev s c p' s' c' _ IHb
                 |g a prev s c|g a prev s c p1 s1 c1 p2 s2 c2 _ IHa Hlt _ IHb
                 |i a prev s c p' s' c' _ IHa|s c|prev c|prev s c Hw];
    cbn [lookless]; intros Hl;
    try (apply andb_true_iff in Hl; destruct Hl as [Hl1 Hl2]); try discriminate.
  - exists []. split; [reflexivity|]. intros tail. constructor.
  - exists [x]. split; [reflexivity|]. intros tail. constructor. exact Hq.
  - destruct (IHa Hl1) as (u1 & -> & Ta), (IHb Hl2) as (u2 & -> & Tb).
    exists (u1 ++ u2). rewrite <- app_assoc. split; [reflexivity|].
    intros tail. rewrite <- app_assoc. econstructor; [apply Ta|apply Tb].
  - destruct (IHa Hl1) as (u & -> & Ta). exists u. split; [reflexivity|].
    intros tail. apply MAltL, Ta.
  - destruct (IHb Hl2) as (u & -> & Tb). exists u. split; [reflexivity|].
    intros tail. apply MAltR, Tb.
  - exists []. split; [reflexivity|]. intros tail. constructor.
  - destruct (IHa Hl) as (u1 & -> & Ta), (IHb Hl) as (u2 & -> & Tb).
    exists (u1 ++ u2). rewrite <- app_assoc. split; [reflexivity|].
    intros tail. rewrite <- app_assoc. eapply MRepMore; [apply Ta| |apply Tb].
    rewrite !length_app in *. lia.
  - destruct (IHa Hl) as (u & -> & Ta). exists u. split; [reflexivity|].
    intros tail. rewrite firstn_read.
    rewrite <- (firstn_read u tail) at 2. constructor. apply Ta.
  - exists []. split; [reflexivity|]. intros tail. constructor.
Qed.

Lemma refuses_reads (x : N) (r : regex) : refuses x r = true -> reads (fun c => c <> x) r.
Proof.
  induction r; cbn [refuses reads]; intros H; auto;
    try (apply andb_true_iff in H; destruct H as [H1 H2]; split; auto).
  intros y Hy ->. rewrite Hy in H. discriminate.
Qed.

Lemma last_or_nil {A} (l : list A) : l = [] \/ exists l0 z, l = l0 ++ [z].
Proof. induction l as [|z l0 _] using rev_ind; [left; reflexivity|right; eauto]. Qed.

(** A carriage return at the end of the text does not change whether such
    an expression is found in it. *)
Lemma test_cr (r : regex) (l : jsstring) :
  lookless r = true -> refuses 13 r = true -> (1 <= minLen r)%nat ->
  test r (l ++ [13]) = test r l.
Proof.
  intros Hl Hr Hmin. unfold test.
  destruct (exec r (l ++ [13])) as [m|] eqn:E1; destruct (exec r l) as [m'|] eqn:E2;
    try reflexivity; exfalso.
  - apply exec_sound in E1. destruct E1 as (pre & u & rest & p' & c' & Es & HM & _).
    destruct (Matches_tail _ _ _ _ _ _ _ HM Hl) as (u' & Eu & Htail).
    apply app_inv_tail in Eu. subst u'.
    destruct (Matches_reads _ _ _ _ _ _ _ _ HM (refuses_reads 13 r Hr)) as (u' & Eu & Hno).
    apply app_inv_tail in Eu. subst u'.
    destruct (Matches_length _ _ _ _ _ _ _ HM) as [Hlen _]. rewrite length_app in Hlen.
    assert (Hrest : exists rest0, rest = rest0 ++ [13] /\ l = pre ++ u ++ rest0).
    { destruct (last_or_nil rest) as [->|(rest0 & z & ->)].
      - exfalso. rewrite app_nil_r in Es.
        destruct (last_or_nil u) as [->|(u0 & z & ->)]; [simpl in Hlen; lia|].
        rewrite app_assoc in Es. apply app_inj_tail in Es. destruct Es as [_ <-].
        rewrite Forall_app, Forall_cons in Hno. destruct Hno as [_ [Hz _]]. congruence.
      - rewrite !app_assoc in Es. apply app_inj_tail in Es. destruct Es as [-> <-].
        exists rest0. rewrite <- app_assoc. auto. }
    destruct Hrest as (rest0 & -> & ->).
    destruct (search_complete r pre None (u ++ rest0) p' rest0 c' (Htail rest0)) as [m2 Hm2].
    unfold exec in E2. rewrite Hm2 in E2. discriminate.
  - apply exec_sound in E2. destruct E2 as (pre & u & rest & p' & c' & -> & HM & _).
    destruct (Matches_tail _ _ _ _ _ _ _ HM Hl) as (u' & Eu & Htail).
    apply app_inv_tail in Eu. subst u'.
    destruct (search_complete r pre None (u ++ rest ++ [13]) p' (rest ++ [13]) c'
                (Htail (rest ++ [13]))) as [m2 Hm2].
    unfold exec in E1. rewrite <- !app_assoc in E1. rewrite Hm2 in E1. discriminate.
Qed.

Lemma trimStart_spaces (ws : jsstring) : forallb isSpace ws = true -> trimStart ws = [].
Proof.
  induction ws as [|y ws IH]; cbn [forallb trimStart]; [reflexivity|].
  intros H. apply andb_true_iff in H. destruct H as [-> H]. apply IH, H.
Qed.

Lemma trimEnd_app_space (x ws : jsstring) :
  forallb isSpace ws = true -> trimEnd (x ++ ws) = trimEnd x.
Proof.
  intros H. unfold trimEnd. rewrite rev_app_distr, trimStart_app, forallb_rev, H. reflexivity.
Qed.

(** White space at the end of a text is nothing to [trim]. *)
Lemma trim_app_space (x ws : jsstring) :
  forallb isSpace ws = true -> trim (x ++ ws) = trim x.
Proof.
  intros H. unfold trim. rewrite trimStart_app.
  destruct (forallb isSpace x) eqn:Hx.
  - rewrite (trimStart_spaces ws H), (trimStart_spaces x Hx). reflexivity.
  - apply trimEnd_app_space, H.
Qed.

Lemma normalizeLine_cr (rawLine : jsstring) :
  normalizeLine (rawLine ++ [13]) = normalizeLine rawLine.
Proof.
  unfold normalizeLine, normalizeText. rewrite List.filter_app. cbn [List.filter].
  change (negb (isDirectionMark 13)) with true. cbv iota.
  rewrite trim_app_space by reflexivity. reflexivity.
Qed.

Lemma blank_cr (rawLine : jsstring) : blank (rawLine ++ [13]) = blank rawLine.
Proof. unfold blank. rewrite trim_app_space by reflexivity. reflexivity. Qed.

Lemma notice_cr (rawLine : jsstring) :
  test encryptionNoticeRegex (rawLine ++ [13]) = test encryptionNoticeRegex rawLine.
Proof.
  apply test_cr.
  - vm_compute. reflexivity.
  - vm_compute. reflexivity.
  - vm_compute. lia.
Qed.

Lemma parseLine_cr (now : Z) (i : nat) (rawLine : jsstring) (st : ParseState) :
  parseLine now i (rawLine ++ [13]) st = parseLine now i rawLine st.
Proof. unfold parseLine. rewrite blank_cr, notice_cr, normalizeLine_cr. reflexivity. Qed.

Lemma split_nonempty (sep : N) (s : jsstring) : split sep s <> [].
Proof.
  induction s as [|c r IH]; cbn [split]; [discriminate|].
  destruct (c =? sep); [discriminate|]. destruct (split sep r); discriminate.
Qed.

Lemma split_crlf (text : jsstring) : split 10 (crlf text) = crLines (split 10 text).
Proof.
  induction text as [|c r IH]; [reflexivity|].
  unfold crlf in *. cbn [flat_map]. destruct (N.eqb_spec c 10) as [->|Hc].
  - cbn [app split]. change (13 =? 10) with false. change (10 =? 10) with true. cbv iota.
    rewrite IH. pose proof (split_nonempty 10 r) as Hne.
    destruct (split 10 r) as [|p ps]; [congruence|]. reflexivity.
  - cbn [app split]. apply N.eqb_neq in Hc. rewrite Hc, IH.
    pose proof (split_nonempty 10 r) as Hne.
    destruct (split 10 r) as [|p [|q ps]]; [congruence| |]; reflexivity.
Qed.

Lemma parseLines_crLines (now : Z) (lines : list jsstring) :
  forall i st, parseLines now i (crLines lines) st = parseLines now i lines st.
Proof.
  induction lines as [|l [|l' rest] IH]; intros i st; try reflexivity.
  change (crLines (l :: l' :: rest)) with ((l ++ [13]) :: crLines (l' :: rest)).
  cbn [parseLines]. rewrite parseLine_cr. apply IH.
Qed.

(** X29: the line endings of the transcript do not matter: the text with
    a carriage return before every line feed is parsed as the text
    itself. *)
Theorem crlf_is_harmless (now : Z) (content chatName : jsstring) :
  parseExport now (crlf content) chatName = parseExport now content chatName.
Proof.
  unfold parseExport. rewrite split_crlf, parseLines_crLines. reflexivity.
Qed.

End LineEndingProperties.
